(** * s3-mp-download: the parallel range-download engine

    A shallow embedding of [s3-mp-downloader/s3-mp-download.py] and the
    properties its specification states about it.

    Conventions of the embedding.
    - Python integers are [Z]. A float is the rational it stands for, and
      the operations on floats round to the nearest binary64 number, ties to
      even ([Float.b64]); an int too large for a float, and a quotient of
      two ints too large for one, raise [OverflowError]. The part length of
      the planner, the part count of the coordinator and the divisions of
      [format_bytes] are computed so. Below 2^53 they are what the exact
      quotients give ([PlannerFacts.part_size_exact],
      [CoordinatorFacts.compute_num_parts_exact]). The numbers of the
      monitor, which are time stamps, speed, percentage and bar, are
      rationals and are not rounded.
    - Exceptions are values of [exn]; a computation that may raise returns a
      [result].
    - The file system, the progress queue, the stop event and the log of the
      calls that leave the process form the [world] that the effectful code
      threads. Paths are POSIX paths, taken as they are written: a path
      names a directory when it is among the directories of the world, and
      the working directory and the root are always there. A file is created
      in the directory its path names, and only there; whether the operating
      system refuses to open a file for writing is an input (field
      [create_denied] of the environment). A write to a file writes the
      whole chunk.
    - What other processes do to the stop event between two observations of
      one actor is an input of that actor (field [cancel_seen] of the
      environment), as are the replies of the remote store, the clock and
      the keyboard.
    - The pool runs its tasks on the schedule that takes them in order; the
      monitor thread is started and joined by the coordinator and modelled
      on its own.
    - Logging is left out, and with it the text of the size that [main]
      logs; the status line is logged with its numbers. [format_bytes],
      which prints them, is modelled on its own. The depth of the recursion
      of a retrying worker is not bounded. *)

From Stdlib Require Import ZArith QArith Qround Qabs Qpower Lia Lqa Ascii String.
From stdpp Require Import gmap strings list pretty.
From Equations Require Import Equations.

Open Scope Z_scope.

(** ** Exceptions and results *)

Inductive exn : Type :=
| ValueError (msg : string)
| ClientError (code : string)      (* botocore ClientError, with response['Error']['Code'] *)
| OSError (msg : string)
| ZeroDivisionError
| OverflowError
| IndexError
| TransportError (msg : string)    (* any other Exception of the S3 client or its stream *)
| KeyboardInterrupt (msg : string)
| SystemExit (code : Z).

Inductive result (A : Type) : Type :=
| Ok (a : A)
| Raise (e : exn).
Arguments Ok {A} a.
Arguments Raise {A} e.

Global Instance result_ret : MRet result := λ A a, Ok a.

Global Instance result_bind : MBind result := λ A B k r,
  match r with
  | Ok a => k a
  | Raise e => Raise e
  end.

(** ** Binary64 numbers

    A float is the rational it stands for; the operations round to the
    nearest binary64 number, ties to even. *)

Module Float.

(** [2 ** e] *)
Definition pow2 (e : Z) : Q := (2 ^ e)%Q.

(** The integer nearest to [y]; of two that are as near, the even one. *)
Definition round_half_even (y : Q) : Z :=
  let n := Qfloor y in
  match (y - inject_Z n ?= 1 # 2)%Q with
  | Lt => n
  | Gt => n + 1
  | Eq => if Z.even n then n else n + 1
  end.

(** The exponent [b] with [2^b <= x < 2^(b+1)], for [x > 0]. *)
Definition binade (x : Q) : Z :=
  if Qle_bool 1 x then Z.log2 (Qfloor x) else - Z.log2_up (Qceiling (/ x)).

(** The smallest exponent of a normal number. *)
Definition emin : Z := -1022.

(** The exponent of the spacing of the binary64 numbers around [x > 0]: 53
    bits of mantissa, and the spacing of the subnormal numbers below
    [2^emin]. *)
Definition ulp_exp (x : Q) : Z := Z.max (binade x) emin - 52.

(** The multiple of [2^e] nearest to [x]. *)
Definition round_at (e : Z) (x : Q) : Q :=
  (inject_Z (round_half_even (x / pow2 e)) * pow2 e)%Q.

(** Rounding to the nearest binary64 number, ties to even, with no bound on
    the exponent from above. *)
Definition b64 (x : Q) : Q :=
  match (x ?= 0)%Q with
  | Eq => 0%Q
  | Gt => round_at (ulp_exp x) x
  | Lt => (- round_at (ulp_exp (- x)) (- x))%Q
  end.

(** The largest binary64 number. *)
Definition max_float : Q := inject_Z ((2 ^ 53 - 1) * 2 ^ 971).

Definition finite (x : Q) : bool := Qle_bool (Qabs x) max_float.

(** *** The operations of Python on floats that the program uses *)

(** [float(k)] for an int, as [1. * k] and a division of a float by [k]
    take it. *)
Definition of_int (k : Z) : result Q :=
  let x := b64 (inject_Z k) in
  if finite x then Ok x else Raise OverflowError.

(** [a / b] for two ints: the quotient is rounded once. *)
Definition int_truediv (a b : Z) : result Q :=
  if decide (b = 0) then Raise ZeroDivisionError
  else
    let x := b64 (inject_Z a / inject_Z b) in
    if finite x then Ok x else Raise OverflowError.

(** [x / k] for a float and an int. *)
Definition div_int (x : Q) (k : Z) : result Q :=
  y ← of_int k;
  if Qeq_bool y 0 then Raise ZeroDivisionError else Ok (b64 (x / y)).

(** [int(ceil(x))]; a quotient too large for binary64 is infinite, and its
    ceiling raises. *)
Definition ceil (x : Q) : result Z :=
  if finite x then Ok (Qceiling x) else Raise OverflowError.

End Float.

(** ** RangePlanner: [gen_byte_ranges] *)

Module Planner.

Definition byte_range : Type := (Z * Z)%type.

(** The body of [for i in range(num_parts)], from counter value [i], with
    [todo] iterations left; every iteration yields one pair. *)
Fixpoint gen_loop (size part_size i : Z) (todo : nat) : list byte_range :=
  match todo with
  | O => []
  | S todo' =>
      let start := part_size * i in
      let end_ := Z.min (part_size * (i + 1) - 1) (size - 1) in
      (start, end_) :: gen_loop size part_size (i + 1) todo'
  end.

(** [int(ceil(1. * size / num_parts))], in binary64 as the program computes
    it. *)
Definition part_size (size num_parts : Z) : result Z :=
  x ← Float.of_int size;
  q ← Float.div_int x num_parts;
  Float.ceil q.

(** The values the generator yields, or the exception of its first [next]. *)
Definition gen_byte_ranges (size num_parts : Z) : result (list byte_range) :=
  part_size ← part_size size num_parts;
  Ok (gen_loop size part_size 0 (Z.to_nat num_parts)).

(** *** What a plan should be *)

(** The ceiling of the exact quotient of two integers, [b <> 0]. *)
Definition ceil_div (a b : Z) : Z := - ((- a) / b).

Definition range_len (r : byte_range) : Z := r.2 - r.1 + 1.

(** Every range is non-empty and starts right after the previous one ends;
    the first starts at [lo]. *)
Fixpoint contiguous_from (lo : Z) (plan : list byte_range) : Prop :=
  match plan with
  | [] => True
  | r :: rest => r.1 = lo ∧ r.1 ≤ r.2 ∧ contiguous_from (r.2 + 1) rest
  end.

Definition ordered (plan : list byte_range) : Prop :=
  ∀ (i j : nat) ri rj,
    plan !! i = Some ri → plan !! j = Some rj → (i < j)%nat → ri.2 < rj.1.

Definition non_overlapping (plan : list byte_range) : Prop :=
  ∀ (i j : nat) ri rj,
    plan !! i = Some ri → plan !! j = Some rj → i ≠ j →
    ∀ b, ¬ (ri.1 ≤ b ≤ ri.2 ∧ rj.1 ≤ b ≤ rj.2).

Definition covers (size : Z) (plan : list byte_range) : Prop :=
  ∀ b, (∃ r, r ∈ plan ∧ r.1 ≤ b ≤ r.2) ↔ 0 ≤ b ≤ size - 1.

Definition total_len (plan : list byte_range) : Z :=
  foldr (λ r acc, range_len r + acc) 0 plan.

Record valid_plan (size : Z) (plan : list byte_range) : Prop := {
  vp_contiguous : contiguous_from 0 plan;
  vp_ordered : ordered plan;
  vp_disjoint : non_overlapping plan;
  vp_covers : covers size plan;
  vp_total : total_len plan = size;
}.

(** The last part is not empty: it starts inside the object. *)
Definition last_part_inside (size num_parts : Z) : Prop :=
  ceil_div size num_parts * (num_parts - 1) < size.

(** Where a run of contiguous ranges that starts at [lo] ends. *)
Fixpoint plan_end (lo : Z) (plan : list byte_range) : Z :=
  match plan with
  | [] => lo
  | r :: rest => plan_end (r.2 + 1) rest
  end.

End Planner.

(** ** Formatter: [format_bytes] *)

Module Format.

(** A size is an int, as the content length and the byte counts are, or a
    float, as the speed is; a float is a finite binary64 number. *)
Inductive number : Type :=
| Int (k : Z)
| Flt (x : Q).

(** The number a size stands for. *)
Definition value (size : number) : Q :=
  match size with
  | Int k => inject_Z k
  | Flt x => x
  end.

Definition power : Z := 2 ^ 10.

(** [power_labels.get(n, '')] *)
Definition power_labels (n : nat) : string :=
  match n with
  | 1%nat => "K"
  | 2%nat => "M"
  | 3%nat => "G"
  | 4%nat => "T"
  | _ => ""
  end.

(** [size > power] *)
Definition exceeds_power (size : number) : bool :=
  negb (Qle_bool (value size) (inject_Z power)).

(** [size / power]: the quotient of two ints, or of a float and an int. *)
Definition over_power (size : number) : result Q :=
  match size with
  | Int k => Float.int_truediv k power
  | Flt x => Float.div_int x power
  end.

(** The rounds of the loop are bounded by the bits of the size. *)
Definition rounds (size : number) : nat :=
  Z.to_nat (Z.log2_up (Qceiling (value size))).

(** [while size > power: size /= power; n += 1], from the values [size] and
    [n] on, for at most [fuel] rounds; returns the two when the loop is
    left. *)
Fixpoint scale_loop (fuel : nat) (size : number) (n : nat) : result (number * nat) :=
  if exceeds_power size then
    match fuel with
    | O => Ok (size, n)
    | S fuel' =>
        quotient ← over_power size;
        scale_loop fuel' (Flt quotient) (S n)
    end
  else Ok (size, n).

(** The loop of [format_bytes]. The fuel is enough for the loop to be left
    by its condition ([FormatFacts.scale_loop_leaves]). *)
Definition scale (size : number) : result (number * nat) :=
  scale_loop (rounds size) size 0.

(** The float that [f"{size:.2f}"] formats. *)
Definition to_float (size : number) : result Q :=
  match size with
  | Int k => Float.of_int k
  | Flt x => Ok x
  end.

(** [f"{x:.2f}"]: the decimal number with two digits after the point that
    is nearest to [x], the even one of two that are equally near. *)
Definition two_decimals (x : Q) : string :=
  let hundredths := Z.abs (Float.round_half_even (x * 100)) in
  (if Qle_bool 0 x then "" else "-")
  +:+ pretty (hundredths / 100) +:+ "."
  +:+ (if decide (hundredths mod 100 < 10) then "0" else "")
  +:+ pretty (hundredths mod 100).

Definition format_bytes (size : number) : result string :=
  '(size, n) ← scale size;
  x ← to_float size;
  Ok (two_decimals x +:+ " " +:+ power_labels n +:+ "B").

(** [power ** k] *)
Fixpoint power_of (k : nat) : Q :=
  match k with
  | O => 1
  | S k' => inject_Z power * power_of k'
  end%Q.

End Format.

(** ** The world the program acts on *)

Abbreviation byte := Byte.byte.

(** Methods of a [multiprocessing] event object. *)
Inductive event_op : Type := OpIsSet | OpSet | OpClear | OpWait.

(** Calls that leave the process or drive its helpers, in program order. *)
Inductive event : Type :=
| EvClient (unsigned : bool) (region_name : option string) (use_ssl : bool)
| EvHeadObject (bucket key : string)
| EvDownloadFile (bucket key dest : string)
| EvGetObject (bucket key : string) (first_byte last_byte : Z)
| EvStop (op : event_op)
| EvSleep (milliseconds : Z)
| EvManager
| EvMonitorStart
| EvMonitorJoin
| EvPool (processes : Z)
| EvPlan (size num_parts : Z)
| EvPoolClose
| EvPoolJoin
| EvPoolTerminate
| EvStderr (text : string)
| EvStatus (filled_len : Z) (percent : Q) (downloaded total_size : Z) (speed : Q).

Definition is_network_call (ev : event) : bool :=
  match ev with
  | EvHeadObject _ _ | EvDownloadFile _ _ _ | EvGetObject _ _ _ _ => true
  | _ => false
  end.

Record world : Type := World {
  files : gmap string (list byte);   (* regular files, by path *)
  dirs : gset string;                (* directories *)
  queue : list Z;                    (* progress queue, oldest entry first *)
  stop : bool;                       (* flag of the stop event *)
  seen : nat;                        (* observations of the stop event so far *)
  trace : list event;                (* oldest call first *)
}.

(** Reply of [get_object] and of the iteration over its body: the chunks the
    stream delivers and, when it breaks, the exception that ends it. *)
Inductive get_result : Type :=
| GetRaises (e : exn)
| GetBody (chunks : list (list byte)) (broken : option exn).

Inductive head_result : Type :=
| HeadOk (content_length : Z)
| HeadRaises (e : exn).

(** What the outside does: the remote store, the other processes, the user. *)
Record env : Type := Env {
  head_reply : head_result;
  download_reply : result (list byte);
  (* reply to the request for a byte range at a given value of current_tries *)
  get_reply : Z → Z → Z → get_result;
  (* has another process set the stop event by this observation? *)
  cancel_seen : nat → bool;
  (* CTRL+C while the coordinator waits, after that many task chunks are done *)
  sigint : option nat;
  (* progress_monitor: clock, keyboard and queue at each round of its loop *)
  os_nt : bool;
  clock : nat → Q;
  key_hit : nat → option string;
  arrivals : nat → list Z;
  (* does the operating system refuse to open this path for writing, as for
     lack of permission on the file or on its directory? *)
  create_denied : string → bool;
}.

(** ** A state and exception monad over the world *)

Definition M (A : Type) : Type := world → result A * world.

Global Instance M_ret : MRet M := λ A a w, (Ok a, w).

Global Instance M_bind : MBind M := λ A B k m w,
  match m w with
  | (Ok a, w') => k a w'
  | (Raise e, w') => (Raise e, w')
  end.

Definition raise {A} (e : exn) : M A := λ w, (Raise e, w).

(** Runs [m] and hands back how it ended, for [try] blocks. *)
Definition attempt {A} (m : M A) : M (result A) := λ w,
  let (r, w') := m w in (Ok r, w').

Definition lift {A} (r : result A) : M A := λ w, (r, w).

Definition emit (ev : event) : M () := λ w,
  (Ok (), World (files w) (dirs w) (queue w) (stop w) (seen w) (trace w ++ [ev])).

(** [except Exception] lets KeyboardInterrupt and SystemExit through. *)
Definition is_Exception (e : exn) : bool :=
  match e with
  | KeyboardInterrupt _ | SystemExit _ => false
  | _ => true
  end.

(** *** The stop event *)

Definition event_is_set (E : env) : M bool := λ w,
  let b := stop w || cancel_seen E (seen w) in
  (Ok b, World (files w) (dirs w) (queue w) b (S (seen w)) (trace w ++ [EvStop OpIsSet])).

Definition event_set : M () := λ w,
  (Ok (), World (files w) (dirs w) (queue w) true (seen w) (trace w ++ [EvStop OpSet])).

(** [manager.Event()]: a new event, not set. *)
Definition event_new : M () := λ w,
  (Ok (), World (files w) (dirs w) (queue w) false (seen w) (trace w)).

(** *** The progress queue *)

Definition queue_put (n : Z) : M () := λ w,
  (Ok (), World (files w) (dirs w) (queue w ++ [n]) (stop w) (seen w) (trace w)).

(** *** Files *)

Record open_file : Type := OpenFile { fd_path : string; fd_pos : Z }.

Definition path_exists (w : world) (path : string) : bool :=
  bool_decide (path ∈ dirs w) || bool_decide (is_Some (files w !! path)).

Definition set_files (fs : gmap string (list byte)) : M () := λ w,
  (Ok (), World fs (dirs w) (queue w) (stop w) (seen w) (trace w)).

Definition get_world : M world := λ w, (Ok w, w).

(** [os.open(path, os.O_WRONLY)] *)
Definition os_open_wronly (path : string) : M open_file :=
  w ← get_world;
  match files w !! path with
  | Some _ => mret (OpenFile path 0)
  | None => raise (OSError "cannot open")
  end.

(** [os.lseek(fd, pos, os.SEEK_SET)] *)
Definition os_lseek (fd : open_file) (pos : Z) : M open_file :=
  if decide (pos < 0) then raise (OSError "invalid argument")
  else mret (OpenFile (fd_path fd) pos).

(** Bytes of a file after [chunk] is written at offset [pos]; a hole between
    the old end of the file and [pos] reads as zeros; writing nothing changes
    nothing. *)
Definition write_at (content : list byte) (pos : Z) (chunk : list byte) : list byte :=
  if decide (chunk = []) then content
  else
    let p := Z.to_nat pos in
    take p content ++ replicate (p - length content)%nat Byte.x00
      ++ chunk ++ drop (p + length chunk)%nat content.

(** [os.write(fd, chunk)]: writes at the offset of [fd] and advances it. *)
Definition os_write (fd : open_file) (chunk : list byte) : M open_file :=
  w ← get_world;
  set_files (alter (λ content, write_at content (fd_pos fd) chunk) (fd_path fd) (files w));;
  mret (OpenFile (fd_path fd) (fd_pos fd + Z.of_nat (length chunk))).

Definition os_close (fd : open_file) : M () := mret ().

(** [posixpath.split(path)]: what stands before the last slash, the slash
    included, and what stands after it. *)
Fixpoint split_from (head seg s : string) : string * string :=
  match s with
  | EmptyString => (head, seg)
  | String c rest =>
      if decide (c = "/"%char) then split_from (head +:+ seg +:+ "/") "" rest
      else split_from head (seg +:+ String c "") rest
  end.

Fixpoint all_slashes (s : string) : bool :=
  match s with
  | EmptyString => true
  | String c rest => bool_decide (c = "/"%char) && all_slashes rest
  end.

(** [s.rstrip('/')] *)
Fixpoint rstrip_slash (s : string) : string :=
  match s with
  | EmptyString => s
  | String c rest => if all_slashes s then "" else String c (rstrip_slash rest)
  end.

(** [os.path.dirname(path)] *)
Definition dirname (path : string) : string :=
  let head := (split_from "" "" path).1 in
  if all_slashes head then head else rstrip_slash head.

(** [os.path.basename(path)] *)
Definition basename (path : string) : string := (split_from "" "" path).2.

(** The directory a new file [path] goes into is there: the working
    directory, the root, or a directory of the world. *)
Definition parent_exists (w : world) (path : string) : bool :=
  all_slashes (dirname path) || bool_decide (dirname path ∈ dirs w).

(** [os.open(path, os.O_CREAT | os.O_WRONLY)] then [os.close]: a file that is
    there is opened and left as it is, a file that is not there is created
    empty in its directory. The call fails for a directory, for a file whose
    directory is not there, and where the operating system refuses it. *)
Definition os_create (E : env) (path : string) : M () :=
  w ← get_world;
  if bool_decide (path ∈ dirs w) || bool_decide (basename path = "")
  then raise (OSError "is a directory")
  else match files w !! path with
       | Some _ =>
           if create_denied E path then raise (OSError "permission denied")
           else mret ()
       | None =>
           if negb (parent_exists w path) then raise (OSError "no such file or directory")
           else if create_denied E path then raise (OSError "permission denied")
           else set_files (<[path := []]> (files w))
       end.

(** The file [path] can be created or opened for writing: it is no
    directory, its directory is there, and the operating system allows it. *)
Definition creatable (E : env) (w : world) (path : string) : Prop :=
  (path ∉ dirs w) ∧ basename path ≠ "" ∧ parent_exists w path = true ∧
  create_denied E path = false.

(** [os.remove(path)] *)
Definition os_remove (path : string) : M () :=
  w ← get_world;
  match files w !! path with
  | Some _ => set_files (delete path (files w))
  | None => raise (OSError "cannot remove")
  end.

(** ** PartWorker: [do_part_download] *)

Module Worker.

(** The argument tuple; [queue_on] tells whether [queue] is not [None]. The
    stop event is the one of the world. *)
Record task : Type := Task {
  bucket_name : string;
  key_name : string;
  fname : string;
  min_byte : Z;
  max_byte : Z;
  split : Z;
  secure : bool;
  max_tries : Z;
  current_tries : Z;
  is_public : bool;
  region : string;
  queue_on : bool;
}.

Definition retry (t : task) : task :=
  Task (bucket_name t) (key_name t) (fname t) (min_byte t) (max_byte t) (split t)
       (secure t) (max_tries t) (current_tries t + 1) (is_public t) (region t)
       (queue_on t).

(** The [Config] built from [config_args] and
    [boto3.client('s3', config=config, use_ssl=secure)]; [if region:] holds
    for a non-empty string. *)
Definition new_client (public : bool) (region : string) (secure : bool) : M () :=
  emit (EvClient public (if decide (region = "") then None else Some region) secure).

(** [s3_client.get_object(Bucket=..., Key=..., Range="bytes=%d-%d")] *)
Definition get_object (E : env) (t : task) : M (list (list byte) * option exn) :=
  emit (EvGetObject (bucket_name t) (key_name t) (min_byte t) (max_byte t));;
  match get_reply E (min_byte t) (max_byte t) (current_tries t) with
  | GetRaises e => raise e
  | GetBody chunks broken => mret (chunks, broken)
  end.

(** [for chunk in stream.iter_chunks(chunk_size=chunk_size): ...] *)
Fixpoint write_chunks (E : env) (t : task) (fd : open_file)
    (chunks : list (list byte)) (broken : option exn) : M () :=
  match chunks with
  | [] => match broken with
          | Some e => raise e
          | None => mret ()
          end
  | chunk :: rest =>
      stopped ← event_is_set E;
      if (stopped : bool) then mret ()
      else if decide (chunk = []) then mret ()
      else
        fd' ← os_write fd chunk;
        (if queue_on t then queue_put (Z.of_nat (length chunk)) else mret ());;
        write_chunks E t fd' rest broken
  end.

(** The body of the first [try]: the file handle, at the start of the part. *)
Definition open_part (t : task) : M open_file :=
  fd ← os_open_wronly (fname t);
  os_lseek fd (min_byte t).

(** The body of the second [try]: the range request and the chunk loop. *)
Definition fetch_part (E : env) (t : task) (fd : open_file) : M () :=
  '(chunks, broken) ← get_object E t;
  write_chunks E t fd chunks broken.

(** Retries still allowed before the [except] branch gives up. *)
Definition tries_left (t : task) : nat := Z.to_nat (max_tries t + 1 - current_tries t).

Equations? do_part_download (E : env) (t : task) : M () by wf (tries_left t) lt :=
do_part_download E t :=
  stopped ← event_is_set E;
  if (stopped : bool) then mret ()
  else
    new_client (is_public t) (region t) (secure t);;
    opened ← attempt (open_part t);
    match opened with
    | Raise (OSError msg) =>
        stopped ← event_is_set E;
        if (stopped : bool) then mret () else raise (OSError msg)
    | Raise e => raise e
    | Ok fd =>
        fetched ← attempt (fetch_part E t fd);
        match fetched with
        | Ok _ => os_close fd
        | Raise err =>
            if is_Exception err then
              stopped ← event_is_set E;
              if (stopped : bool) then os_close fd
              else
                match decide (current_tries t > max_tries t) with
                | left _ => raise err
                | right _ =>
                    emit (EvSleep 3000);;
                    os_close fd;;
                    do_part_download E (retry t)
                end
            else raise err
        end
    end.
Proof. unfold tries_left, retry; simpl. lia. Qed.

End Worker.

(** ** ProgressAggregator: [progress_monitor] *)

Module Monitor.

(** The deque of (time, bytes) samples, oldest first. *)
Definition window : Type := list (Q * Z).

(** [dq.append(x)] on a [collections.deque(maxlen=...)] *)
Definition deque_append (maxlen : nat) (dq : window) (x : Q * Z) : window :=
  drop (length (dq ++ [x]) - maxlen)%nat (dq ++ [x]).

(** Python's [/] on numbers. *)
Definition truediv (a b : Q) : result Q :=
  if Qeq_bool b 0 then Raise ZeroDivisionError else Ok (a / b)%Q.

(** The moving-average step: appends the sample, then compares it with the
    oldest one kept. Returns the new window and the speed. *)
Definition speed_step (dq : window) (current_time : Q) (downloaded : Z)
  : result (window * Q) :=
  let dq := deque_append 20 dq (current_time, downloaded) in
  match dq with
  | [] => Raise IndexError
  | (old_time, old_bytes) :: _ =>
      let time_diff := (current_time - old_time)%Q in
      let bytes_diff := downloaded - old_bytes in
      match (if Qlt_le_dec 0 time_diff then truediv (inject_Z bytes_diff) time_diff
             else Ok 0%Q) with
      | Ok speed => Ok (dq, speed)
      | Raise e => Raise e
      end
  end.

Definition percent_of (downloaded total_size : Z) : result Q :=
  if decide (total_size > 0) then
    match truediv (inject_Z downloaded) (inject_Z total_size) with
    | Ok q => Ok (q * 100)%Q
    | Raise e => Raise e
    end
  else Ok 0%Q.

Definition bar_len : Z := 30.

(** What the monitor writes to stderr besides the status line. *)
Definition esc : string := String (ascii_of_nat 27) "".
Definition newline : string := String (ascii_of_nat 10) "".
Definition hide_cursor : string := esc +:+ "[?25l".
Definition show_cursor : string := esc +:+ "[?25h" +:+ newline.
Definition key_q_detected : string :=
  newline +:+ "Key 'q' detected. Stopping..." +:+ newline.

(** [key.lower() == 'q'] *)
Definition is_q (key : string) : bool := bool_decide (key = "q" ∨ key = "Q").

(** Moves what the workers have put since the last round into the queue, then
    empties the queue and returns the sum of what was in it. *)
Definition drain_queue (E : env) (round : nat) : M Z := λ w,
  (Ok (foldr Z.add 0 (queue w ++ arrivals E round)),
   World (files w) (dirs w) [] (stop w) (seen w) (trace w)).

(** The [while not stop_event.is_set()] loop, for at most [rounds] rounds.
    Returns [true] when the loop is left, [false] when it is still running
    after [rounds] rounds. *)
Fixpoint monitor_loop (E : env) (total_size : Z) (rounds round : nat)
    (downloaded : Z) (dq : window) : M bool :=
  match rounds with
  | O => mret false
  | S rounds' =>
      stopped ← event_is_set E;
      if (stopped : bool) then mret true
      else
        got ← drain_queue E round;
        let downloaded := downloaded + got in
        let pressed :=
          if os_nt E then
            match key_hit E round with
            | Some key => is_q key
            | None => false
            end
          else false in
        if (pressed : bool) then
          emit (EvStderr key_q_detected);;
          event_set;;
          mret true
        else
          let current_time := clock E round in
          '(dq, speed) ← lift (speed_step dq current_time downloaded);
          percent ← lift (percent_of downloaded total_size);
          let filled_len := Qfloor (inject_Z bar_len * percent / 100)%Q in
          emit (EvStatus filled_len percent downloaded total_size speed);;
          if bool_decide (downloaded >= total_size ∧ total_size > 0) then mret true
          else
            emit (EvSleep 100);;
            monitor_loop E total_size rounds' (S round) downloaded dq
  end.

Definition progress_monitor (E : env) (total_size : Z) (rounds : nat) : M bool :=
  emit (EvStderr hide_cursor);;
  left_loop ← monitor_loop E total_size rounds 0 0 [];
  if (left_loop : bool) then emit (EvStderr show_cursor);; mret true
  else mret false.

End Monitor.

(** ** DownloadCoordinator: [main] *)

Module Coordinator.

(** The fields of [urllib.parse.urlsplit(src)] that [main] reads. *)
Record split_result : Type := SplitResult {
  scheme : string;
  netloc : string;
  path : string;
}.

(** The keyword arguments of [main]. *)
Record options : Type := Options {
  src : string;
  dest : string;
  num_processes : Z;
  split : Z;
  force : bool;
  verbose : bool;
  quiet : bool;
  secure : bool;
  max_tries : Z;
  public : bool;
  region : string;
  show_progress : bool;
  clean : bool;
}.

(** *** String helpers *)

(** [s.split('/')[-1]] *)
Fixpoint last_segment_from (seg s : string) : string :=
  match s with
  | EmptyString => seg
  | String c rest =>
      if decide (c = "/"%char) then last_segment_from "" rest
      else last_segment_from (seg +:+ String c "") rest
  end.
Definition last_segment (s : string) : string := last_segment_from "" s.

(** [s.lstrip('/')] *)
Fixpoint lstrip_slash (s : string) : string :=
  match s with
  | String c rest => if decide (c = "/"%char) then lstrip_slash rest else s
  | EmptyString => s
  end.

Definition starts_with_slash (s : string) : bool :=
  match s with
  | String c _ => bool_decide (c = "/"%char)
  | EmptyString => false
  end.

Fixpoint ends_with_slash (s : string) : bool :=
  match s with
  | EmptyString => false
  | String c EmptyString => bool_decide (c = "/"%char)
  | String _ rest => ends_with_slash rest
  end.

(** [os.path.join(a, b)] of posixpath *)
Definition path_join (a b : string) : string :=
  if starts_with_slash b then b
  else if bool_decide (a = "") || ends_with_slash a then a +:+ b
  else a +:+ "/" +:+ b.

(** *** Messages of the errors [main] raises itself *)

Definition not_s3_msg (src : string) : string := "'" +:+ src +:+ "' is not an S3 url".
Definition dest_exists_msg (dest : string) : string :=
  "Destination file '" +:+ dest +:+ "' exists, specify -f to overwrite".
Definition not_found_msg (src : string) : string := "'" +:+ src +:+ "' does not exist.".
Definition access_denied_msg : string :=
  "Access Denied. If this is a public file, try --public".

(** *** The steps of [main] *)

(** The destination after [if os.path.isdir(dest): ...]. *)
Definition resolve_dest (w : world) (split_rs : split_result) (dest : string) : string :=
  if bool_decide (dest ∈ dirs w) then path_join dest (last_segment (path split_rs))
  else dest.

(** The [try: head = s3.head_object(...) except ClientError] block. *)
Definition query_size (E : env) (src bucket_name key_name : string) : M Z :=
  emit (EvHeadObject bucket_name key_name);;
  match head_reply E with
  | HeadOk content_length => mret content_length
  | HeadRaises (ClientError code) =>
      if decide (code = "404") then raise (ValueError (not_found_msg src))
      else if decide (code = "403") then raise (ValueError access_denied_msg)
      else raise (ClientError code)
  | HeadRaises e => raise e
  end.

(** [s3.download_file(bucket_name, key_name, dest)] *)
Definition download_file (E : env) (bucket_name key_name dest : string) : M () :=
  emit (EvDownloadFile bucket_name key_name dest);;
  match download_reply E with
  | Ok content => w ← get_world; set_files (<[dest := content]> (files w))
  | Raise e => raise e
  end.

(** [split] after [if split == 0: split = 32]. *)
Definition effective_split (split : Z) : Z := if decide (split = 0) then 32 else split.

(** The "Calculations" block: [size_mb = size / 1024 / 1024], then
    [int(ceil(size_mb / split))], in binary64. *)
Definition compute_num_parts (size split : Z) : result Z :=
  kb ← Float.int_truediv size 1024;
  size_mb ← Float.div_int kb 1024;
  q ← Float.div_int size_mb (effective_split split);
  num_parts ← Float.ceil q;
  Ok (if decide (num_parts < 1) then 1 else num_parts).

(** [manager.Queue()]: a new queue, empty. *)
Definition queue_new : M () := λ w,
  (Ok (), World (files w) (dirs w) [] (stop w) (seen w) (trace w)).

(** The tuples [arg_iterator] yields. *)
Definition arg_iterator (o : options) (bucket_name key_name dest : string) (split : Z)
    (plan : list Planner.byte_range) : list Worker.task :=
  (λ r : Planner.byte_range,
     Worker.Task bucket_name key_name dest r.1 r.2 split (secure o) (max_tries o) 0
                 (public o) (region o) (show_progress o)) <$> plan.

(** *** The worker pool, on the schedule that runs the tasks in order *)

(** [Pool.map_async] cuts the task list into chunks of this many tasks. *)
Definition chunksize (tasks : nat) (processes : Z) : nat :=
  let d := (Z.to_nat processes * 4)%nat in
  (if decide (tasks `mod` d = 0)%nat then tasks `div` d else S (tasks `div` d))%nat.

Fixpoint chunked {A} (size fuel : nat) (l : list A) : list (list A) :=
  match fuel, l with
  | S fuel', _ :: _ => take size l :: chunked size fuel' (drop size l)
  | _, _ => []
  end.

(** One chunk in one pool process: stops at the first exception. *)
Fixpoint run_chunk (E : env) (tasks : list Worker.task) : M () :=
  match tasks with
  | [] => mret ()
  | t :: rest => Worker.do_part_download E t;; run_chunk E rest
  end.

(** All chunks; keeps the first exception. *)
Fixpoint run_chunks (E : env) (chunks : list (list Worker.task)) (first : option exn)
  : M (option exn) :=
  match chunks with
  | [] => mret first
  | c :: rest =>
      r ← attempt (run_chunk E c);
      run_chunks E rest (match first, r with
                         | None, Raise e => Some e
                         | _, _ => first
                         end)
  end.

(** [pool.map_async(do_part_download, ...)] and [result.get(2000000)]. *)
Definition map_async_get (E : env) (processes : Z) (tasks : list Worker.task) : M () :=
  let chunks := chunked (chunksize (length tasks) processes) (length tasks) tasks in
  match sigint E with
  | Some done =>
      run_chunks E (take done chunks) None;;
      raise (KeyboardInterrupt "")
  | None =>
      first ← run_chunks E chunks None;
      match first with
      | Some e => raise e
      | None => mret ()
      end
  end.

Section Main.

Context (urlsplit : string → split_result).
Context (E : env).

(** The body of the [try] block around the pool. *)
Definition parallel_body (o : options) (bucket_name key_name dest : string)
    (size split num_parts : Z) : M () :=
  (if decide (num_processes o < 1)
   then raise (ValueError "Number of processes must be at least 1")
   else emit (EvPool (num_processes o)));;
  plan ← lift (Planner.gen_byte_ranges size num_parts);
  emit (EvPlan size num_parts);;
  map_async_get E (num_processes o) (arg_iterator o bucket_name key_name dest split plan);;
  emit EvPoolClose;;
  emit EvPoolJoin;;
  stopped ← event_is_set E;
  if (stopped : bool) then raise (KeyboardInterrupt "Stopped by user via 'q'")
  else if show_progress o then event_set;; emit EvMonitorJoin
  else mret ().

(** [except KeyboardInterrupt:] *)
Definition on_keyboard_interrupt (o : options) (dest : string) (has_pool : bool) : M () :=
  event_set;;
  (if has_pool then emit EvPoolTerminate;; emit EvPoolJoin else mret ());;
  (if show_progress o then emit EvMonitorJoin else mret ());;
  (if clean o then
     removed ← attempt (w ← get_world;
                        if path_exists w dest then os_remove dest else mret ());
     match removed with
     | Raise e => if is_Exception e then mret () else raise e
     | Ok _ => mret ()
     end
   else mret ());;
  raise (SystemExit 1).

(** [except Exception as err:] *)
Definition on_exception (has_pool : bool) : M () :=
  event_set;;
  (if has_pool then emit EvPoolTerminate else mret ());;
  raise (SystemExit 1).

(** The [if os.path.exists(dest):] block. *)
Definition check_destination (o : options) (dest : string) : M () :=
  w ← get_world;
  if path_exists w dest then
    if force o then os_remove dest
    else raise (ValueError (dest_exists_msg dest))
  else mret ().

(** [main] from "Create empty file" to its end: the multi-part download. *)
Definition download_parallel (o : options) (bucket_name key_name dest : string)
    (size : Z) : M () :=
  os_create E dest;;
  let split := effective_split (split o) in
  num_parts ← lift (compute_num_parts size (Coordinator.split o));
  emit EvManager;;
  (if show_progress o then queue_new else mret ());;
  event_new;;
  (if show_progress o then emit EvMonitorStart else mret ());;
  let has_pool := bool_decide (1 ≤ num_processes o) in
  outcome ← attempt (parallel_body o bucket_name key_name dest size split num_parts);
  match outcome with
  | Ok _ => mret ()
  | Raise (KeyboardInterrupt _) => on_keyboard_interrupt o dest has_pool
  | Raise err => if is_Exception err then on_exception has_pool else raise err
  end.

Definition main (o : options) : M () :=
  let split_rs := urlsplit (src o) in
  if decide (scheme split_rs ≠ "s3") then raise (ValueError (not_s3_msg (src o)))
  else
    w ← get_world;
    let dest := resolve_dest w split_rs (dest o) in
    check_destination o dest;;
    Worker.new_client (public o) (region o) (secure o);;
    let bucket_name := netloc split_rs in
    let key_name := lstrip_slash (path split_rs) in
    size ← query_size E (src o) bucket_name key_name;
    if decide (size < 1024 * 1024) then download_file E bucket_name key_name dest
    else download_parallel o bucket_name key_name dest size.

End Main.

End Coordinator.

(** * What the properties speak about *)

(** The calls a computation adds to the trace of the world it starts from. *)
Definition new_events {A} (w : world) (out : result A * world) : list event :=
  drop (length (trace w)) (trace out.2).

(** The world with more calls logged. *)
Definition logged (w : world) (evs : list event) : world :=
  World (files w) (dirs w) (queue w) (stop w) (seen w) (trace w ++ evs).

(** ** Replies of the remote store to one worker *)

Module WorkerSpec.
Import Worker.

Definition lengths (chunks : list (list byte)) : list Z :=
  (λ c, Z.of_nat (length c)) <$> chunks.

Definition total (l : list Z) : Z := foldr Z.add 0 l.

(** How the second [try] block ends on a reply. *)
Definition fetched_outcome (r : get_result) : result () :=
  match r with
  | GetRaises e => Raise e
  | GetBody _ (Some e) => Raise e
  | GetBody _ None => Ok ()
  end.

(** The chunks a reply hands over before it ends. *)
Definition delivered (r : get_result) : list (list byte) :=
  match r with
  | GetRaises _ => []
  | GetBody chunks _ => chunks
  end.

(** The fetch fails: the request or the stream raises an [Exception]. *)
Definition fails (r : get_result) : Prop :=
  match r with
  | GetRaises e => is_Exception e = true
  | GetBody chunks (Some e) => is_Exception e = true ∧ Forall (λ c, c ≠ []) chunks
  | GetBody _ None => False
  end.

(** The fetch succeeds: the stream hands over [content] and ends. *)
Definition delivers (content : list byte) (r : get_result) : Prop :=
  ∃ chunks, r = GetBody chunks None ∧ Forall (λ c, c ≠ []) chunks ∧ concat chunks = content.

(** The reply to the [j]-th attempt of a task, counted from the current one. *)
Definition reply_at (E : env) (t : task) (j : nat) : get_result :=
  get_reply E (min_byte t) (max_byte t) (current_tries t + Z.of_nat j).

(** Bytes the first [k] attempts of a task hand over. *)
Fixpoint retried_bytes (E : env) (t : task) (k : nat) : Z :=
  match k with
  | O => 0
  | S k' => total (lengths (delivered (reply_at E t 0))) + retried_bytes E (retry t) k'
  end.

(** The outcomes of a worker that the specification names. *)
Inductive WorkerOutcome : Type :=
| Completed
| Cancelled
| Failed (error : exn).

End WorkerSpec.

(** ** Inputs and errors of the coordinator *)

Module CoordinatorSpec.
Import Coordinator.

Section Inputs.
Context (urlsplit : string → split_result).

Definition destination (o : options) (w : world) : string :=
  resolve_dest w (urlsplit (src o)) (dest o).

Definition bucket_of (o : options) : string := netloc (urlsplit (src o)).
Definition key_of (o : options) : string := lstrip_slash (path (urlsplit (src o))).

(** The source is an S3 url and the destination is free, or is a file that
    [force] lets [main] remove. *)
Definition passes_validation (o : options) (w : world) : Prop :=
  scheme (urlsplit (src o)) = "s3" ∧
  (path_exists w (destination o w) = false ∨
   (force o = true ∧ is_Some (files w !! destination o w))).

(** The world after the destination check: an existing file is removed. *)
Definition cleared (o : options) (w : world) : world :=
  if path_exists w (destination o w)
  then World (delete (destination o w) (files w)) (dirs w) (queue w) (stop w) (seen w)
             (trace w)
  else w.

End Inputs.

Definition client_event (o : options) : event :=
  EvClient (public o) (if decide (region o = "") then None else Some (region o)) (secure o).

Definition with_split (o : options) (s : Z) : options :=
  Options (src o) (dest o) (num_processes o) s (force o) (verbose o) (quiet o)
          (secure o) (max_tries o) (public o) (region o) (show_progress o) (clean o).

(** The Python class of an exception. *)
Inductive exn_class : Type :=
| ValueError_class
| ClientError_class
| OSError_class
| ZeroDivisionError_class
| OverflowError_class
| IndexError_class
| TransportError_class
| KeyboardInterrupt_class
| SystemExit_class.

Definition class_of (e : exn) : exn_class :=
  match e with
  | ValueError _ => ValueError_class
  | ClientError _ => ClientError_class
  | OSError _ => OSError_class
  | ZeroDivisionError => ZeroDivisionError_class
  | OverflowError => OverflowError_class
  | IndexError => IndexError_class
  | TransportError _ => TransportError_class
  | KeyboardInterrupt _ => KeyboardInterrupt_class
  | SystemExit _ => SystemExit_class
  end.

Definition raised_class {A} (r : result A) : option exn_class :=
  match r with
  | Raise e => Some (class_of e)
  | Ok _ => None
  end.

(** The error kinds that the specification names. *)
Inductive ErrorKind : Type :=
| InvalidSource
| DestinationExists
| ObjectNotFound
| AccessDenied
| TransientTransport
| RetriesExhausted
| UserAborted.

Fixpoint last_char (s : string) : option ascii :=
  match s with
  | EmptyString => None
  | String c EmptyString => Some c
  | String _ rest => last_char rest
  end.

End CoordinatorSpec.

(** ** Histories of the stop event *)

Module StopEvent.

Definition no_clear (ev : event) : Prop := ev ≠ EvStop OpClear.

(** The method calls on the stop event, in the order of the trace. *)
Definition stop_ops (tr : list event) : list event_op :=
  omap (λ ev, match ev with EvStop op => Some op | _ => None end) tr.

(** What a method call does to the flag of an event object. *)
Definition flag_after (b : bool) (op : event_op) : bool :=
  match op with
  | OpSet => true
  | OpClear => false
  | OpIsSet | OpWait => b
  end.

(** The values of the flag from [b] on, one per call and the initial one. *)
Fixpoint flag_history (b : bool) (ops : list event_op) : list bool :=
  match ops with
  | [] => [b]
  | op :: rest => b :: flag_history (flag_after b op) rest
  end.

(** Transitions from false to true, and from true to false. *)
Fixpoint rises (h : list bool) : nat :=
  match h with
  | b :: (b' :: _) as rest => (if negb b && b' then 1 else 0) + rises rest
  | _ => 0
  end%nat.

Fixpoint falls (h : list bool) : nat :=
  match h with
  | b :: (b' :: _) as rest => (if b && negb b' then 1 else 0) + falls rest
  | _ => 0
  end%nat.

(** What one actor of a download does, from any world and in any environment. *)
Inductive actor_run : list event → Prop :=
| worker_run E t w : actor_run (new_events w (Worker.do_part_download E t w))
| monitor_run E total_size rounds w :
    actor_run (new_events w (Monitor.progress_monitor E total_size rounds w))
| coordinator_run urlsplit E o w :
    actor_run (new_events w (Coordinator.main urlsplit E o w)).

(** [tr] takes the calls of the runs, each run in its own order. *)
Inductive interleaves {A} : list (list A) → list A → Prop :=
| interleaves_done runs : Forall (λ r, r = []) runs → interleaves runs []
| interleaves_step runs (i : nat) x r tr :
    runs !! i = Some (x :: r) →
    interleaves (<[i := r]> runs) tr →
    interleaves runs (x :: tr).

(** Every run of [m] relates the world it starts from to the one it leaves. *)
Definition preserved (R : relation world) {A} (m : M A) : Prop :=
  ∀ w, R w (m w).2.

(** The trace only grows, and never by a [clear()] of the stop event. *)
Definition extends_quietly (w w' : world) : Prop :=
  ∃ evs, trace w' = trace w ++ evs ∧ Forall no_clear evs.

(** A set flag is still set. *)
Definition flag_kept (w w' : world) : Prop := stop w = true → stop w' = true.

End StopEvent.

(** ** Counting the calls of a trace *)

Module Calls.

(** How many calls of a trace satisfy [p]. *)
Fixpoint count (p : event → bool) (tr : list event) : nat :=
  match tr with
  | [] => 0
  | ev :: rest => (if p ev then 1 else 0) + count p rest
  end%nat.

Definition is_request (ev : event) : bool :=
  match ev with EvGetObject _ _ _ _ => true | _ => false end.

Definition is_sleep (ev : event) : bool :=
  match ev with EvSleep _ => true | _ => false end.

(** [time.sleep(3)], the pause of a worker before it tries again. *)
Definition is_retry_sleep (ev : event) : bool :=
  match ev with EvSleep milliseconds => milliseconds =? 3000 | _ => false end.

Definition is_status (ev : event) : bool :=
  match ev with EvStatus _ _ _ _ _ => true | _ => false end.

(** A call of [set()] on the stop event. *)
Definition is_set_call (ev : event) : bool :=
  match ev with EvStop OpSet => true | _ => false end.

End Calls.

(** ** Runs of a worker, call by call *)

Module WorkerRun.
Import Worker WorkerSpec Calls.

(** What a worker puts on the queue for the chunks it writes. *)
Definition credit (t : task) (chunks : list (list byte)) : list Z :=
  if queue_on t then lengths chunks else [].

(** [n] observations of the stop event. *)
Definition is_sets (n : nat) : list event := replicate n (EvStop OpIsSet).

(** The world after the chunks of a reply are written at [pos] into the file
    [path], whose content was [f]: one observation of the event per chunk. *)
Definition written (t : task) (path : string) (pos : Z) (f : list byte)
    (chunks : list (list byte)) (w : world) : world :=
  World (<[path := write_at f pos (concat chunks)]> (files w)) (dirs w)
        (queue w ++ credit t chunks) false (seen w + length chunks)
        (trace w ++ is_sets (length chunks)).

(** The world after one more observation of the stop event that finds it as
    [b], and with more calls logged. *)
Definition observed (b : bool) (evs : list event) (w : world) : world :=
  World (files w) (dirs w) (queue w) b (S (seen w)) (trace w ++ EvStop OpIsSet :: evs).

Definition client_of (t : task) : event :=
  EvClient (is_public t) (if decide (region t = "") then None else Some (region t))
           (secure t).

Definition request_of (t : task) : event :=
  EvGetObject (bucket_name t) (key_name t) (min_byte t) (max_byte t).

(** The world after the first observation, the client, the request and the
    chunks of the reply to the current attempt. *)
Definition fetched (E : env) (t : task) (f : list byte) (w : world) : world :=
  written t (fname t) (min_byte t) f
    (delivered (get_reply E (min_byte t) (max_byte t) (current_tries t)))
    (observed false [client_of t; request_of t] w).

(** The byte at an offset of a file; past the end it reads as zero, as a hole
    does. *)
Definition byte_at (f : list byte) (i : nat) : byte := default Byte.x00 (f !! i).

(** The offsets from [lo] up to [hi], [hi] excluded. *)
Definition between (lo hi : Z) : Z → Prop := λ i, lo ≤ i < hi.

Definition anywhere : Z → Prop := λ _, True.

(** [f'] has the bytes of [f] at every offset outside [region]. *)
Definition same_outside (region : Z → Prop) (f f' : list byte) : Prop :=
  ∀ i : nat, ¬ region (Z.of_nat i) → byte_at f' i = byte_at f i.

(** From [w] to [w'] nothing changed in the file system but bytes of the file
    [path] at offsets in [region]: no file or directory appeared or went
    away, and no other file changed. *)
Definition writes_within (path : string) (region : Z → Prop) (w w' : world) : Prop :=
  dirs w' = dirs w ∧
  (∀ p, p ≠ path → files w' !! p = files w !! p) ∧
  match files w !! path with
  | Some f => ∃ f', files w' !! path = Some f' ∧ same_outside region f f'
  | None => files w' !! path = None
  end.

End WorkerRun.

(** ** Rounds of the monitor *)

Module MonitorRun.
Import Monitor WorkerSpec.

(** The test of the keyboard in one round: on Windows only, and for the key
    q in either case. *)
Definition q_pressed (E : env) (round : nat) : bool :=
  if os_nt E then
    match key_hit E round with
    | Some key => is_q key
    | None => false
    end
  else false.

(** Bytes the workers put on the queue during [n] rounds from [round] on. *)
Fixpoint arrived (E : env) (round n : nat) : Z :=
  match n with
  | O => 0
  | S n' => total (arrivals E round) + arrived E (S round) n'
  end.

(** Bytes the monitor has counted when it prints the status of round [k]. *)
Definition counted (E : env) (w : world) (k : nat) : Z :=
  total (queue w) + arrived E 0 (S k).

(** The monitor changes no file and no directory. *)
Definition same_files (w w' : world) : Prop := files w' = files w ∧ dirs w' = dirs w.

(** The trace only grows, and never by a [set()] of the stop event. *)
Definition sets_nothing (w w' : world) : Prop :=
  ∃ evs, trace w' = trace w ++ evs ∧ Forall (λ ev, ev ≠ EvStop OpSet) evs.

End MonitorRun.

(** ** The remote object *)

Module Remote.
Import WorkerSpec.

(** The bytes of [content] at the offsets from [lo] to [hi]. *)
Definition slice (content : list byte) (lo hi : Z) : list byte :=
  take (Z.to_nat (hi - lo + 1)) (drop (Z.to_nat lo) content).

(** The store answers the first request for every range inside the object
    with the bytes of the range. *)
Definition serves (E : env) (content : list byte) : Prop :=
  ∀ lo hi, 0 ≤ lo ≤ hi → hi < Z.of_nat (length content) →
    delivers (slice content lo hi) (get_reply E lo hi 0).

(** The store fails every request. *)
Definition unreachable (E : env) : Prop := ∀ lo hi tries, fails (get_reply E lo hi tries).

(** A store that holds [content] and sends a range in one chunk; nobody
    stops the download. *)
Definition store (content : list byte) : env :=
  Env (HeadOk (Z.of_nat (length content))) (Ok content)
      (λ lo hi _, GetBody [slice content lo hi] None)
      (λ _, false) None false (λ _, 0%Q) (λ _, None) (λ _, []) (λ _, false).

End Remote.

(** ** The coordinator before the pool *)

Module CoordinatorRun.
Import Coordinator.

(** The world when the [try] block around the pool is entered: the empty
    destination file, the new queue if progress is shown, and the new stop
    event, not set. *)
Definition started (o : options) (dest : string) (w : world) : world :=
  World (<[dest := []]> (files w)) (dirs w)
        (if show_progress o then [] else queue w) false (seen w)
        (trace w ++ EvManager :: (if show_progress o then [EvMonitorStart] else [])).

(** The exit of [main] through one of its two handlers. *)
Definition exits_with_1 {A} (out : result A * world) : Prop :=
  out.1 = Raise (SystemExit 1) ∧ stop out.2 = true.

End CoordinatorRun.

(** ** Inputs of the examples *)

Module Examples.
Import Coordinator.

(** Stands for [urlsplit] on the one source of the examples. *)
Definition usplit (s : string) : split_result :=
  if decide (s = "s3://bucket/dir/key") then SplitResult "s3" "bucket" "/dir/key"
  else SplitResult "" "" s.

Definition opts : options :=
  Options "s3://bucket/dir/key" "out.bin" 2 32 false false false true 5 false
          "us-west-2" true false.

Definition remote (h : head_result) (g : Z → get_result) : env :=
  Env h (Ok [Byte.x2a]) (λ _ _ tries, g tries) (λ _, false) None false
      (λ _, 0%Q) (λ _, None) (λ _, []) (λ _, false).

Definition empty_world : world := World ∅ ∅ [] false 0 [].

(** The destination is there already. *)
Definition taken_world : world := World {["out.bin" := [Byte.x07]]} ∅ [] false 0 [].

(** The destination as the coordinator creates it, before the workers run. *)
Definition ready_world : world := World {["out.bin" := []]} ∅ [] false 0 [].

Definition stopped_world : world := World {["out.bin" := []]} ∅ [] true 0 [].

(** The task of a part of two bytes. *)
Definition part : Worker.task :=
  Worker.Task "bucket" "dir/key" "out.bin" 0 1 32 true 5 0 false "us-west-2" true.

(** The stream breaks after one byte at the first attempt. *)
Definition flaky (tries : Z) : get_result :=
  if decide (tries = 0)
  then GetBody [[Byte.x01]] (Some (TransportError "connection reset"))
  else GetBody [[Byte.x01; Byte.x02]] None.

Definition steady (tries : Z) : get_result := GetBody [[Byte.x01; Byte.x02]] None.

(** On Windows; one byte arrives before the first round of the monitor, and
    the user presses q before the second. *)
Definition keyboard : env :=
  Env (HeadOk 2) (Ok [Byte.x2a]) (λ _ _ tries, steady tries) (λ _, false) None true
      (λ round, inject_Z (Z.of_nat round))
      (λ round, if decide (round = 1%nat) then Some "q" else None)
      (λ round, if decide (round = 0%nat) then [1] else []) (λ _, false).

End Examples.

(** ** More inputs *)

Module Scenarios.
Import Coordinator.

(** Every request breaks after one byte. *)
Definition broken (tries : Z) : get_result :=
  GetBody [[Byte.x01]] (Some (TransportError "connection reset")).

(** Another process sets the stop event between the second and the third
    observation of the worker. *)
Definition racing : env :=
  Env (HeadOk 2) (Ok []) (λ _ _ tries, broken tries) (λ n, bool_decide (2 ≤ n)%nat)
      None false (λ _, 0%Q) (λ _, None) (λ _, []) (λ _, false).

(** A stream of two chunks; another process sets the stop event between the
    second and the third observation of the worker. *)
Definition halted : env :=
  Env (HeadOk 2) (Ok []) (λ _ _ _, GetBody [[Byte.x01]; [Byte.x02]] None)
      (λ n, bool_decide (2 ≤ n)%nat) None false (λ _, 0%Q) (λ _, None) (λ _, []) (λ _, false).

(** The stop event is set from the start. *)
Definition stopped_early : env :=
  Env (HeadOk 1048576) (Ok []) (λ _ _ tries, Examples.steady tries) (λ _, true)
      None false (λ _, 0%Q) (λ _, None) (λ _, []) (λ _, false).

(** Off Windows; one byte arrives on the queue in every round of the monitor. *)
Definition trickle : env :=
  Env (HeadOk 2) (Ok []) (λ _ _ tries, Examples.steady tries) (λ _, false) None false
      (λ round, inject_Z (Z.of_nat round)) (λ _, None) (λ _, [1]) (λ _, false).

(** An object of 1 MiB. *)
Definition megabyte : list byte := replicate (Z.to_nat 1048576) Byte.x2a.

(** CTRL+C before the first chunk of tasks is done. *)
Definition interrupted : env :=
  Env (HeadOk 1048576) (Ok []) (λ _ _ tries, Examples.steady tries) (λ _, false)
      (Some 0%nat) false (λ _, 0%Q) (λ _, None) (λ _, []) (λ _, false).

(** The options of the examples with a destination in a directory that is
    not there. *)
Definition missing_dir_opts : options :=
  Options "s3://bucket/dir/key" "missing/out.bin" 2 32 false false false true 5 false
          "us-west-2" true false.

(** The options of the examples with the clean option. *)
Definition clean_opts : options :=
  Options "s3://bucket/dir/key" "out.bin" 2 32 false false false true 5 false
          "us-west-2" true true.

(** With the clean option and no process. *)
Definition no_pool_opts : options :=
  Options "s3://bucket/dir/key" "out.bin" 0 32 false false false true 5 false
          "us-west-2" true true.

(** With the force option. *)
Definition force_opts : options :=
  Options "s3://bucket/dir/key" "out.bin" 2 32 true false false true 5 false
          "us-west-2" true false.

End Scenarios.

(** * Properties *)

(** ** Binary64 numbers *)

Module FloatFacts.
Import Float.

Lemma pow2_pos e : (0 < pow2 e)%Q.
Proof. apply Qpower_0_lt. reflexivity. Qed.

Lemma pow2_add a b : (pow2 (a + b) == pow2 a * pow2 b)%Q.
Proof. apply Qpower_plus. discriminate. Qed.

Lemma pow2_le a b : a ≤ b → (pow2 a <= pow2 b)%Q.
Proof. intros H. apply Qpower_le_compat_l; [done | discriminate]. Qed.

Lemma pow2_lt a b : a < b → (pow2 a < pow2 b)%Q.
Proof. intros H. apply Qpower_lt_compat_l; [done | reflexivity]. Qed.

Lemma pow2_lt_inv a b : (pow2 a < pow2 b)%Q → a < b.
Proof. intros H. eapply Qpower_lt_compat_l_inv; [exact H | reflexivity]. Qed.

Lemma pow2_inject k : 0 ≤ k → (pow2 k == inject_Z (2 ^ k))%Q.
Proof. intros H. unfold pow2. by rewrite Zpower_Qpower. Qed.

Lemma pow2_opp k : (pow2 (- k) == / pow2 k)%Q.
Proof. apply Qpower_opp. Qed.

Lemma pow2_sub a b : (pow2 (a - b) == pow2 a / pow2 b)%Q.
Proof. unfold Z.sub. rewrite pow2_add, pow2_opp. reflexivity. Qed.

Lemma pow2_S a : (pow2 (a + 1) == 2 * pow2 a)%Q.
Proof. rewrite pow2_add. change (pow2 1) with 2%Q. ring. Qed.


(** *** Rounding to an integer *)

Lemma round_half_even_cases (y : Q) :
  let n := Qfloor y in
  (inject_Z n <= y)%Q ∧ (y < inject_Z n + 1)%Q ∧
  (((y - inject_Z n < 1 # 2)%Q ∧ round_half_even y = n) ∨
   ((1 # 2 < y - inject_Z n)%Q ∧ round_half_even y = n + 1) ∨
   ((y - inject_Z n == 1 # 2)%Q ∧
    round_half_even y = if Z.even n then n else n + 1)).
Proof.
  intros n. pose proof (Qfloor_le y) as Hlo. pose proof (Qlt_floor y) as Hhi.
  fold n in Hlo, Hhi. rewrite inject_Z_plus in Hhi. change (inject_Z 1) with 1%Q in Hhi.
  split; [done|]. split; [done|]. unfold round_half_even. fold n.
  destruct (y - inject_Z n ?= 1 # 2)%Q eqn:Hc.
  - right. right. by apply Qeq_alt in Hc.
  - left. by apply Qlt_alt in Hc.
  - right. left. by apply Qgt_alt in Hc.
Qed.

Lemma round_half_even_near (y : Q) :
  (y - (1 # 2) <= inject_Z (round_half_even y) <= y + (1 # 2))%Q.
Proof.
  destruct (round_half_even_cases y) as (Hlo & Hhi & [[Hc ->] | [[Hc ->] | [Hc ->]]]).
  - lra.
  - rewrite inject_Z_plus. change (inject_Z 1) with 1%Q. lra.
  - destruct (Z.even (Qfloor y)); [lra|].
    rewrite inject_Z_plus. change (inject_Z 1) with 1%Q. lra.
Qed.

Lemma round_half_even_int (k : Z) : round_half_even (inject_Z k) = k.
Proof.
  destruct (round_half_even_cases (inject_Z k)) as (Hlo & Hhi & Hcases).
  rewrite Qfloor_Z in *.
  destruct Hcases as [[Hc ->] | [[Hc ->] | [Hc ->]]]; [done | lra | lra].
Qed.

Lemma round_half_even_mono (x y : Q) :
  (x <= y)%Q → round_half_even x ≤ round_half_even y.
Proof.
  intros Hle. pose proof (Qfloor_resp_le _ _ Hle) as Hfloor.
  destruct (round_half_even_cases x) as (Hxlo & Hxhi & Hx).
  destruct (round_half_even_cases y) as (Hylo & Hyhi & Hy).
  destruct (decide (Qfloor x = Qfloor y)) as [Heq | Hne].
  - rewrite Heq in *.
    destruct Hx as [[Hcx ->] | [[Hcx ->] | [Hcx ->]]];
      destruct Hy as [[Hcy ->] | [[Hcy ->] | [Hcy ->]]];
      try destruct (Z.even (Qfloor y)); try lia; lra.
  - assert (round_half_even x ≤ Qfloor x + 1) as Hx'
      by (destruct Hx as [[_ ->] | [[_ ->] | [_ ->]]];
          try destruct (Z.even (Qfloor x)); lia).
    assert (Qfloor y ≤ round_half_even y) as Hy'
      by (destruct Hy as [[_ ->] | [[_ ->] | [_ ->]]];
          try destruct (Z.even (Qfloor y)); lia).
    lia.
Qed.

Global Instance round_half_even_comp : Proper (Qeq ==> eq) round_half_even.
Proof.
  intros x y Hxy. apply Z.le_antisymm; apply round_half_even_mono; rewrite Hxy; apply Qle_refl.
Qed.


(** *** The binade of a number *)

Lemma binade_spec (x : Q) :
  (0 < x)%Q → (pow2 (binade x) <= x)%Q ∧ (x < pow2 (binade x + 1))%Q.
Proof.
  intros Hpos. unfold binade. destruct (Qle_bool 1 x) eqn:Hone.
  - apply Qle_bool_iff in Hone.
    pose proof (Qfloor_le x) as Hlo. pose proof (Qlt_floor x) as Hhi.
    assert (1 ≤ Qfloor x) as Hn
      by (change 1 with (Qfloor 1); by apply Qfloor_resp_le).
    set (n := Qfloor x) in *.
    destruct (Z.log2_spec n ltac:(lia)) as [Hb1 Hb2].
    pose proof (Z.log2_nonneg n) as Hb0. set (b := Z.log2 n) in *.
    rewrite !pow2_inject by lia. split.
    + eapply Qle_trans; [|exact Hlo]. by rewrite <-Zle_Qle.
    + eapply Qlt_le_trans; [exact Hhi|]. rewrite <-Zle_Qle.
      replace (b + 1) with (Z.succ b) by lia. lia.
  - assert (x < 1)%Q as Hlt.
    { destruct (Qlt_le_dec x 1) as [|Hge]; [done|].
      apply Qle_bool_iff in Hge. congruence. }
    set (y := (/ x)%Q).
    assert (x * y == 1)%Q as Hxy
      by (apply Qmult_inv_r; intros H0; rewrite H0 in Hpos; by apply Qlt_irrefl in Hpos).
    assert (1 < y)%Q as Hy by nra.
    pose proof (Qle_ceiling y) as Hc1. pose proof (Qceiling_lt y) as Hc2.
    set (c := Qceiling y) in *.
    assert (1 < c) as Hc.
    { rewrite Zlt_Qlt. eapply Qlt_le_trans; [exact Hy | exact Hc1]. }
    destruct (Z.log2_up_spec c Hc) as [Hk1 Hk2].
    pose proof (Z.log2_up_pos c Hc) as Hk0. set (k := Z.log2_up c) in *.
    split.
    + rewrite pow2_opp, pow2_inject by lia.
      assert (0 < 2 ^ k) as Hp by (apply Z.pow_pos_nonneg; lia).
      assert (inject_Z c <= inject_Z (2 ^ k))%Q as Hck by (by rewrite <-Zle_Qle).
      assert (0 < inject_Z (2 ^ k))%Q as HP
        by (change 0%Q with (inject_Z 0); by rewrite <-Zlt_Qlt).
      set (P := inject_Z (2 ^ k)) in *.
      assert (/ P == 1 / P)%Q as -> by (field; lra).
      apply Qle_shift_div_r; [done|]. nra.
    + replace (- k + 1) with (- (k - 1)) by lia.
      rewrite pow2_opp, pow2_inject by lia.
      assert (0 < 2 ^ (k - 1)) as Hp by (apply Z.pow_pos_nonneg; lia).
      assert (inject_Z (2 ^ (k - 1)) <= inject_Z (c - 1))%Q as Hck
        by (rewrite <-Zle_Qle; replace (k - 1) with (Z.pred k) by lia; lia).
      assert (0 < inject_Z (2 ^ (k - 1)))%Q as HP
        by (change 0%Q with (inject_Z 0); by rewrite <-Zlt_Qlt).
      set (P := inject_Z (2 ^ (k - 1))) in *.
      assert (/ P == 1 / P)%Q as -> by (field; lra).
      apply Qlt_shift_div_l; [done|]. nra.
Qed.

Lemma binade_unique (x : Q) (b : Z) :
  (pow2 b <= x)%Q → (x < pow2 (b + 1))%Q → binade x = b.
Proof.
  intros Hlo Hhi. pose proof (pow2_pos b) as Hb.
  destruct (binade_spec x ltac:(lra)) as [Hlo' Hhi'].
  assert (binade x < b + 1) by (apply pow2_lt_inv; lra).
  assert (b < binade x + 1) by (apply pow2_lt_inv; lra).
  lia.
Qed.

Global Instance binade_comp : Proper (Qeq ==> eq) binade.
Proof.
  intros x y Hxy. unfold binade. rewrite Hxy.
  destruct (Qle_bool 1 y); by rewrite Hxy.
Qed.

Lemma binade_mono (x y : Q) : (0 < x)%Q → (x <= y)%Q → binade x ≤ binade y.
Proof.
  intros Hpos Hle.
  destruct (binade_spec x Hpos) as [Hlo _].
  destruct (binade_spec y ltac:(lra)) as [_ Hhi].
  assert (binade x < binade y + 1) by (apply pow2_lt_inv; lra). lia.
Qed.


(** *** Rounding to a multiple of a power of 2 *)

Global Instance round_at_comp e : Proper (Qeq ==> Qeq) (round_at e).
Proof. intros x y Hxy. unfold round_at. by rewrite Hxy. Qed.

Lemma round_at_mono e (x y : Q) : (x <= y)%Q → (round_at e x <= round_at e y)%Q.
Proof.
  intros Hle. pose proof (pow2_pos e) as He. unfold round_at.
  apply Qmult_le_compat_r; [|lra]. rewrite <-Zle_Qle. apply round_half_even_mono.
  apply Qmult_le_compat_r; [done|]. apply Qlt_le_weak, Qinv_lt_0_compat, He.
Qed.

Lemma round_at_multiple e (k : Z) :
  (round_at e (inject_Z k * pow2 e) == inject_Z k * pow2 e)%Q.
Proof.
  pose proof (pow2_pos e) as He. unfold round_at.
  assert (inject_Z k * pow2 e / pow2 e == inject_Z k)%Q as -> by (field; lra).
  by rewrite round_half_even_int.
Qed.

Lemma round_at_near e (x : Q) :
  (x - pow2 e * (1 # 2) <= round_at e x <= x + pow2 e * (1 # 2))%Q.
Proof.
  pose proof (pow2_pos e) as He. unfold round_at.
  pose proof (round_half_even_near (x / pow2 e)) as [Hlo Hhi].
  set (m := inject_Z (round_half_even (x / pow2 e))) in *.
  assert (x == x / pow2 e * pow2 e)%Q as Hx by (field; lra).
  set (y := (x / pow2 e)%Q) in *. rewrite Hx. split; nra.
Qed.

(** A power of 2 is a multiple of every smaller one. *)
Lemma pow2_multiple (a e : Z) : e ≤ a → (pow2 a == inject_Z (2 ^ (a - e)) * pow2 e)%Q.
Proof.
  intros Hle. rewrite <-pow2_inject by lia. rewrite <-pow2_add. by replace (a - e + e) with a by lia.
Qed.

Lemma round_at_pow2 (a e : Z) : e ≤ a → (round_at e (pow2 a) == pow2 a)%Q.
Proof. intros Hle. rewrite (pow2_multiple a e Hle). apply round_at_multiple. Qed.

(** *** Rounding to binary64 *)

Lemma b64_pos (x : Q) : (0 < x)%Q → b64 x = round_at (ulp_exp x) x.
Proof.
  intros Hpos. unfold b64.
  destruct (x ?= 0)%Q eqn:Hc; [apply Qeq_alt in Hc; lra | apply Qlt_alt in Hc; lra | done].
Qed.

Lemma b64_neg (x : Q) : (x < 0)%Q → b64 x = (- round_at (ulp_exp (- x)) (- x))%Q.
Proof.
  intros Hneg. unfold b64.
  destruct (x ?= 0)%Q eqn:Hc; [apply Qeq_alt in Hc; lra | done | apply Qgt_alt in Hc; lra].
Qed.

Lemma b64_zero (x : Q) : (x == 0)%Q → b64 x = 0%Q.
Proof.
  intros Hz. unfold b64.
  destruct (x ?= 0)%Q eqn:Hc; [done | apply Qlt_alt in Hc; lra | apply Qgt_alt in Hc; lra].
Qed.

Global Instance ulp_exp_comp : Proper (Qeq ==> eq) ulp_exp.
Proof. intros x y Hxy. unfold ulp_exp. by rewrite Hxy. Qed.

Global Instance b64_comp : Proper (Qeq ==> Qeq) b64.
Proof.
  intros x y Hxy. destruct (Q_dec x 0) as [[Hneg | Hpos] | Hz].
  - rewrite (b64_neg x), (b64_neg y) by lra.
    assert (ulp_exp (- x) = ulp_exp (- y)) as -> by (apply ulp_exp_comp; by rewrite Hxy).
    apply Qopp_comp, round_at_comp. by rewrite Hxy.
  - rewrite (b64_pos x), (b64_pos y) by lra.
    assert (ulp_exp x = ulp_exp y) as -> by (by apply ulp_exp_comp).
    by apply round_at_comp.
  - rewrite (b64_zero x), (b64_zero y) by lra. reflexivity.
Qed.

Lemma b64_opp (x : Q) : (b64 (- x) == - b64 x)%Q.
Proof.
  destruct (Q_dec x 0) as [[Hneg | Hpos] | Hz].
  - rewrite (b64_neg x Hneg), b64_pos by lra. ring.
  - rewrite (b64_pos x Hpos), b64_neg by lra.
    assert (ulp_exp (- - x) = ulp_exp x) as -> by (apply ulp_exp_comp; ring).
    apply Qopp_comp, round_at_comp. ring.
  - rewrite (b64_zero x Hz), b64_zero by lra. reflexivity.
Qed.

Lemma round_at_nonneg e (x : Q) : (0 <= x)%Q → (0 <= round_at e x)%Q.
Proof.
  intros Hx. pose proof (round_at_mono e 0 x Hx) as Hle.
  pose proof (round_at_multiple e 0) as H0.
  assert (inject_Z 0 * pow2 e == 0)%Q as Hz by ring.
  rewrite Hz in H0. lra.
Qed.

Lemma b64_nonneg (x : Q) : (0 <= x)%Q → (0 <= b64 x)%Q.
Proof.
  intros Hx. destruct (Qlt_le_dec 0 x) as [Hpos | Hle].
  - rewrite b64_pos by done. by apply round_at_nonneg.
  - rewrite b64_zero by lra. lra.
Qed.

Lemma b64_mono_pos (x y : Q) : (0 < x)%Q → (x <= y)%Q → (b64 x <= b64 y)%Q.
Proof.
  intros Hpos Hle. rewrite !b64_pos by lra.
  pose proof (binade_mono x y Hpos Hle) as Hb.
  destruct (decide (ulp_exp x = ulp_exp y)) as [Heq | Hne].
  - rewrite Heq. by apply round_at_mono.
  - unfold ulp_exp in *.
    destruct (binade_spec x Hpos) as [_ Hxhi].
    destruct (binade_spec y ltac:(lra)) as [Hylo _].
    assert (binade x + 1 ≤ binade y) as Hstep by lia.
    pose proof (pow2_le _ _ Hstep) as Hmid.
    apply Qle_trans with (pow2 (binade y)).
    + rewrite <-(round_at_pow2 (binade y) (Z.max (binade x) emin - 52)) by lia.
      apply round_at_mono. lra.
    + rewrite <-(round_at_pow2 (binade y) (Z.max (binade y) emin - 52)) at 1 by lia.
      by apply round_at_mono.
Qed.

Lemma b64_mono (x y : Q) : (x <= y)%Q → (b64 x <= b64 y)%Q.
Proof.
  intros Hle. destruct (Qlt_le_dec 0 x) as [Hx | Hx].
  - by apply b64_mono_pos.
  - destruct (Qlt_le_dec y 0) as [Hy | Hy].
    + pose proof (b64_mono_pos (- y) (- x) ltac:(lra) ltac:(lra)) as Hopp.
      rewrite !b64_opp in Hopp. lra.
    + pose proof (b64_nonneg y Hy). pose proof (b64_nonneg (- x) ltac:(lra)) as Hnx.
      rewrite b64_opp in Hnx. lra.
Qed.

(** A multiple of the spacing around it is a binary64 number. *)
Lemma b64_multiple (x : Q) (m : Z) :
  (0 < x)%Q → (x == inject_Z m * pow2 (ulp_exp x))%Q → (b64 x == x)%Q.
Proof.
  intros Hpos Hx. rewrite b64_pos by done. rewrite Hx at 2 3.
  apply round_at_multiple.
Qed.


(** An integer of at most 53 bits, scaled by a power of 2 that is not below
    the smallest spacing, is a binary64 number. *)
Lemma b64_scaled (k s : Z) :
  0 < k < 2 ^ 53 → emin - 52 ≤ s →
  (b64 (inject_Z k * pow2 s) == inject_Z k * pow2 s)%Q.
Proof.
  intros Hk Hs. pose proof (pow2_pos s) as Hps.
  assert (0 < inject_Z k)%Q as Hkq
    by (change 0%Q with (inject_Z 0); rewrite <-Zlt_Qlt; lia).
  set (x := (inject_Z k * pow2 s)%Q).
  assert (0 < x)%Q as Hx by (unfold x; nra).
  destruct (Z.log2_spec k ltac:(lia)) as [Hb1 Hb2].
  pose proof (Z.log2_nonneg k) as Hb0.
  assert (Z.log2 k < 53) as Hb53 by (apply Z.log2_lt_pow2; lia).
  set (bk := Z.log2 k) in *.
  assert (binade x = bk + s) as Hbin.
  { apply binade_unique; unfold x.
    - rewrite pow2_add, (pow2_inject bk) by lia.
      apply Qmult_le_compat_r; [|lra]. by rewrite <-Zle_Qle.
    - replace (bk + s + 1) with (bk + 1 + s) by lia.
      rewrite pow2_add, (pow2_inject (bk + 1)) by lia.
      apply Qmult_lt_compat_r; [done|]. rewrite <-Zlt_Qlt.
      by replace (bk + 1) with (Z.succ bk) by lia. }
  apply (b64_multiple x (k * 2 ^ (s - ulp_exp x))); [done|].
  unfold ulp_exp. rewrite Hbin. set (u := Z.max (bk + s) emin - 52).
  assert (u ≤ s) as Hu by (unfold u; lia).
  unfold x. rewrite (pow2_multiple s u Hu), inject_Z_mult. ring.
Qed.

Lemma b64_nat (k : Z) : 0 ≤ k ≤ 2 ^ 53 → (b64 (inject_Z k) == inject_Z k)%Q.
Proof.
  intros Hk. destruct (decide (k = 0)) as [-> | Hne]; [by rewrite b64_zero|].
  destruct (decide (k = 2 ^ 53)) as [-> | Hne'].
  - pose proof (b64_scaled 1 53 ltac:(lia) ltac:(unfold emin; lia)) as H.
    rewrite pow2_inject in H by lia.
    assert (inject_Z 1 * inject_Z (2 ^ 53) == inject_Z (2 ^ 53))%Q as Heq by ring.
    by rewrite Heq in H.
  - pose proof (b64_scaled k 0 ltac:(lia) ltac:(unfold emin; lia)) as H.
    change (pow2 0) with 1%Q in H. by rewrite Qmult_1_r in H.
Qed.

(** Every integer up to [2^53], of either sign, is a binary64 number. *)
Lemma b64_int (k : Z) : - 2 ^ 53 ≤ k ≤ 2 ^ 53 → (b64 (inject_Z k) == inject_Z k)%Q.
Proof.
  intros Hk. destruct (decide (0 ≤ k)) as [Hpos | Hneg]; [apply b64_nat; lia|].
  pose proof (b64_nat (- k) ltac:(lia)) as H.
  rewrite inject_Z_opp, b64_opp in H. lra.
Qed.

(** In the normal range the rounding error is at most one part in [2^53]. *)
Lemma b64_near (x : Q) :
  (pow2 emin <= x)%Q →
  (x - x * (1 # 2 ^ 53) <= b64 x <= x + x * (1 # 2 ^ 53))%Q.
Proof.
  intros Hnormal. pose proof (pow2_pos emin) as Hemin.
  assert (0 < x)%Q as Hx by lra.
  destruct (binade_spec x Hx) as [Hlo Hhi].
  assert (emin ≤ binade x) as Hb
    by (assert (emin < binade x + 1) by (apply pow2_lt_inv; lra); lia).
  rewrite b64_pos by done. unfold ulp_exp. rewrite Z.max_l by done.
  pose proof (round_at_near (binade x - 52) x) as Hnear.
  assert (pow2 (binade x - 52) * (1 # 2) == pow2 (binade x) * (1 # 2 ^ 53))%Q as Hulp.
  { rewrite pow2_sub. unfold Qdiv. rewrite <-Qmult_assoc.
    apply Qmult_comp; [reflexivity|]. vm_compute. reflexivity. }
  rewrite Hulp in Hnear. set (r := round_at (binade x - 52) x) in *.
  set (p := pow2 (binade x)) in *.
  assert (p * (1 # 2 ^ 53) <= x * (1 # 2 ^ 53))%Q by (apply Qmult_le_compat_r; [done | discriminate]).
  lra.
Qed.


(** *** The operations *)

Lemma finite_small (x : Q) : (- inject_Z (2 ^ 53) <= x <= inject_Z (2 ^ 53))%Q → finite x = true.
Proof.
  intros [Hlo Hhi]. unfold finite. apply Qle_bool_iff.
  apply Qle_trans with (inject_Z (2 ^ 53)); [|by vm_compute].
  apply Qabs_case; intros; lra.
Qed.

(** Rounding keeps a number between two integers of at most 53 bits. *)
Lemma b64_between (x : Q) (lo hi : Z) :
  - 2 ^ 53 ≤ lo → hi ≤ 2 ^ 53 → (inject_Z lo <= x <= inject_Z hi)%Q →
  (inject_Z lo <= b64 x <= inject_Z hi)%Q.
Proof.
  intros Hlo Hhi [Hx1 Hx2].
  assert (lo ≤ hi) as Hle by (rewrite Zle_Qle; lra).
  rewrite <-(b64_int lo), <-(b64_int hi) by lia. split; by apply b64_mono.
Qed.

Lemma of_int_exact (k : Z) :
  - 2 ^ 53 ≤ k ≤ 2 ^ 53 → ∃ x, of_int k = Ok x ∧ (x == inject_Z k)%Q.
Proof.
  intros Hk. unfold of_int. pose proof (b64_int k Hk) as Hx.
  exists (b64 (inject_Z k)). split; [|done].
  rewrite finite_small; [done|]. rewrite Hx.
  rewrite <-inject_Z_opp, <-!Zle_Qle. lia.
Qed.

(** No int but 0 becomes the float 0. *)
Lemma of_int_nonzero (k : Z) (y : Q) : of_int k = Ok y → k ≠ 0 → ¬ (y == 0)%Q.
Proof.
  unfold of_int. destruct (finite (b64 (inject_Z k))); [|done].
  intros [= <-] Hk Hz.
  pose proof (b64_int 1 ltac:(lia)) as H1. pose proof (b64_int (-1) ltac:(lia)) as H1'.
  destruct (decide (0 < k)) as [Hpos | Hneg].
  - pose proof (b64_mono (inject_Z 1) (inject_Z k) ltac:(rewrite <-Zle_Qle; lia)) as Hm.
    rewrite H1, Hz in Hm. by apply Qle_not_lt in Hm.
  - pose proof (b64_mono (inject_Z k) (inject_Z (-1)) ltac:(rewrite <-Zle_Qle; lia)) as Hm.
    rewrite H1', Hz in Hm. by apply Qle_not_lt in Hm.
Qed.

Lemma div_int_run (x : Q) (k : Z) (y : Q) :
  of_int k = Ok y → k ≠ 0 → div_int x k = Ok (b64 (x / y)).
Proof.
  intros Hy Hk. unfold div_int. rewrite Hy. simpl.
  destruct (Qeq_bool y 0) eqn:Hz; [|done].
  apply Qeq_bool_eq in Hz. by apply (of_int_nonzero k y Hy Hk) in Hz.
Qed.

(** A division by an int other than 0 is no division by zero. *)
Lemma div_int_divides (x : Q) (k : Z) : k ≠ 0 → div_int x k ≠ Raise ZeroDivisionError.
Proof.
  intros Hk. destruct (of_int k) as [y | e] eqn:Hy.
  - by rewrite (div_int_run x k y Hy Hk).
  - unfold div_int. rewrite Hy. simpl. unfold of_int in Hy.
    destruct (finite (b64 (inject_Z k))); [done|]. by injection Hy as <-.
Qed.

Lemma ceil_run (x : Q) : finite x = true → ceil x = Ok (Qceiling x).
Proof. intros Hx. unfold ceil. by rewrite Hx. Qed.

End FloatFacts.


(** ** RangePlanner *)

Module PlannerFacts.
Import Float FloatFacts Planner.

Lemma ceil_div_bounds (a b : Z) :
  0 < b → b * (ceil_div a b - 1) < a ≤ b * ceil_div a b.
Proof.
  intros Hb. unfold ceil_div.
  pose proof (Z.mul_div_le (- a) b Hb).
  pose proof (Z.mul_succ_div_gt (- a) b Hb).
  lia.
Qed.

Lemma ceil_div_pos (a b : Z) : 0 < a → 0 < b → 0 < ceil_div a b.
Proof. intros Ha Hb. pose proof (ceil_div_bounds a b Hb). nia. Qed.

(** *** The quotient as the program computes it, in binary64 *)

Section Binary64.

(** Rounding to the nearest binary64 number, as far as the program needs it:
    it keeps the order, it keeps the integers up to 2^53, and in the normal
    range, from [tiny] on, it is off by at most one part in 2^53. *)
Context (rnd : Q → Q) (tiny : Q).
Hypothesis rnd_le : ∀ x y, (x <= y)%Q → (rnd x <= rnd y)%Q.
Hypothesis rnd_int : ∀ k : Z, 0 ≤ k ≤ 2 ^ 53 → (rnd (inject_Z k) == inject_Z k)%Q.
Hypothesis rnd_near :
  ∀ x, (tiny <= x)%Q → (x <= inject_Z (2 ^ 53))%Q →
       (x * ((2 ^ 53 - 1) # (2 ^ 53)) <= rnd x)%Q.

(** The ceiling of the rounded quotient of two integers is the ceiling of
    their quotient, for a numerator below 2^53. *)
Lemma ceil_of_rounded_quotient (a : Z) (b : positive) :
  0 < a < 2 ^ 53 →
  (tiny <= a # b)%Q →
  Qceiling (rnd (a # b)) = ceil_div a (Z.pos b).
Proof.
  intros Ha Htiny.
  pose proof (ceil_div_bounds a (Z.pos b) ltac:(lia)) as [Hlo Hhi].
  set (k := ceil_div a (Z.pos b)) in *.
  assert (1 ≤ k ≤ a) as Hk by nia.
  assert (Qceiling (rnd (a # b)) ≤ k) as Hupper.
  { rewrite <-(Qceiling_Z k). apply Qceiling_resp_le.
    rewrite <-(rnd_int k) by lia. apply rnd_le.
    unfold Qle. simpl. lia. }
  assert (k - 1 < Qceiling (rnd (a # b))) as Hlower.
  { rewrite Zlt_Qlt. eapply Qlt_le_trans; [|apply Qle_ceiling].
    eapply Qlt_le_trans; [|apply rnd_near].
    - unfold Qlt. simpl.
      change (Z.pow_pos 2 53) with (2 ^ 53) in *.
      set (P := 2 ^ 53) in *.
      assert (0 < P) by (unfold P; lia).
      rewrite Pos2Z.inj_mul.
      assert ((k - 1) * (Z.pos b * P) ≤ (a - 1) * P) by nia.
      nia.
    - done.
    - unfold Qle. simpl. nia. }
  lia.
Qed.

End Binary64.

(** *** Contiguous runs of ranges *)

Lemma contiguous_end_ge lo plan : contiguous_from lo plan → lo ≤ plan_end lo plan.
Proof.
  revert lo. induction plan as [|r rest IH]; intros lo; simpl; [lia|].
  intros (-> & Hle & Hrest). specialize (IH _ Hrest). lia.
Qed.

Lemma contiguous_elem lo plan r :
  contiguous_from lo plan → r ∈ plan → lo ≤ r.1 ∧ r.1 ≤ r.2 ∧ r.2 < plan_end lo plan.
Proof.
  revert lo. induction plan as [|r0 rest IH]; intros lo Hc Hin.
  - by apply elem_of_nil in Hin.
  - simpl in Hc. destruct Hc as (Hlo & Hle & Hrest). simpl.
    pose proof (contiguous_end_ge _ _ Hrest).
    apply elem_of_cons in Hin as [-> | Hin]; [lia|].
    specialize (IH _ Hrest Hin). lia.
Qed.

Lemma contiguous_total lo plan :
  contiguous_from lo plan → total_len plan = plan_end lo plan - lo.
Proof.
  unfold total_len. revert lo.
  induction plan as [|[s e] rest IH]; intros lo; simpl; [lia|].
  intros (-> & Hle & Hrest). rewrite (IH _ Hrest).
  unfold range_len. simpl. lia.
Qed.

Lemma contiguous_covers lo plan b :
  contiguous_from lo plan →
  (∃ r, r ∈ plan ∧ r.1 ≤ b ≤ r.2) ↔ lo ≤ b < plan_end lo plan.
Proof.
  revert lo. induction plan as [|r rest IH]; intros lo Hc; simpl.
  - split; [intros (r & Hin & _); by apply elem_of_nil in Hin | lia].
  - simpl in Hc. destruct Hc as (Hlo & Hle & Hrest).
    pose proof (contiguous_end_ge _ _ Hrest) as Hge.
    specialize (IH _ Hrest). split.
    + intros (r' & Hin & Hb). apply elem_of_cons in Hin as [-> | Hin]; [lia|].
      assert (r.2 + 1 ≤ b < plan_end (r.2 + 1) rest) by (apply IH; eauto). lia.
    + intros Hb. destruct (decide (b ≤ r.2)) as [Hbr | Hbr].
      * exists r. split; [apply list_elem_of_here | lia].
      * destruct IH as [_ IH]. destruct IH as (r' & Hin & Hb'); [lia|].
        exists r'. split; [by apply list_elem_of_further | done].
Qed.

Lemma contiguous_ordered lo plan : contiguous_from lo plan → ordered plan.
Proof.
  revert lo. induction plan as [|r rest IH]; intros lo Hc i j ri rj Hi Hj Hlt.
  - by rewrite lookup_nil in Hi.
  - simpl in Hc. destruct Hc as (Hlo & Hle & Hrest).
    destruct j as [|j]; [lia|]. rewrite lookup_cons in Hj. simpl in Hj.
    destruct i as [|i].
    + rewrite lookup_cons in Hi. simpl in Hi. injection Hi as <-.
      assert (rj ∈ rest) as Hin by (apply list_elem_of_lookup; eauto).
      pose proof (contiguous_elem _ _ _ Hrest Hin). lia.
    + rewrite lookup_cons in Hi. simpl in Hi.
      apply (IH _ Hrest i j); [done | done | lia].
Qed.

Lemma ordered_non_overlapping plan : ordered plan → non_overlapping plan.
Proof.
  intros Hord i j ri rj Hi Hj Hne b [Hbi Hbj].
  destruct (decide (i < j)%nat) as [Hlt | Hge].
  - pose proof (Hord i j ri rj Hi Hj Hlt). lia.
  - assert (j < i)%nat as Hlt by lia.
    pose proof (Hord j i rj ri Hj Hi Hlt). lia.
Qed.

(** A contiguous run from [0] that ends at [size] is a valid plan. *)
Lemma contiguous_valid size plan :
  contiguous_from 0 plan → plan_end 0 plan = size → valid_plan size plan.
Proof.
  intros Hc Hend. split.
  - done.
  - by eapply contiguous_ordered.
  - eapply ordered_non_overlapping, contiguous_ordered, Hc.
  - intros b. rewrite (contiguous_covers 0 plan b Hc), Hend. lia.
  - rewrite (contiguous_total 0 plan Hc). lia.
Qed.

(** *** The loop of [gen_byte_ranges] *)

Lemma gen_loop_length size part_size i todo :
  length (gen_loop size part_size i todo) = todo.
Proof. revert i. induction todo as [|todo IH]; intros i; simpl; [done | by rewrite IH]. Qed.

Lemma gen_loop_lookup size part_size i todo (k : nat) r :
  gen_loop size part_size i todo !! k = Some r →
  (k < todo)%nat ∧
  r = (part_size * (i + Z.of_nat k),
       Z.min (part_size * (i + Z.of_nat k + 1) - 1) (size - 1)).
Proof.
  revert i k. induction todo as [|todo IH]; intros i k; simpl.
  - by rewrite lookup_nil.
  - destruct k as [|k]; rewrite lookup_cons; simpl.
    + intros [= <-]. split; [lia|]. by rewrite Z.add_0_r.
    + intros Hk. apply IH in Hk as [Hlt ->]. split; [lia|].
      by replace (i + 1 + Z.of_nat k) with (i + Z.of_nat (S k)) by lia.
Qed.

Lemma gen_loop_contiguous size part_size i todo :
  0 < part_size →
  part_size * (i + Z.of_nat todo - 1) < size →
  contiguous_from (part_size * i) (gen_loop size part_size i todo).
Proof.
  intros Hps. revert i. induction todo as [|todo IH]; intros i Hlast; simpl; [done|].
  split; [done|]. split; [apply Z.min_glb; nia|].
  destruct todo as [|todo]; [done|].
  assert (part_size * (i + 1) ≤ size - 1) as Hin by nia.
  rewrite Z.min_l by lia.
  replace (part_size * (i + 1) - 1 + 1) with (part_size * (i + 1)) by lia.
  apply IH. replace (i + 1 + Z.of_nat (S todo) - 1) with (i + Z.of_nat (S (S todo)) - 1) by lia.
  done.
Qed.

Lemma gen_loop_end size part_size i todo :
  0 < part_size → (0 < todo)%nat →
  part_size * (i + Z.of_nat todo - 1) < size ≤ part_size * (i + Z.of_nat todo) →
  plan_end (part_size * i) (gen_loop size part_size i todo) = size.
Proof.
  intros Hps. revert i. induction todo as [|todo IH]; intros i Hpos Hlast; [lia|].
  simpl. destruct todo as [|todo].
  - simpl. rewrite Z.min_r by nia. lia.
  - assert (part_size * (i + 1) ≤ size - 1) as Hin by nia.
    rewrite Z.min_l by lia.
    replace (part_size * (i + 1) - 1 + 1) with (part_size * (i + 1)) by lia.
    apply IH; [lia|].
    replace (i + 1 + Z.of_nat (S todo)) with (i + Z.of_nat (S (S todo))) by lia. done.
Qed.

(** The loop run for [num_parts] rounds with the part length of the planner
    makes a valid plan when the last part starts inside the object. *)
Lemma gen_loop_valid (size num_parts : Z) :
  0 < size → 0 < num_parts → last_part_inside size num_parts →
  valid_plan size (gen_loop size (ceil_div size num_parts) 0 (Z.to_nat num_parts)).
Proof.
  intros Hsize Hn Hlast. unfold last_part_inside in Hlast.
  pose proof (ceil_div_pos size num_parts Hsize Hn) as Hq.
  pose proof (ceil_div_bounds size num_parts Hn) as [_ Hhi].
  set (q := ceil_div size num_parts) in *.
  apply contiguous_valid.
  - replace 0 with (q * 0) at 1 by lia.
    apply gen_loop_contiguous; [done|]. rewrite Z2Nat.id by lia.
    replace (0 + num_parts - 1) with (num_parts - 1) by lia. done.
  - replace 0 with (q * 0) at 1 by lia.
    apply gen_loop_end; [done | lia |]. rewrite Z2Nat.id by lia.
    split; [|nia]. replace (0 + num_parts - 1) with (num_parts - 1) by lia. done.
Qed.

(** A part count obtained from a part length keeps the last part inside. *)
Lemma last_part_inside_of_part_size (size p : Z) :
  0 < size → 0 < p → last_part_inside size (ceil_div size p).
Proof.
  intros Hsize Hp. unfold last_part_inside.
  set (n := ceil_div size p).
  assert (0 < n) as Hn by (by apply ceil_div_pos).
  pose proof (ceil_div_bounds size p Hp) as [Hlo Hhi]. fold n in Hlo, Hhi.
  pose proof (ceil_div_bounds size n Hn) as [Hlo' Hhi'].
  set (q := ceil_div size n) in *.
  assert (q ≤ p) as Hqp by nia.
  nia.
Qed.

Lemma last_part_inside_one (size : Z) : 0 < size → last_part_inside size 1.
Proof. intros Hs. unfold last_part_inside. lia. Qed.

(** *** The length of a part, as the program computes it *)

(** Binary64 has the three properties of the rounding above. *)
Lemma ceil_of_b64_quotient (a : Z) (b : positive) :
  0 < a < 2 ^ 53 → Z.pos b ≤ 2 ^ 1022 →
  Qceiling (b64 (a # b)) = ceil_div a (Z.pos b).
Proof.
  intros Ha Hb. apply (ceil_of_rounded_quotient b64 (pow2 emin)).
  - apply b64_mono.
  - apply b64_nat.
  - intros x Hx _. pose proof (b64_near x Hx) as [Hlo _].
    eapply Qle_trans; [|exact Hlo].
    assert ((2 ^ 53 - 1) # 2 ^ 53 == 1 - (1 # 2 ^ 53))%Q as -> by (by vm_compute).
    apply Qle_lteq. right. ring.
  - done.
  - apply Qle_trans with (1 # b)%Q.
    + assert (pow2 emin == 1 # (Z.to_pos (2 ^ 1022)))%Q as -> by (by vm_compute).
      unfold Qle. cbn [Qnum Qden]. rewrite Z2Pos.id by lia. lia.
    + unfold Qle. cbn [Qnum Qden]. nia.
Qed.

(** The quotient of two floats that stand for integers. *)
Lemma float_quotient (x y : Q) (a b : Z) :
  0 < b → (x == inject_Z a)%Q → (y == inject_Z b)%Q → (x / y == a # Z.to_pos b)%Q.
Proof.
  intros Hb -> ->. rewrite (Qmake_Qdiv a). by rewrite Z2Pos.id.
Qed.

(** Below 2^53 the length of a part is the ceiling of the exact quotient. *)
Lemma part_size_exact (size num_parts : Z) :
  0 < size < 2 ^ 53 → 0 < num_parts < 2 ^ 53 →
  part_size size num_parts = Ok (ceil_div size num_parts).
Proof.
  intros Hsize Hn. unfold part_size.
  destruct (of_int_exact size) as (x & Hx & Hxe); [lia|].
  destruct (of_int_exact num_parts) as (y & Hy & Hye); [lia|].
  rewrite Hx. simpl. rewrite (div_int_run x num_parts y Hy) by lia. simpl.
  pose proof (float_quotient x y size num_parts ltac:(lia) Hxe Hye) as Hq.
  assert (Qceiling (b64 (x / y)) = ceil_div size num_parts) as Hceil.
  { rewrite Hq, ceil_of_b64_quotient by (rewrite ?Z2Pos.id; lia).
    by rewrite Z2Pos.id by lia. }
  rewrite ceil_run; [by rewrite Hceil|].
  apply finite_small.
  replace (- inject_Z (2 ^ 53))%Q with (inject_Z (- 2 ^ 53)) by done.
  apply b64_between; [lia | lia |]. rewrite Hq.
  unfold Qle. simpl. rewrite Z2Pos.id by lia. nia.
Qed.

(** With no parts to make there is a division by zero, for a size that is a
    float. *)
Lemma part_size_no_parts (size : Z) :
  - 2 ^ 53 ≤ size ≤ 2 ^ 53 → part_size size 0 = Raise ZeroDivisionError.
Proof.
  intros Hsize. unfold part_size.
  destruct (of_int_exact size) as (x & -> & _); [lia|]. done.
Qed.

Lemma gen_byte_ranges_run size num_parts plan :
  gen_byte_ranges size num_parts = Ok plan ↔
  ∃ ps, part_size size num_parts = Ok ps ∧
        plan = gen_loop size ps 0 (Z.to_nat num_parts).
Proof.
  unfold gen_byte_ranges. destruct (part_size size num_parts) as [ps | e]; simpl.
  - split; [intros [= <-]; by exists ps | by intros (? & [= <-] & ->)].
  - split; [done | by intros (? & ? & _)].
Qed.

Lemma gen_byte_ranges_exact (size num_parts : Z) :
  0 < size < 2 ^ 53 → 0 < num_parts < 2 ^ 53 →
  gen_byte_ranges size num_parts =
  Ok (gen_loop size (ceil_div size num_parts) 0 (Z.to_nat num_parts)).
Proof.
  intros Hsize Hn. apply gen_byte_ranges_run. eexists. split; [|done].
  by apply part_size_exact.
Qed.

Lemma gen_byte_ranges_length size num_parts plan :
  gen_byte_ranges size num_parts = Ok plan → length plan = Z.to_nat num_parts.
Proof.
  intros (ps & _ & ->)%gen_byte_ranges_run. apply gen_loop_length.
Qed.

(** A valid plan has no more parts than the object has bytes. *)
Lemma contiguous_length lo plan :
  contiguous_from lo plan → lo + Z.of_nat (length plan) ≤ plan_end lo plan.
Proof.
  revert lo. induction plan as [|r rest IH]; intros lo; simpl; [lia|].
  intros (-> & Hle & Hrest). specialize (IH _ Hrest). lia.
Qed.

Lemma valid_plan_length size plan : valid_plan size plan → Z.of_nat (length plan) ≤ size.
Proof.
  intros Hvalid.
  pose proof (contiguous_length 0 plan (vp_contiguous _ _ Hvalid)).
  pose proof (contiguous_total 0 plan (vp_contiguous _ _ Hvalid)).
  pose proof (vp_total _ _ Hvalid). lia.
Qed.

(** A part count whose last part starts inside the object is at most the
    size. *)
Lemma last_part_inside_le (size num_parts : Z) :
  0 < size → 0 < num_parts → last_part_inside size num_parts → num_parts ≤ size.
Proof.
  intros Hsize Hn Hlast. unfold last_part_inside in Hlast.
  pose proof (ceil_div_pos size num_parts Hsize Hn). nia.
Qed.

(** The condition of [gen_byte_ranges_valid] cannot be dropped: a valid plan
    has a last part that starts inside the object. *)
Lemma valid_plan_last_part_inside size num_parts plan :
  0 < size < 2 ^ 53 → 0 < num_parts →
  gen_byte_ranges size num_parts = Ok plan → valid_plan size plan →
  last_part_inside size num_parts.
Proof.
  intros Hsize Hn Hplan Hvalid.
  assert (num_parts ≤ size) as Hparts.
  { pose proof (valid_plan_length size plan Hvalid) as Hlen.
    rewrite (gen_byte_ranges_length _ _ _ Hplan) in Hlen. lia. }
  revert Hplan Hvalid. rewrite gen_byte_ranges_exact by lia.
  intros [= <-] Hvalid. unfold last_part_inside.
  set (q := ceil_div size num_parts) in *.
  set (todo := Z.to_nat num_parts) in *.
  destruct (gen_loop size q 0 todo !! (todo - 1)%nat) as [r|] eqn:Hr.
  - pose proof Hr as Hr'. apply gen_loop_lookup in Hr' as [_ ->].
    assert ((q * (0 + Z.of_nat (todo - 1)),
             Z.min (q * (0 + Z.of_nat (todo - 1) + 1) - 1) (size - 1))
            ∈ gen_loop size q 0 todo) as Hin by (apply list_elem_of_lookup; eauto).
    pose proof (contiguous_elem _ _ _ (vp_contiguous _ _ Hvalid) Hin) as (_ & Hle & _).
    simpl in Hle. replace (Z.of_nat (todo - 1)) with (num_parts - 1) in Hle by lia.
    lia.
  - apply lookup_ge_None in Hr. rewrite gen_loop_length in Hr. lia.
Qed.

(** C7. Part [i], counted from 0, of the plan is the range
    [i * part_size, min ((i + 1) * part_size - 1, size - 1)], where
    [part_size] is the per-part byte length the planner computes,
    [int (ceil (1. * size / num_parts))] in binary64; for a size and a part
    count below 2^53 that length is the ceiling of [size / num_parts]. *)
Theorem gen_byte_ranges_part (size num_parts : Z) (plan : list byte_range)
    (i : nat) (r : byte_range) :
  gen_byte_ranges size num_parts = Ok plan →
  plan !! i = Some r →
  ∃ ps, part_size size num_parts = Ok ps ∧
        r = (Z.of_nat i * ps, Z.min ((Z.of_nat i + 1) * ps - 1) (size - 1)) ∧
        (0 < size < 2 ^ 53 → 0 < num_parts < 2 ^ 53 → ps = ceil_div size num_parts).
Proof.
  intros (ps & Hps & ->)%gen_byte_ranges_run Hi. exists ps.
  apply gen_loop_lookup in Hi as [_ ->].
  split; [done|]. split.
  - f_equal; [lia|]. f_equal. lia.
  - intros Hsize Hn. rewrite part_size_exact in Hps by done. by injection Hps.
Qed.

Lemma gen_byte_ranges_part_witness :
  ∃ ps, part_size 10 3 = Ok ps ∧
        (4, 7) = (Z.of_nat 1 * ps, Z.min ((Z.of_nat 1 + 1) * ps - 1) (10 - 1)) ∧
        (0 < 10 < 2 ^ 53 → 0 < 3 < 2 ^ 53 → ps = ceil_div 10 3).
Proof.
  apply (gen_byte_ranges_part 10 3 [(0, 3); (4, 7); (8, 9)] 1 (4, 7));
    [by vm_compute | reflexivity].
Defined.

(** C1, as the code has it. For an object of [size > 0] bytes, with
    [size < 2^53] so that the float of the size is the size, and a part
    count [num_parts > 0] whose last part starts inside the object
    ([ceil (size / num_parts) * (num_parts - 1) < size], which holds for
    every part count of the form [ceil (size / p)] with [p > 0]), the planner
    returns an ordered sequence of non-empty ranges that are contiguous, do
    not overlap, cover exactly the bytes [0 .. size - 1] and whose lengths
    sum to [size]. *)
Theorem gen_byte_ranges_valid (size num_parts : Z) :
  0 < size < 2 ^ 53 → 0 < num_parts → last_part_inside size num_parts →
  ∃ plan, gen_byte_ranges size num_parts = Ok plan ∧ valid_plan size plan.
Proof.
  intros Hsize Hn Hlast.
  pose proof (last_part_inside_le size num_parts ltac:(lia) Hn Hlast) as Hle.
  rewrite gen_byte_ranges_exact by lia.
  eexists. split; [reflexivity|]. apply gen_loop_valid; [lia | done | done].
Qed.

Lemma gen_byte_ranges_valid_witness :
  ∃ plan, gen_byte_ranges 10 3 = Ok plan ∧ valid_plan 10 plan.
Proof.
  apply (gen_byte_ranges_valid 10 3); [lia | lia | unfold last_part_inside; vm_compute; done].
Defined.

(** C1 as stated fails: 5 bytes in 4 parts give parts of 2 bytes, and the
    fourth range is (6, 4): it starts past the end of the third and of the
    object, and the lengths sum to 4. It fails past 2^53 as well, where the
    float of the size is not the size: 2^53 + 1 bytes in one part give the
    range (0, 2^53 - 1), and the last byte is in no range. *)
Lemma gen_byte_ranges_not_valid :
  (0 < 5 ∧ 0 < 4 ∧
   gen_byte_ranges 5 4 = Ok [(0, 1); (2, 3); (4, 4); (6, 4)] ∧
   ¬ contiguous_from 0 [(0, 1); (2, 3); (4, 4); (6, 4)] ∧
   total_len [(0, 1); (2, 3); (4, 4); (6, 4)] ≠ 5 ∧
   ¬ valid_plan 5 [(0, 1); (2, 3); (4, 4); (6, 4)]) ∧
  (0 < 2 ^ 53 + 1 ∧ 0 < 1 ∧
   gen_byte_ranges (2 ^ 53 + 1) 1 = Ok [(0, 2 ^ 53 - 1)] ∧
   total_len [(0, 2 ^ 53 - 1)] ≠ 2 ^ 53 + 1 ∧
   ¬ valid_plan (2 ^ 53 + 1) [(0, 2 ^ 53 - 1)]).
Proof.
  split.
  - split; [lia|]. split; [lia|]. split; [by vm_compute|].
    split; [|split].
    + simpl. lia.
    + vm_compute. done.
    + intros Hvalid. pose proof (vp_total _ _ Hvalid) as Htotal.
      vm_compute in Htotal. done.
  - split; [lia|]. split; [lia|]. split; [by vm_compute|]. split.
    + vm_compute. done.
    + intros Hvalid. pose proof (vp_total _ _ Hvalid) as Htotal.
      vm_compute in Htotal. done.
Qed.

End PlannerFacts.

(** ** Running the monad *)

Ltac run :=
  unfold mbind, M_bind, mret, M_ret, raise, emit, lift, attempt, get_world,
    set_files, queue_put, event_is_set, event_set, os_close; simpl.

(** ** What every step of the program preserves *)

Module Preserved.
Import StopEvent.

Global Instance extends_quietly_preorder : PreOrder extends_quietly.
Proof.
  split.
  - intros w. exists []. by rewrite app_nil_r.
  - intros w1 w2 w3 (evs & H12 & Hevs) (evs' & H23 & Hevs'). exists (evs ++ evs').
    rewrite H23, H12, app_assoc. split; [done | by apply Forall_app].
Qed.

Global Instance flag_kept_preorder : PreOrder flag_kept.
Proof.
  split.
  - intros w Hset. exact Hset.
  - intros w1 w2 w3 H12 H23 Hset. apply H23, H12, Hset.
Qed.

Section Combinators.
Context (R : relation world) `{!PreOrder R} {A B : Type}.

Lemma preserved_ret (a : A) : preserved R (mret a).
Proof. intros w. change (R w w). reflexivity. Qed.

Lemma preserved_raise (e : exn) : preserved R (raise e : M A).
Proof. intros w. change (R w w). reflexivity. Qed.

Lemma preserved_lift (r : result A) : preserved R (lift r).
Proof. intros w. change (R w w). reflexivity. Qed.

Lemma preserved_bind (m : M A) (k : A → M B) :
  preserved R m → (∀ a, preserved R (k a)) → preserved R (m ≫= k).
Proof.
  intros Hm Hk w. unfold mbind, M_bind. specialize (Hm w).
  destruct (m w) as [[a | e] w1]; simpl in *; [|done].
  transitivity w1; [done | apply Hk].
Qed.

Lemma preserved_attempt (m : M A) : preserved R m → preserved R (attempt m).
Proof. intros Hm w. unfold attempt. specialize (Hm w). by destruct (m w). Qed.

End Combinators.

Lemma quiet_emit (ev : event) : no_clear ev → preserved extends_quietly (emit ev).
Proof. intros Hev w. exists [ev]. split; [done | by constructor]. Qed.

Lemma quiet_is_set (E : env) : preserved extends_quietly (event_is_set E).
Proof. intros w. exists [EvStop OpIsSet]. split; [done | by constructor]. Qed.

Lemma quiet_set : preserved extends_quietly event_set.
Proof. intros w. exists [EvStop OpSet]. split; [done | by constructor]. Qed.

Lemma kept_is_set (E : env) : preserved flag_kept (event_is_set E).
Proof. intros w Hset. simpl. by rewrite Hset. Qed.

Lemma kept_set : preserved flag_kept event_set.
Proof. by intros w Hset. Qed.

Create HintDb preserved.
#[export] Hint Resolve preserved_ret preserved_raise preserved_lift
  quiet_is_set quiet_set kept_is_set kept_set : preserved.

(** One step through the syntax of a computation. *)
Ltac preserved_step :=
  match goal with
  | |- preserved _ (_ ≫= _) => apply preserved_bind; [tc_solve | | intros ?]
  | |- preserved _ (attempt _) => apply preserved_attempt
  | |- preserved extends_quietly (emit _) => apply quiet_emit; discriminate
  | |- preserved _ (match ?x with _ => _ end) => destruct x
  | |- preserved _ _ => solve [auto with preserved]
  | |- preserved extends_quietly _ => solve [intros ?; exists []; by rewrite app_nil_r]
  | |- preserved flag_kept _ => solve [intros ? ?; assumption]
  end.
Ltac preserved := repeat preserved_step.

Section Steps.
Context (R : relation world) `{!PreOrder R}.
Context (Hwhich : R = extends_quietly ∨ R = flag_kept).

Lemma preserved_os_write fd chunk : preserved R (os_write fd chunk).
Proof. unfold os_write. destruct Hwhich as [-> | ->]; preserved. Qed.

Lemma preserved_os_create E path : preserved R (os_create E path).
Proof. unfold os_create. destruct Hwhich as [-> | ->]; preserved. Qed.

Lemma preserved_os_remove path : preserved R (os_remove path).
Proof. unfold os_remove. destruct Hwhich as [-> | ->]; preserved. Qed.

End Steps.

End Preserved.

(** ** PartWorker *)

Module WorkerFacts.
Import Worker WorkerSpec StopEvent Preserved.

(** *** Writing into the file *)

Lemma write_at_prefix_length (f : list byte) (p : nat) :
  length (take p f ++ replicate (p - length f)%nat Byte.x00) = p.
Proof. rewrite length_app, length_take, length_replicate. lia. Qed.

(** What was written at an offset is read back there. *)
Lemma write_at_read (f : list byte) pos chunk :
  take (length chunk) (drop (Z.to_nat pos) (write_at f pos chunk)) = chunk.
Proof.
  unfold write_at. case_decide as Hc; [by subst|].
  rewrite app_assoc.
  rewrite drop_app_length' by (by rewrite write_at_prefix_length).
  by rewrite take_app_length.
Qed.

(** Two writes, the second where the first ended, are one write. *)
Lemma write_at_app (f : list byte) pos c d :
  0 ≤ pos →
  write_at (write_at f pos c) (pos + Z.of_nat (length c)) d = write_at f pos (c ++ d).
Proof.
  intros Hpos. destruct (decide (c = [])) as [-> | Hc].
  { simpl. rewrite Z.add_0_r. unfold write_at at 2. by rewrite decide_True. }
  destruct (decide (d = [])) as [-> | Hd].
  { rewrite app_nil_r. unfold write_at at 1. by rewrite decide_True. }
  unfold write_at. rewrite (decide_False (P := c = [])) by done.
  rewrite (decide_False (P := d = [])) by done.
  rewrite decide_False by (by destruct c).
  set (p := Z.to_nat pos).
  replace (Z.to_nat (pos + Z.of_nat (length c))) with (p + length c)%nat by lia.
  set (A := take p f ++ replicate (p - length f)%nat Byte.x00).
  assert (length A = p) as HA by apply write_at_prefix_length.
  rewrite !app_assoc. fold A.
  set (D := drop (p + length c) f).
  rewrite take_app_length' by (rewrite length_app; lia).
  replace (p + length c - length ((A ++ c) ++ D))%nat with 0%nat
    by (rewrite !length_app; lia).
  simpl. rewrite app_nil_r.
  rewrite drop_app_add' by (rewrite length_app; lia).
  unfold D. rewrite drop_drop, length_app.
  rewrite <-!app_assoc.
  by replace (p + length c + length d)%nat with (p + (length c + length d))%nat by lia.
Qed.

Lemma total_app l1 l2 : total (l1 ++ l2) = total l1 + total l2.
Proof. unfold total. induction l1 as [|x l1 IH]; simpl; lia. Qed.

Lemma total_lengths chunks : total (lengths chunks) = Z.of_nat (length (concat chunks)).
Proof.
  unfold total, lengths. induction chunks as [|c chunks IH]; [done|].
  rewrite fmap_cons. simpl foldr. rewrite IH. simpl concat.
  rewrite length_app. lia.
Qed.

(** *** One attempt, when nobody stops the download *)

Section Undisturbed.
Context (E : env).
Hypothesis Hquiet : ∀ n, cancel_seen E n = false.

Lemma write_chunks_run t broken chunks : ∀ fd w f,
  stop w = false →
  Forall (λ c, c ≠ []) chunks →
  files w !! fd_path fd = Some f →
  0 ≤ fd_pos fd →
  ∃ w', write_chunks E t fd chunks broken w
        = (match broken with Some e => Raise e | None => Ok () end, w') ∧
    stop w' = false ∧
    files w' = <[fd_path fd := write_at f (fd_pos fd) (concat chunks)]> (files w) ∧
    dirs w' = dirs w ∧
    queue w' = queue w ++ (if queue_on t then lengths chunks else []).
Proof.
  induction chunks as [|chunk rest IH]; intros fd w f Hstop Hne Hf Hpos.
  - exists w. simpl. split; [by destruct broken|]. split; [done|].
    split; [|split; [done|]].
    + unfold write_at. rewrite decide_True by done. by rewrite insert_id.
    + destruct (queue_on t); by rewrite app_nil_r.
  - inversion Hne as [|? ? Hchunk Hrest]; subst.
    simpl. run. rewrite Hstop, Hquiet. simpl.
    rewrite decide_False by done. unfold os_write. run.
    set (fs := alter (λ content, write_at content (fd_pos fd) chunk) (fd_path fd) (files w)).
    assert (fs !! fd_path fd = Some (write_at f (fd_pos fd) chunk)) as Hfs
      by (unfold fs; by rewrite lookup_alter_eq, Hf).
    destruct (queue_on t); simpl.
    + edestruct (IH (OpenFile (fd_path fd) (fd_pos fd + Z.of_nat (length chunk)))
                    (World fs (dirs w) (queue w ++ [Z.of_nat (length chunk)]) false
                           (S (seen w)) (trace w ++ [EvStop OpIsSet])))
        as (w' & Hrun & Hs & Hfiles & Hdirs & Hq); simpl;
        [done | done | exact Hfs | lia |].
      exists w'. split; [exact Hrun|]. split; [done|]. simpl in *.
      split; [|split; [done|]].
      * rewrite Hfiles, write_at_app by done. unfold fs. apply insert_alter_eq.
      * rewrite Hq, <-app_assoc. done.
    + edestruct (IH (OpenFile (fd_path fd) (fd_pos fd + Z.of_nat (length chunk)))
                    (World fs (dirs w) (queue w) false
                           (S (seen w)) (trace w ++ [EvStop OpIsSet])))
        as (w' & Hrun & Hs & Hfiles & Hdirs & Hq); simpl;
        [done | done | exact Hfs | lia |].
      exists w'. split; [exact Hrun|]. split; [done|]. simpl in *.
      split; [|split; [done|done]].
      rewrite Hfiles, write_at_app by done. unfold fs. apply insert_alter_eq.
Qed.

Lemma open_part_run t w f :
  files w !! fname t = Some f → 0 ≤ min_byte t →
  open_part t w = (Ok (OpenFile (fname t) (min_byte t)), w).
Proof.
  intros Hf Hmin. unfold open_part, os_open_wronly, os_lseek. run.
  rewrite Hf. simpl. by rewrite decide_False by lia.
Qed.

Lemma fetch_part_run t fd w f :
  let r := get_reply E (min_byte t) (max_byte t) (current_tries t) in
  stop w = false →
  Forall (λ c, c ≠ []) (delivered r) →
  files w !! fd_path fd = Some f →
  0 ≤ fd_pos fd →
  ∃ w', fetch_part E t fd w = (fetched_outcome r, w') ∧
    stop w' = false ∧
    files w' = <[fd_path fd := write_at f (fd_pos fd) (concat (delivered r))]> (files w) ∧
    dirs w' = dirs w ∧
    queue w' = queue w ++ (if queue_on t then lengths (delivered r) else []).
Proof.
  intros r Hstop Hne Hf Hpos. unfold fetch_part, get_object. fold r. run.
  destruct r as [e | chunks broken]; simpl in *.
  - eexists. split; [reflexivity|]. simpl. split; [done|]. split; [|split; [done|]].
    + unfold write_at. rewrite decide_True by done. by rewrite insert_id.
    + destruct (queue_on t); by rewrite app_nil_r.
  - edestruct (write_chunks_run t broken chunks fd
                 (logged w [EvGetObject (bucket_name t) (key_name t)
                              (min_byte t) (max_byte t)]))
      as (w' & Hrun & Hs & Hfiles & Hdirs & Hq); simpl; [done | done | exact Hf | done |].
    unfold logged in Hrun. rewrite Hrun. exists w'. split; [by destruct broken|]. done.
Qed.


End Undisturbed.



(** *** A worker that finds the stop event set *)

(** C4, as the code has it. A worker that finds the stop event set before it
    starts returns at once, with no value: it asks for no client and makes no
    network call, opens and writes no file, puts nothing on the queue, and
    leaves the event set. Its only call is the [is_set()] it starts with. *)
Theorem do_part_download_stopped (E : env) (t : task) (w : world) :
  stop w || cancel_seen E (seen w) = true →
  do_part_download E t w
  = (Ok (), World (files w) (dirs w) (queue w) true (S (seen w))
                  (trace w ++ [EvStop OpIsSet])) ∧
  Forall (λ ev, is_network_call ev = false) (new_events w (do_part_download E t w)).
Proof.
  intros Hset.
  assert (do_part_download E t w
          = (Ok (), World (files w) (dirs w) (queue w) true (S (seen w))
                          (trace w ++ [EvStop OpIsSet]))) as Hrun.
  { rewrite do_part_download_equation_1. run. by rewrite Hset. }
  split; [done|]. rewrite Hrun. unfold new_events. simpl.
  rewrite drop_app_length. by repeat constructor.
Qed.

Lemma do_part_download_stopped_witness :
  do_part_download (Examples.remote (HeadOk 2) Examples.steady) Examples.part
                   Examples.stopped_world
  = (Ok (), World {["out.bin" := []]} ∅ [] true 1 [EvStop OpIsSet]) ∧
  Forall (λ ev, is_network_call ev = false)
    (new_events Examples.stopped_world
       (do_part_download (Examples.remote (HeadOk 2) Examples.steady) Examples.part
                         Examples.stopped_world)).
Proof.
  apply (do_part_download_stopped (Examples.remote (HeadOk 2) Examples.steady)
           Examples.part Examples.stopped_world).
  reflexivity.
Defined.

(** C4 as stated fails: what the stopped worker returns is what a worker
    returns that has downloaded its whole part, so the return value cannot be
    read as [Cancelled] in one case and as [Completed] in the other. *)
Lemma stopped_returns_like_completed :
  let E := Examples.remote (HeadOk 2) Examples.steady in
  let stopped := do_part_download E Examples.part Examples.stopped_world in
  let completed := do_part_download E Examples.part Examples.ready_world in
  stop Examples.stopped_world = true ∧
  files completed.2 !! "out.bin" = Some [Byte.x01; Byte.x02] ∧
  stopped.1 = Ok () ∧
  completed.1 = Ok () ∧
  ¬ ∃ outcome_of : result () → WorkerOutcome,
      outcome_of stopped.1 = Cancelled ∧ outcome_of completed.1 = Completed.
Proof.
  assert ((do_part_download (Examples.remote (HeadOk 2) Examples.steady) Examples.part
             Examples.stopped_world).1 = Ok ()) as Hstopped by (vm_compute; reflexivity).
  assert ((do_part_download (Examples.remote (HeadOk 2) Examples.steady) Examples.part
             Examples.ready_world).1 = Ok ()) as Hcompleted by (vm_compute; reflexivity).
  cbv zeta. split; [reflexivity|]. split; [vm_compute; reflexivity|].
  split; [done|]. split; [done|].
  intros (outcome_of & Hc & Hd). rewrite Hstopped in Hc. rewrite Hcompleted in Hd.
  congruence.
Qed.

(** *** The worker and the stop event *)

Section WorkerPreserves.
Context (R : relation world) `{!PreOrder R}.
Context (Hwhich : R = extends_quietly ∨ R = flag_kept).

Lemma preserved_open_part t : preserved R (open_part t).
Proof.
  unfold open_part, os_open_wronly, os_lseek. destruct Hwhich as [-> | ->]; preserved.
Qed.

Lemma preserved_write_chunks E t chunks : ∀ fd broken,
  preserved R (write_chunks E t fd chunks broken).
Proof.
  pose proof (preserved_os_write R Hwhich).
  induction chunks as [|chunk rest IH]; intros fd broken; simpl;
    destruct Hwhich as [-> | ->]; preserved.
Qed.

Lemma preserved_fetch_part E t fd : preserved R (fetch_part E t fd).
Proof.
  pose proof (preserved_write_chunks E t).
  unfold fetch_part, get_object. destruct Hwhich as [-> | ->]; preserved.
Qed.

Lemma preserved_do_part_download E t : preserved R (do_part_download E t).
Proof.
  remember (tries_left t) as n eqn:Hn. revert t Hn.
  induction (lt_wf n) as [n _ IH]. intros t ->.
  rewrite do_part_download_equation_1. unfold new_client, os_close.
  pose proof (preserved_open_part t). pose proof (preserved_fetch_part E t).
  assert (current_tries t ≤ max_tries t → preserved R (do_part_download E (retry t))) as Hrec.
  { intros Hle. eapply IH; [|reflexivity]. unfold tries_left, retry. simpl. lia. }
  destruct Hwhich as [-> | ->]; preserved; apply Hrec; lia.
Qed.

End WorkerPreserves.

End WorkerFacts.

(** ** ProgressAggregator *)

Module MonitorFacts.
Import Monitor StopEvent Preserved.

Lemma deque_append_length maxlen dq x :
  length (deque_append maxlen dq x) = (maxlen `min` S (length dq))%nat.
Proof. unfold deque_append. rewrite length_drop, length_app. simpl. lia. Qed.

(** The window is never empty after a sample is appended, so [dq[0]] is
    there; and the division is guarded: the step never raises. *)
Lemma speed_step_total dq current_time downloaded :
  ∃ dq' speed, speed_step dq current_time downloaded = Ok (dq', speed).
Proof.
  unfold speed_step.
  pose proof (deque_append_length 20 dq (current_time, downloaded)) as Hlen.
  destruct (deque_append 20 dq (current_time, downloaded)) as [|[old_time old_bytes] rest];
    [simpl in Hlen; lia|].
  destruct (Qlt_le_dec 0 (current_time - old_time)) as [Hlt | Hle]; [|by eauto].
  unfold truediv. destruct (Qeq_bool (current_time - old_time) 0) eqn:Hz; [|by eauto].
  apply Qeq_bool_eq in Hz. rewrite Hz in Hlt. by apply Qlt_irrefl in Hlt.
Qed.

(** C8. When the oldest sample kept in the window, the new one included, has
    the time of the new sample, so that no time has elapsed between the two,
    the speed is 0: the step returns, with the number 0. *)
Theorem speed_zero_elapsed (dq : window) (current_time : Q) (downloaded : Z)
    (old_time : Q) (old_bytes : Z) (rest : window) :
  deque_append 20 dq (current_time, downloaded) = (old_time, old_bytes) :: rest →
  (current_time - old_time == 0)%Q →
  speed_step dq current_time downloaded = Ok ((old_time, old_bytes) :: rest, 0%Q).
Proof.
  intros Hwindow Helapsed. unfold speed_step. rewrite Hwindow.
  destruct (Qlt_le_dec 0 (current_time - old_time)) as [Hlt | Hle]; [|done].
  rewrite Helapsed in Hlt. by apply Qlt_irrefl in Hlt.
Qed.

Lemma speed_zero_elapsed_witness :
  speed_step [(7 # 2, 10); (7 # 2, 10)] (7 # 2) 4096
  = Ok ([(7 # 2, 10); (7 # 2, 10); (7 # 2, 4096)], 0%Q).
Proof.
  apply (speed_zero_elapsed [(7 # 2, 10); (7 # 2, 10)] (7 # 2) 4096 (7 # 2) 10
           [(7 # 2, 10); (7 # 2, 4096)]).
  - reflexivity.
  - reflexivity.
Defined.

(** The first round of the monitor is such a state: its window holds the one
    sample just taken. *)
Lemma speed_first_sample current_time downloaded :
  speed_step [] current_time downloaded = Ok ([(current_time, downloaded)], 0%Q).
Proof.
  unfold speed_step. simpl.
  destruct (Qlt_le_dec 0 (current_time - current_time)) as [Hlt | Hle]; [|done].
  unfold Qminus in Hlt. rewrite Qplus_opp_r in Hlt. by apply Qlt_irrefl in Hlt.
Qed.

(** *** The monitor and the stop event *)

Section MonitorPreserves.
Context (R : relation world) `{!PreOrder R}.
Context (Hwhich : R = extends_quietly ∨ R = flag_kept).

Lemma preserved_monitor_loop E total_size rounds : ∀ round downloaded dq,
  preserved R (monitor_loop E total_size rounds round downloaded dq).
Proof.
  induction rounds as [|rounds IH]; intros round downloaded dq; simpl;
    destruct Hwhich as [-> | ->]; preserved.
Qed.

Lemma preserved_progress_monitor E total_size rounds :
  preserved R (progress_monitor E total_size rounds).
Proof.
  unfold progress_monitor. pose proof (preserved_monitor_loop E total_size rounds).
  destruct Hwhich as [-> | ->]; preserved.
Qed.

End MonitorPreserves.

End MonitorFacts.

(** ** DownloadCoordinator *)

Module CoordinatorFacts.
Import FloatFacts Coordinator CoordinatorSpec StopEvent Preserved.

Local Arguments resolve_dest : simpl never.
Local Arguments Float.of_int : simpl never.
Local Arguments Float.int_truediv : simpl never.
Local Arguments Float.div_int : simpl never.
Local Arguments Float.ceil : simpl never.

(** *** The messages of the errors differ *)

Lemma last_char_app (a b : string) : b ≠ "" → last_char (a +:+ b) = last_char b.
Proof.
  intros Hb. induction a as [|c a IH]; [done|].
  change (String c a +:+ b) with (String c (a +:+ b)).
  destruct (a +:+ b) as [|c' ab] eqn:Hab.
  - destruct a; [change ("" +:+ b) with b in Hab; congruence | discriminate].
  - rewrite <-IH. done.
Qed.

Lemma last_char_quoted (a s b : string) :
  b ≠ "" → last_char (a +:+ s +:+ b) = last_char b.
Proof.
  intros Hb. rewrite last_char_app; [by apply last_char_app|].
  destruct s; [done | discriminate].
Qed.

Lemma not_found_msg_not_s3 (s s' : string) : not_found_msg s ≠ not_s3_msg s'.
Proof.
  unfold not_found_msg, not_s3_msg. intros H. apply (f_equal last_char) in H.
  rewrite !last_char_quoted in H by done. discriminate.
Qed.

Lemma not_found_msg_not_denied (s : string) : not_found_msg s ≠ access_denied_msg.
Proof. discriminate. Qed.

Lemma not_found_msg_not_exists (s d : string) : not_found_msg s ≠ dest_exists_msg d.
Proof. discriminate. Qed.

Lemma access_denied_msg_not_s3 (s : string) : access_denied_msg ≠ not_s3_msg s.
Proof. discriminate. Qed.

Lemma access_denied_msg_not_exists (d : string) : access_denied_msg ≠ dest_exists_msg d.
Proof. discriminate. Qed.

(** *** The part count *)

(** The split that divides is never 0. *)
Lemma effective_split_nonzero (split : Z) : effective_split split ≠ 0.
Proof. unfold effective_split. case_decide; lia. Qed.

Lemma effective_split_bounds (split : Z) :
  - 2 ^ 53 < split < 2 ^ 53 → - 2 ^ 53 < effective_split split < 2 ^ 53.
Proof. unfold effective_split. case_decide; lia. Qed.

(** The ceiling of a quotient with a negative divisor is not positive. *)
Lemma ceil_div_negative (a b : Z) : 0 < a → b < 0 → Planner.ceil_div a b ≤ 0.
Proof.
  intros Ha Hb. unfold Planner.ceil_div.
  assert (- a / b = a / - b) as ->
    by (rewrite <-(Z.div_opp_opp a (- b)) by lia; f_equal; lia).
  assert (0 ≤ a / - b) by (apply Z.div_pos; lia). lia.
Qed.

(** The part count never fails by a division by zero, whatever the size and
    the split option. *)
Lemma compute_num_parts_divides (size split : Z) :
  compute_num_parts size split ≠ Raise ZeroDivisionError.
Proof.
  unfold compute_num_parts, mbind, result_bind.
  destruct (Float.int_truediv size 1024) as [kb | e] eqn:Hkb.
  - pose proof (div_int_divides kb 1024 ltac:(lia)) as H1.
    destruct (Float.div_int kb 1024) as [mb | e];
      [|intros [= ->]; by apply H1].
    pose proof (div_int_divides mb _ (effective_split_nonzero split)) as H2.
    destruct (Float.div_int mb (effective_split split)) as [q | e];
      [|intros [= ->]; by apply H2].
    unfold Float.ceil. by destruct (Float.finite q).
  - unfold Float.int_truediv in Hkb. rewrite decide_False in Hkb by lia.
    destruct (Float.finite _); [done|]. injection Hkb as <-. done.
Qed.

(** Below 2^53 the part count is the ceiling of the exact quotient of the
    size by the split in bytes, and at least 1. *)
Lemma compute_num_parts_exact (size split : Z) :
  0 < size < 2 ^ 53 → - 2 ^ 53 < split < 2 ^ 53 →
  compute_num_parts size split =
  Ok (Z.max 1 (Planner.ceil_div size (1024 * 1024 * effective_split split))).
Proof.
  intros Hsize Hsplit%effective_split_bounds.
  pose proof (effective_split_nonzero split) as Hne.
  unfold compute_num_parts, mbind, result_bind.
  set (es := effective_split split) in *.
  assert (0 < inject_Z size)%Q as Hsq
    by (change 0%Q with (inject_Z 0); rewrite <-Zlt_Qlt; lia).
  assert (inject_Z size <= inject_Z (2 ^ 53))%Q as Hsq' by (rewrite <-Zle_Qle; lia).
  assert (¬ (inject_Z es == 0)%Q) as Hesq
    by (change 0%Q with (inject_Z 0); rewrite inject_Z_injective; lia).
  (* size / 1024 *)
  set (kb := Float.b64 (inject_Z size / inject_Z 1024)).
  assert (kb == inject_Z size * Float.pow2 (-10))%Q as Hkb.
  { unfold kb. rewrite <-(b64_scaled size (-10)) by (unfold Float.emin; lia).
    apply b64_comp. unfold Qdiv. apply Qmult_comp; [reflexivity | by vm_compute]. }
  assert (Float.int_truediv size 1024 = Ok kb) as ->.
  { unfold Float.int_truediv. rewrite decide_False by lia. fold kb.
    rewrite finite_small; [done|]. rewrite Hkb.
    assert (Float.pow2 (-10) == 1 # 1024)%Q as -> by (by vm_compute).
    split; [|lra]. assert (0 < inject_Z (2 ^ 53))%Q by (by vm_compute). lra. }
  (* size_mb = size / 1024 / 1024 *)
  rewrite (div_int_run kb 1024 (Float.b64 (inject_Z 1024)))
    by (by vm_compute || lia).
  set (mb := Float.b64 (kb / Float.b64 (inject_Z 1024))).
  assert (mb == inject_Z size * Float.pow2 (-20))%Q as Hmb.
  { unfold mb. rewrite <-(b64_scaled size (-20)) by (unfold Float.emin; lia).
    apply b64_comp. rewrite Hkb, (b64_int 1024) by lia.
    unfold Qdiv. rewrite <-Qmult_assoc. apply Qmult_comp; [reflexivity | by vm_compute]. }
  (* size_mb / split *)
  destruct (of_int_exact es) as (y & Hy & Hye); [lia|].
  rewrite (div_int_run mb es y Hy Hne). set (q := Float.b64 (mb / y)).
  assert (mb / y == inject_Z size / inject_Z (1024 * 1024 * es))%Q as Hq.
  { rewrite Hmb, Hye, inject_Z_mult.
    assert (Float.pow2 (-20) == / inject_Z (1024 * 1024))%Q as -> by (by vm_compute).
    field. split; [done | by vm_compute]. }
  destruct (decide (0 < es)) as [Hpos | Hneg].
  - assert (mb / y == size # Z.to_pos (1024 * 1024 * es))%Q as Hq'.
    { rewrite Hq, (Qmake_Qdiv size). by rewrite Z2Pos.id by lia. }
    assert (Qceiling q = Planner.ceil_div size (1024 * 1024 * es)) as Hceil.
    { unfold q. rewrite Hq', PlannerFacts.ceil_of_b64_quotient by (rewrite ?Z2Pos.id; lia).
      by rewrite Z2Pos.id by lia. }
    pose proof (PlannerFacts.ceil_div_pos size (1024 * 1024 * es) ltac:(lia) ltac:(lia)).
    rewrite ceil_run.
    + rewrite Hceil, decide_False by lia. f_equal. lia.
    + apply finite_small.
      replace (- inject_Z (2 ^ 53))%Q with (inject_Z (- 2 ^ 53)) by done.
      apply b64_between; [lia | lia |]. rewrite Hq'.
      unfold Qle. cbn [Qnum Qden inject_Z]. rewrite Z2Pos.id by lia. nia.
  - assert (es < 0) as Hes by lia.
    assert (inject_Z (- 2 ^ 53) <= mb / y <= inject_Z 0)%Q as Hrange.
    { rewrite Hq.
      assert (inject_Z size / inject_Z (1024 * 1024 * es)
              == - size # Z.to_pos (- (1024 * 1024 * es)))%Q as ->.
      { rewrite (Qmake_Qdiv (- size)), Z2Pos.id by lia.
        rewrite !inject_Z_opp. field.
        change 0%Q with (inject_Z 0). rewrite inject_Z_injective. lia. }
      unfold Qle. cbn [Qnum Qden inject_Z]. rewrite Z2Pos.id by lia. nia. }
    pose proof (b64_between (mb / y) (- 2 ^ 53) 0 ltac:(lia) ltac:(lia) Hrange)
      as [Hlo Hhi].
    fold q in Hlo, Hhi.
    assert (Qceiling q ≤ 0) as Hceil
      by (rewrite <-(Qceiling_Z 0); by apply Qceiling_resp_le).
    pose proof (ceil_div_negative size (1024 * 1024 * es) ltac:(lia) ltac:(lia)).
    rewrite ceil_run.
    + rewrite decide_True by lia. f_equal. lia.
    + apply finite_small.
      replace (- inject_Z (2 ^ 53))%Q with (inject_Z (- 2 ^ 53)) by done.
      split; [done|]. apply Qle_trans with (inject_Z 0); [done | by vm_compute].
Qed.

(** The part count of the coordinator is at least 1 and makes a valid plan. *)
Lemma compute_num_parts_ok (size split : Z) :
  0 < size < 2 ^ 53 → - 2 ^ 53 < split < 2 ^ 53 →
  ∃ num_parts, compute_num_parts size split = Ok num_parts ∧ 1 ≤ num_parts ≤ size ∧
    Planner.last_part_inside size num_parts.
Proof.
  intros Hsize Hsplit. rewrite compute_num_parts_exact by done.
  eexists. split; [reflexivity|].
  set (d := 1024 * 1024 * effective_split split).
  assert (Planner.last_part_inside size (Z.max 1 (Planner.ceil_div size d))) as Hlast.
  { destruct (decide (0 < d)) as [Hd | Hd].
    - pose proof (PlannerFacts.ceil_div_pos size d ltac:(lia) Hd).
      rewrite Z.max_r by lia.
      apply PlannerFacts.last_part_inside_of_part_size; [lia | done].
    - pose proof (effective_split_nonzero split).
      pose proof (ceil_div_negative size d ltac:(lia) ltac:(lia)).
      rewrite Z.max_l by lia. apply PlannerFacts.last_part_inside_one. lia. }
  split; [|done]. split; [lia|].
  apply PlannerFacts.last_part_inside_le; [lia | lia | done].
Qed.

(** The plan the coordinator asks for is valid, whatever the split option. *)
Lemma coordinator_plan_valid (size split : Z) :
  0 < size < 2 ^ 53 → - 2 ^ 53 < split < 2 ^ 53 →
  ∃ num_parts plan,
    compute_num_parts size split = Ok num_parts ∧
    Planner.gen_byte_ranges size num_parts = Ok plan ∧
    Planner.valid_plan size plan.
Proof.
  intros Hsize Hsplit.
  destruct (compute_num_parts_ok size split Hsize Hsplit) as (n & Hn & Hpos & Hlast).
  exists n. eexists. split; [done|].
  rewrite PlannerFacts.gen_byte_ranges_exact by lia. split; [reflexivity|].
  apply PlannerFacts.gen_loop_valid; [lia | lia | done].
Qed.

(** *** The first steps of [main] *)

Section MainFacts.
Context (urlsplit : string → split_result) (E : env).

Lemma check_destination_pass o w :
  passes_validation urlsplit o w →
  check_destination o (destination urlsplit o w) w = (Ok (), cleared urlsplit o w).
Proof.
  intros [_ Hd]. unfold check_destination, cleared. run.
  destruct Hd as [-> | [Hforce [f Hf]]]; [done|].
  unfold path_exists. rewrite (bool_decide_eq_true_2 (is_Some _)) by (by rewrite Hf).
  rewrite orb_true_r, Hforce. unfold os_remove. run. by rewrite Hf.
Qed.

Lemma cleared_same o w :
  trace (cleared urlsplit o w) = trace w ∧ queue (cleared urlsplit o w) = queue w ∧
  stop (cleared urlsplit o w) = stop w.
Proof. unfold cleared. by destruct (path_exists w (destination urlsplit o w)). Qed.

(** [main] up to the Head query, when the inputs pass. *)
Lemma main_head o w :
  passes_validation urlsplit o w →
  main urlsplit E o w =
    match query_size E (src o) (bucket_of urlsplit o) (key_of urlsplit o)
            (logged (cleared urlsplit o w) [client_event o]) with
    | (Ok size, w') =>
        if decide (size < 1024 * 1024)
        then download_file E (bucket_of urlsplit o) (key_of urlsplit o)
               (destination urlsplit o w) w'
        else download_parallel E o (bucket_of urlsplit o) (key_of urlsplit o)
               (destination urlsplit o w) size w'
    | (Raise e, w') => (Raise e, w')
    end.
Proof.
  intros Hv. pose proof Hv as [Hs _]. unfold main.
  rewrite decide_False by (by intros H; apply H). run.
  fold (destination urlsplit o w). rewrite check_destination_pass by done.
  unfold Worker.new_client. run.
  fold (bucket_of urlsplit o) (key_of urlsplit o) (client_event o).
  change (World _ _ _ _ _ _) with (logged (cleared urlsplit o w) [client_event o]).
  destruct (query_size _ _ _ _ _) as [[size | e] w']; [by case_decide | done].
Qed.

(** A source that is not an S3 url is refused before anything is touched. *)
Lemma main_not_s3 o w :
  scheme (urlsplit (src o)) ≠ "s3" →
  main urlsplit E o w = (Raise (ValueError (not_s3_msg (src o))), w).
Proof. intros Hs. unfold main. by rewrite decide_True. Qed.

(** C5. For an S3 source, when the destination (the path [main] resolves it
    to) exists and [force] is off, [main] raises the error saying that the
    destination exists and leaves the world as it found it: no file is
    removed, truncated or created, and no call is made, to the network or
    elsewhere. *)
Theorem main_destination_exists (o : options) (w : world) :
  scheme (urlsplit (src o)) = "s3" →
  path_exists w (destination urlsplit o w) = true →
  force o = false →
  main urlsplit E o w
  = (Raise (ValueError (dest_exists_msg (destination urlsplit o w))), w).
Proof.
  intros Hs Hex Hforce. unfold main, check_destination, destination in *.
  rewrite decide_False by (by intros H; apply H). run.
  rewrite Hex, Hforce. done.
Qed.

(** C6. For an S3 source and a destination that passes the check, when the
    Head query reports a size below 1 MiB, [main] ends with the single
    transfer: what it returns is what [download_file] returns, and its calls
    are the client, the Head query and that transfer, in this order. No
    manager, pool or plan appears, and no worker runs. *)
Theorem main_small_object (o : options) (w : world) (size : Z) :
  passes_validation urlsplit o w →
  head_reply E = HeadOk size →
  size < 1024 * 1024 →
  ∃ w', main urlsplit E o w
        = (match download_reply E with Ok _ => Ok () | Raise e => Raise e end, w') ∧
    new_events w (main urlsplit E o w)
    = [client_event o;
       EvHeadObject (bucket_of urlsplit o) (key_of urlsplit o);
       EvDownloadFile (bucket_of urlsplit o) (key_of urlsplit o)
                      (destination urlsplit o w)] ∧
    files w' = match download_reply E with
               | Ok content =>
                   <[destination urlsplit o w := content]> (files (cleared urlsplit o w))
               | Raise _ => files (cleared urlsplit o w)
               end ∧
    queue w' = queue w ∧ stop w' = stop w.
Proof.
  intros Hv Hhead Hsize. unfold new_events. rewrite main_head by done.
  unfold query_size. run. rewrite Hhead. rewrite decide_True by done.
  unfold download_file. run.
  destruct (cleared_same o w) as (Ht & Hq & Hst).
  destruct (download_reply E) as [content | e]; simpl;
    (eexists; split; [reflexivity|]; simpl; rewrite Ht, <-!app_assoc;
     by rewrite drop_app_length).
Qed.

(** C3, as the code has it. For inputs that pass the checks, a Head query
    that reports 404 makes [main] raise a ValueError saying that the source
    does not exist, and one that reports 403 a ValueError saying that access
    is denied; every other failure of the query is raised again as it is.
    The two errors have the class of the errors for a source that is not an
    S3 url and for a destination that exists; their messages differ from
    each other and from the messages of those. *)
Theorem main_head_errors (o : options) (w : world) :
  passes_validation urlsplit o w →
  (head_reply E = HeadRaises (ClientError "404") →
   (main urlsplit E o w).1 = Raise (ValueError (not_found_msg (src o)))) ∧
  (head_reply E = HeadRaises (ClientError "403") →
   (main urlsplit E o w).1 = Raise (ValueError access_denied_msg)) ∧
  (∀ e, head_reply E = HeadRaises e →
        e ≠ ClientError "404" → e ≠ ClientError "403" →
        (main urlsplit E o w).1 = Raise e) ∧
  not_found_msg (src o) ≠ access_denied_msg ∧
  (∀ s d, not_found_msg (src o) ≠ not_s3_msg s ∧
          not_found_msg (src o) ≠ dest_exists_msg d ∧
          access_denied_msg ≠ not_s3_msg s ∧
          access_denied_msg ≠ dest_exists_msg d).
Proof.
  intros Hv.
  assert (∀ e, head_reply E = HeadRaises e →
            (main urlsplit E o w).1 =
            Raise (match e with
                   | ClientError code =>
                       if decide (code = "404") then ValueError (not_found_msg (src o))
                       else if decide (code = "403") then ValueError access_denied_msg
                       else e
                   | _ => e
                   end)) as Hmain.
  { intros e Hhead. rewrite main_head by done. unfold query_size. run. rewrite Hhead.
    destruct e as [msg | code | | | | | | |]; try done. by repeat case_decide. }
  split; [|split; [|split; [|split]]].
  - intros Hhead. by rewrite (Hmain _ Hhead).
  - intros Hhead. by rewrite (Hmain _ Hhead).
  - intros e Hhead H404 H403. rewrite (Hmain _ Hhead).
    destruct e as [msg | code | | | | | | |]; try done.
    repeat case_decide; by subst.
  - apply not_found_msg_not_denied.
  - intros s d. split; [apply not_found_msg_not_s3|]. split; [done|]. done.
Qed.

End MainFacts.

(** *** Examples of the first steps *)

Lemma main_destination_exists_witness :
  main Examples.usplit (Examples.remote (HeadOk 5) Examples.steady) Examples.opts
       Examples.taken_world
  = (Raise (ValueError "Destination file 'out.bin' exists, specify -f to overwrite"),
     Examples.taken_world).
Proof.
  apply (main_destination_exists Examples.usplit
           (Examples.remote (HeadOk 5) Examples.steady) Examples.opts Examples.taken_world);
    reflexivity.
Defined.

Lemma examples_pass_validation :
  passes_validation Examples.usplit Examples.opts Examples.empty_world.
Proof. split; [reflexivity | left; reflexivity]. Defined.

Lemma main_small_object_witness :
  ∃ w', main Examples.usplit (Examples.remote (HeadOk 512000) Examples.steady)
             Examples.opts Examples.empty_world = (Ok (), w') ∧
    new_events Examples.empty_world
      (main Examples.usplit (Examples.remote (HeadOk 512000) Examples.steady)
            Examples.opts Examples.empty_world)
    = [EvClient false (Some "us-west-2") true;
       EvHeadObject "bucket" "dir/key";
       EvDownloadFile "bucket" "dir/key" "out.bin"] ∧
    files w' = <["out.bin" := [Byte.x2a]]> ∅ ∧
    queue w' = [] ∧ stop w' = false.
Proof.
  apply (main_small_object Examples.usplit (Examples.remote (HeadOk 512000) Examples.steady)
           Examples.opts Examples.empty_world 512000).
  - exact examples_pass_validation.
  - reflexivity.
  - lia.
Defined.

Lemma main_head_errors_witness :
  let E := Examples.remote (HeadRaises (ClientError "404")) Examples.steady in
  (head_reply E = HeadRaises (ClientError "404") →
   (main Examples.usplit E Examples.opts Examples.empty_world).1
   = Raise (ValueError (not_found_msg "s3://bucket/dir/key"))) ∧
  (head_reply E = HeadRaises (ClientError "403") →
   (main Examples.usplit E Examples.opts Examples.empty_world).1
   = Raise (ValueError access_denied_msg)) ∧
  (∀ e, head_reply E = HeadRaises e →
        e ≠ ClientError "404" → e ≠ ClientError "403" →
        (main Examples.usplit E Examples.opts Examples.empty_world).1 = Raise e) ∧
  not_found_msg "s3://bucket/dir/key" ≠ access_denied_msg ∧
  (∀ s d, not_found_msg "s3://bucket/dir/key" ≠ not_s3_msg s ∧
          not_found_msg "s3://bucket/dir/key" ≠ dest_exists_msg d ∧
          access_denied_msg ≠ not_s3_msg s ∧
          access_denied_msg ≠ dest_exists_msg d).
Proof.
  apply (main_head_errors Examples.usplit
           (Examples.remote (HeadRaises (ClientError "404")) Examples.steady)
           Examples.opts Examples.empty_world).
  exact examples_pass_validation.
Defined.

(** C3 as stated fails: the error for a missing object, the error for denied
    access and the error for an existing destination are exceptions of one
    class, ValueError, so no reading of the class of the exception gives the
    kind [ObjectNotFound] to the first and [AccessDenied] to the second. *)
Lemma head_errors_share_class :
  let not_found :=
    (main Examples.usplit (Examples.remote (HeadRaises (ClientError "404")) Examples.steady)
          Examples.opts Examples.empty_world).1 in
  let denied :=
    (main Examples.usplit (Examples.remote (HeadRaises (ClientError "403")) Examples.steady)
          Examples.opts Examples.empty_world).1 in
  let taken :=
    (main Examples.usplit (Examples.remote (HeadOk 5) Examples.steady)
          Examples.opts Examples.taken_world).1 in
  raised_class not_found = Some ValueError_class ∧
  raised_class denied = Some ValueError_class ∧
  raised_class taken = Some ValueError_class ∧
  ¬ ∃ kind_of : exn_class → ErrorKind,
      kind_of <$> raised_class not_found = Some ObjectNotFound ∧
      kind_of <$> raised_class denied = Some AccessDenied.
Proof.
  assert (raised_class
            (main Examples.usplit
               (Examples.remote (HeadRaises (ClientError "404")) Examples.steady)
               Examples.opts Examples.empty_world).1 = Some ValueError_class) as H404
    by (vm_compute; reflexivity).
  assert (raised_class
            (main Examples.usplit
               (Examples.remote (HeadRaises (ClientError "403")) Examples.steady)
               Examples.opts Examples.empty_world).1 = Some ValueError_class) as H403
    by (vm_compute; reflexivity).
  cbv zeta. split; [done|]. split; [done|]. split; [vm_compute; reflexivity|].
  intros (kind_of & Hnf & Hd). rewrite H404 in Hnf. rewrite H403 in Hd.
  simpl in *. congruence.
Qed.

(** *** The split option *)

Lemma parallel_body_split E o bucket_name key_name dest size split num_parts a b :
  parallel_body E (with_split o a) bucket_name key_name dest size split num_parts
  = parallel_body E (with_split o b) bucket_name key_name dest size split num_parts.
Proof. reflexivity. Qed.

(** C10. A split option of 0 is replaced by 32 before the part count is
    computed: for an object of less than 2^53 bytes the part count with the
    option 0 is the ceiling of the size over 32 MiB, and at least 1. The
    part count never fails by a division by zero, for no size and no value
    of the option; with the option 0 it is what it is with 32; and [main]
    called with the option 0 does in every world and environment what it
    does with the option 32. *)
Theorem split_zero_is_32 (size : Z) :
  0 < size < 2 ^ 53 →
  effective_split 0 = 32 ∧
  compute_num_parts size 0
  = Ok (Z.max 1 (Planner.ceil_div size (32 * 1024 * 1024))) ∧
  (∀ size' split, compute_num_parts size' split ≠ Raise ZeroDivisionError) ∧
  (∀ size', compute_num_parts size' 0 = compute_num_parts size' 32) ∧
  (∀ urlsplit E o w,
     main urlsplit E (with_split o 0) w = main urlsplit E (with_split o 32) w).
Proof.
  intros Hsize. split; [reflexivity|]. split; [|split; [|split]].
  - rewrite compute_num_parts_exact by lia. do 2 f_equal.
  - apply compute_num_parts_divides.
  - reflexivity.
  - reflexivity.
Qed.

Lemma split_zero_is_32_witness :
  effective_split 0 = 32 ∧
  compute_num_parts (100 * 1024 * 1024) 0
  = Ok (Z.max 1 (Planner.ceil_div (100 * 1024 * 1024) (32 * 1024 * 1024))) ∧
  (∀ size' split, compute_num_parts size' split ≠ Raise ZeroDivisionError) ∧
  (∀ size', compute_num_parts size' 0 = compute_num_parts size' 32) ∧
  (∀ urlsplit E o w,
     main urlsplit E (with_split o 0) w = main urlsplit E (with_split o 32) w).
Proof. apply (split_zero_is_32 (100 * 1024 * 1024)). lia. Defined.

(** With the option 0, an object of 100 MiB is cut into 4 parts, as with 32;
    a split too large for a float is an overflow, not a division by zero. *)
Lemma split_zero_example :
  compute_num_parts (100 * 1024 * 1024) 0 = Ok 4 ∧
  compute_num_parts (100 * 1024 * 1024) 32 = Ok 4 ∧
  compute_num_parts (100 * 1024 * 1024) (10 ^ 400) = Raise OverflowError.
Proof. repeat split; by vm_compute. Qed.

(** *** The coordinator and the stop event *)

Section CoordinatorPreserves.
Context (R : relation world) `{!PreOrder R}.
Context (Hwhich : R = extends_quietly ∨ R = flag_kept).

Lemma preserved_run_chunk E tasks : preserved R (run_chunk E tasks).
Proof.
  pose proof (WorkerFacts.preserved_do_part_download R Hwhich E).
  induction tasks as [|t rest IH]; simpl; destruct Hwhich as [-> | ->]; preserved.
Qed.

Lemma preserved_run_chunks E chunks : ∀ first, preserved R (run_chunks E chunks first).
Proof.
  pose proof (preserved_run_chunk E).
  induction chunks as [|c rest IH]; intros first; simpl;
    destruct Hwhich as [-> | ->]; preserved.
Qed.

Lemma preserved_map_async_get E processes tasks :
  preserved R (map_async_get E processes tasks).
Proof.
  unfold map_async_get. pose proof (preserved_run_chunks E).
  destruct Hwhich as [-> | ->]; preserved.
Qed.

(** The steps of the coordinator once the stop event exists. *)
Lemma preserved_parallel_body E o bucket_name key_name dest size split num_parts :
  preserved R (parallel_body E o bucket_name key_name dest size split num_parts).
Proof.
  unfold parallel_body. pose proof (preserved_map_async_get E).
  destruct Hwhich as [-> | ->]; preserved.
Qed.

Lemma preserved_on_keyboard_interrupt o dest has_pool :
  preserved R (on_keyboard_interrupt o dest has_pool).
Proof.
  unfold on_keyboard_interrupt. pose proof (preserved_os_remove R Hwhich).
  destruct Hwhich as [-> | ->]; preserved.
Qed.

Lemma preserved_on_exception has_pool : preserved R (on_exception has_pool).
Proof. unfold on_exception. destruct Hwhich as [-> | ->]; preserved. Qed.

End CoordinatorPreserves.

Lemma quiet_main urlsplit E o : preserved extends_quietly (main urlsplit E o).
Proof.
  unfold main, check_destination, Worker.new_client, query_size, download_file,
    download_parallel.
  pose proof (preserved_parallel_body extends_quietly (or_introl eq_refl) E o).
  pose proof (preserved_on_keyboard_interrupt extends_quietly (or_introl eq_refl) o).
  pose proof (preserved_on_exception extends_quietly (or_introl eq_refl)).
  pose proof (preserved_os_create extends_quietly (or_introl eq_refl)).
  pose proof (preserved_os_remove extends_quietly (or_introl eq_refl)).
  preserved.
Qed.

End CoordinatorFacts.

(** ** The stop event *)

Module StopEventFacts.
Import StopEvent Preserved.

Lemma preserved_new_events {A} (m : M A) w :
  preserved extends_quietly m → Forall no_clear (new_events w (m w)).
Proof.
  intros Hm. destruct (Hm w) as (evs & Ht & Hevs).
  unfold new_events. by rewrite Ht, drop_app_length.
Qed.

(** No actor calls [clear()]. *)
Lemma actor_run_no_clear tr : actor_run tr → Forall no_clear tr.
Proof.
  intros [E t w | E total_size rounds w | urlsplit E o w]; apply preserved_new_events.
  - apply (WorkerFacts.preserved_do_part_download extends_quietly (or_introl eq_refl)).
  - apply (MonitorFacts.preserved_progress_monitor extends_quietly (or_introl eq_refl)).
  - apply CoordinatorFacts.quiet_main.
Qed.

Lemma interleaves_Forall {A} (P : A → Prop) runs tr :
  interleaves runs tr → Forall (Forall P) runs → Forall P tr.
Proof.
  induction 1 as [runs Hnil | runs i x r tr Hi Hrest IH]; intros Hruns; [done|].
  pose proof (Forall_lookup_1 _ _ _ _ Hruns Hi) as Hxr.
  inversion Hxr as [|? ? Hx Hr]; subst. constructor; [done|].
  apply IH. by apply Forall_insert.
Qed.

Lemma interleaves_one {A} (r : list A) : interleaves [r] r.
Proof.
  induction r as [|x r IH].
  - apply interleaves_done. by repeat constructor.
  - by apply (interleaves_step [x :: r] 0 x r r).
Qed.

(** One run after the other is an interleaving of the two. *)
Lemma interleaves_app {A} (r1 r2 : list A) : interleaves [r1; r2] (r1 ++ r2).
Proof.
  induction r1 as [|x r1 IH]; simpl.
  - induction r2 as [|y r2 IH].
    + apply interleaves_done. by repeat constructor.
    + by apply (interleaves_step [[]; y :: r2] 1 y r2 r2).
  - by apply (interleaves_step [x :: r1; r2] 0 x r1 (r1 ++ r2)).
Qed.

Lemma stop_ops_no_clear tr :
  Forall no_clear tr → Forall (λ op, op ≠ OpClear) (stop_ops tr).
Proof.
  unfold stop_ops. induction 1 as [|ev tr Hev Htr IH]; simpl; [done|].
  destruct ev; try done. constructor; [|done]. intros ->. by apply Hev.
Qed.

(** Without [clear()], a set flag stays set. *)
Lemma flag_history_set ops :
  Forall (λ op, op ≠ OpClear) ops →
  rises (flag_history true ops) = 0%nat ∧ falls (flag_history true ops) = 0%nat.
Proof.
  induction 1 as [|op ops Hop Hops IH]; [done|].
  assert (flag_after true op = true) as Hafter by (by destruct op).
  simpl. rewrite Hafter. destruct ops; simpl in *; [done|]. done.
Qed.

(** Without [clear()], the flag rises at most once and never falls. *)
Lemma flag_history_monotone b ops :
  Forall (λ op, op ≠ OpClear) ops →
  (rises (flag_history b ops) ≤ 1)%nat ∧ falls (flag_history b ops) = 0%nat.
Proof.
  intros Hops. revert b. induction Hops as [|op ops Hop Hops IH]; intros b; [simpl; lia|].
  destruct b.
  { destruct (flag_history_set (op :: ops)) as [-> ->]; [by constructor | lia]. }
  destruct (flag_after false op) eqn:Hafter.
  - destruct (flag_history_set ops Hops) as [Hr Hf].
    change (flag_history false (op :: ops))
      with (false :: flag_history (flag_after false op) ops).
    rewrite Hafter. destruct ops; simpl in *; lia.
  - specialize (IH false).
    change (flag_history false (op :: ops))
      with (false :: flag_history (flag_after false op) ops).
    rewrite Hafter. destruct ops; simpl in *; lia.
Qed.

(** C9. Take any runs of workers, of the monitor and of the coordinator, in
    any worlds and environments, and any interleaving of their calls. The
    calls on the stop event are [is_set()] and [set()] only, never
    [clear()]; so, from whatever value the flag starts, it never goes from
    true to false and goes from false to true at most once. *)
Theorem stop_event_monotone (runs : list (list event)) (tr : list event) (b : bool) :
  Forall actor_run runs →
  interleaves runs tr →
  Forall (λ op, op ≠ OpClear) (stop_ops tr) ∧
  falls (flag_history b (stop_ops tr)) = 0%nat ∧
  (rises (flag_history b (stop_ops tr)) ≤ 1)%nat.
Proof.
  intros Hruns Hmerge.
  assert (Forall (λ op, op ≠ OpClear) (stop_ops tr)) as Hops.
  { apply stop_ops_no_clear, (interleaves_Forall _ runs); [done|].
    eapply Forall_impl; [exact Hruns|]. apply actor_run_no_clear. }
  split; [done|]. destruct (flag_history_monotone b _ Hops). done.
Qed.

Lemma stop_event_monotone_witness :
  let worker := new_events Examples.ready_world
                  (Worker.do_part_download (Examples.remote (HeadOk 2) Examples.flaky)
                     Examples.part Examples.ready_world) in
  let monitor := new_events Examples.empty_world
                   (Monitor.progress_monitor Examples.keyboard 2 5 Examples.empty_world) in
  Forall (λ op, op ≠ OpClear) (stop_ops (worker ++ monitor)) ∧
  falls (flag_history false (stop_ops (worker ++ monitor))) = 0%nat ∧
  (rises (flag_history false (stop_ops (worker ++ monitor))) ≤ 1)%nat.
Proof.
  apply (stop_event_monotone
           [new_events Examples.ready_world
              (Worker.do_part_download (Examples.remote (HeadOk 2) Examples.flaky)
                 Examples.part Examples.ready_world);
            new_events Examples.empty_world
              (Monitor.progress_monitor Examples.keyboard 2 5 Examples.empty_world)]).
  - constructor; [apply worker_run|]. constructor; [apply monitor_run|]. constructor.
  - apply interleaves_app.
Defined.

(** The monitor of the example does set the flag, on the key q. *)
Lemma monitor_example_sets :
  stop_ops (new_events Examples.empty_world
              (Monitor.progress_monitor Examples.keyboard 2 5 Examples.empty_world))
  = [OpIsSet; OpIsSet; OpSet].
Proof. vm_compute. reflexivity. Qed.

(** In the worlds of the model too: a worker, the monitor and the steps of
    the coordinator that follow the creation of the event leave a set flag
    set. *)
Lemma flag_stays_set :
  (∀ E t, preserved flag_kept (Worker.do_part_download E t)) ∧
  (∀ E total_size rounds, preserved flag_kept (Monitor.progress_monitor E total_size rounds)) ∧
  (∀ E o bucket_name key_name dest size split num_parts,
     preserved flag_kept
       (Coordinator.parallel_body E o bucket_name key_name dest size split num_parts)) ∧
  (∀ o dest has_pool,
     preserved flag_kept (Coordinator.on_keyboard_interrupt o dest has_pool)) ∧
  (∀ has_pool, preserved flag_kept (Coordinator.on_exception has_pool)).
Proof.
  split; [|split; [|split; [|split]]]; intros.
  - apply (WorkerFacts.preserved_do_part_download flag_kept (or_intror eq_refl)).
  - apply (MonitorFacts.preserved_progress_monitor flag_kept (or_intror eq_refl)).
  - apply (CoordinatorFacts.preserved_parallel_body flag_kept (or_intror eq_refl)).
  - apply (CoordinatorFacts.preserved_on_keyboard_interrupt flag_kept (or_intror eq_refl)).
  - apply (CoordinatorFacts.preserved_on_exception flag_kept (or_intror eq_refl)).
Qed.

End StopEventFacts.

(** ** Formatter *)

Module FormatFacts.
Import Float FloatFacts Format.

Local Arguments Float.of_int : simpl never.
Local Arguments Float.int_truediv : simpl never.
Local Arguments Float.div_int : simpl never.

Lemma power_of_pos k : (0 < power_of k)%Q.
Proof.
  induction k as [|k IH]; simpl; [reflexivity|].
  apply Qmult_lt_0_compat; [reflexivity | done].
Qed.

Lemma power_of_pow2 k : (power_of k == pow2 (10 * Z.of_nat k))%Q.
Proof.
  induction k as [|k IH]; [reflexivity|].
  change (power_of (S k)) with (inject_Z power * power_of k)%Q. rewrite IH.
  replace (10 * Z.of_nat (S k)) with (10 + 10 * Z.of_nat k) by lia.
  rewrite pow2_add. apply Qmult_comp; [by vm_compute | reflexivity].
Qed.

Lemma exceeds_power_true size :
  exceeds_power size = true ↔ (inject_Z power < value size)%Q.
Proof.
  unfold exceeds_power. rewrite negb_true_iff, <-not_true_iff_false, Qle_bool_iff.
  split; [apply Qnot_le_lt | apply Qlt_not_le].
Qed.

Lemma exceeds_power_false size :
  exceeds_power size = false ↔ (value size <= inject_Z power)%Q.
Proof. unfold exceeds_power. by rewrite negb_false_iff, Qle_bool_iff. Qed.

(** A size that does not exceed the power leaves the loop at once. *)
Lemma scale_loop_small fuel size n :
  (value size <= inject_Z power)%Q → scale_loop fuel size n = Ok (size, n).
Proof.
  intros Hle%exceeds_power_false. destruct fuel; simpl; by rewrite Hle.
Qed.

Lemma scale_loop_large fuel size n y :
  (inject_Z power < value size)%Q → over_power size = Ok y →
  scale_loop (S fuel) size n = scale_loop fuel (Flt y) (S n).
Proof.
  intros Hlt%exceeds_power_true Hy. simpl. by rewrite Hlt, Hy.
Qed.

(** *** One division *)

(** The float of the power is the power. *)
Lemma power_float : of_int power = Ok (b64 (inject_Z power)).
Proof. by vm_compute. Qed.

Lemma b64_pow2 (e : Z) : emin - 52 ≤ e → (b64 (pow2 e) == pow2 e)%Q.
Proof.
  intros He. pose proof (b64_scaled 1 e ltac:(lia) He) as H.
  by rewrite Qmult_1_l in H.
Qed.

Lemma over_power_float (x : Q) :
  ∃ y, over_power (Flt x) = Ok y ∧ (y == b64 (x / inject_Z power))%Q.
Proof.
  exists (b64 (x / b64 (inject_Z power))). split.
  - apply div_int_run; [apply power_float | done].
  - apply b64_comp. by rewrite (b64_int power).
Qed.

Lemma over_power_int (k : Z) :
  0 < k < 2 ^ 1024 →
  ∃ y, over_power (Int k) = Ok y ∧ (y == b64 (inject_Z k / inject_Z power))%Q.
Proof.
  intros Hk. eexists. split; [|reflexivity].
  unfold over_power, int_truediv. rewrite decide_False by done.
  assert (0 <= inject_Z k / inject_Z power)%Q as Hnonneg.
  { apply Qle_shift_div_l; [reflexivity|]. rewrite Qmult_0_l.
    change 0%Q with (inject_Z 0). rewrite <-Zle_Qle. lia. }
  assert (inject_Z k / inject_Z power <= pow2 1014)%Q as Hle.
  { apply Qle_shift_div_r; [reflexivity|].
    assert (pow2 1014 * inject_Z power == inject_Z (2 ^ 1024))%Q as -> by (by vm_compute).
    rewrite <-Zle_Qle. lia. }
  pose proof (b64_nonneg _ Hnonneg) as H0.
  pose proof (b64_mono _ _ Hle) as H1.
  rewrite b64_pow2 in H1 by (unfold emin; lia).
  unfold finite. rewrite (proj2 (Qle_bool_iff _ _)); [done|].
  rewrite Qabs_pos by done. apply Qle_trans with (pow2 1014); [done | by vm_compute].
Qed.

(** A division takes ten bits off the size. *)
Lemma rounds_quotient (x y : Q) :
  (inject_Z power < x)%Q → (y == b64 (x / inject_Z power))%Q →
  (rounds (Flt y) < rounds (Flt x))%nat ∧ (1 <= y)%Q.
Proof.
  intros Hx Hy. unfold rounds. simpl value.
  set (L := Z.log2_up (Qceiling x)).
  assert (inject_Z power < inject_Z (Qceiling x))%Q as Hc
    by (eapply Qlt_le_trans; [exact Hx | apply Qle_ceiling]).
  rewrite <-Zlt_Qlt in Hc. unfold power in Hc.
  assert (10 < L) as HL by (unfold L; apply Z.log2_up_lt_pow2; [lia | exact Hc]).
  assert (Qceiling x ≤ 2 ^ L) as Hpow by (apply Z.log2_up_le_pow2; [lia | done]).
  assert (x / inject_Z power <= pow2 (L - 10))%Q as Hq.
  { apply Qle_shift_div_r; [reflexivity|].
    assert (pow2 (L - 10) * inject_Z power == pow2 L)%Q as ->.
    { replace L with ((L - 10) + 10) at 2 by lia. rewrite pow2_add.
      apply Qmult_comp; [reflexivity | by vm_compute]. }
    rewrite pow2_inject by lia.
    apply Qle_trans with (inject_Z (Qceiling x)); [apply Qle_ceiling|].
    by rewrite <-Zle_Qle. }
  assert (1 <= x / inject_Z power)%Q as Hone.
  { apply Qle_shift_div_l; [reflexivity|]. rewrite Qmult_1_l. by apply Qlt_le_weak. }
  pose proof (b64_mono _ _ Hq) as Hhi.
  rewrite b64_pow2, <-Hy in Hhi by (unfold emin; lia).
  pose proof (b64_mono _ _ Hone) as Hlo.
  rewrite (b64_int 1), <-Hy in Hlo by lia.
  split; [|exact Hlo].
  assert (0 < Qceiling y) as Hpos.
  { rewrite Zlt_Qlt. apply Qlt_le_trans with y; [|apply Qle_ceiling].
    apply Qlt_le_trans with 1%Q; [reflexivity | exact Hlo]. }
  assert (Qceiling y ≤ 2 ^ (L - 10)) as Hcy.
  { rewrite <-(Qceiling_Z (2 ^ (L - 10))). apply Qceiling_resp_le.
    by rewrite <-pow2_inject by lia. }
  assert (Z.log2_up (Qceiling y) ≤ L - 10) by (by apply Z.log2_up_le_pow2).
  pose proof (Z.log2_up_nonneg (Qceiling y)). lia.
Qed.

(** A float of at most 53 bits that exceeds the power is divided exactly. *)
Lemma over_power_exact (x : Q) (m s : Z) :
  0 < m < 2 ^ 53 → (x == inject_Z m * pow2 s)%Q → (inject_Z power < x)%Q →
  (b64 (x / inject_Z power) == inject_Z m * pow2 (s - 10))%Q ∧
  (inject_Z m * pow2 (s - 10) == x / inject_Z power)%Q.
Proof.
  intros Hm Hx Hlt.
  assert (x / inject_Z power == inject_Z m * pow2 (s - 10))%Q as Hq.
  { rewrite Hx. unfold Z.sub. rewrite pow2_add. unfold Qdiv. rewrite <-Qmult_assoc.
    apply Qmult_comp; [reflexivity|]. apply Qmult_comp; [reflexivity | by vm_compute]. }
  split; [|by rewrite Hq]. rewrite Hq. apply b64_scaled; [done|].
  destruct (decide (- 43 < s)) as [|Hs]; [unfold emin; lia|]. exfalso.
  assert (0 < inject_Z m)%Q as Hm0
    by (change 0%Q with (inject_Z 0); rewrite <-Zlt_Qlt; lia).
  assert (inject_Z m <= inject_Z (2 ^ 53))%Q as Hm1 by (rewrite <-Zle_Qle; lia).
  pose proof (pow2_le s (- 43) ltac:(lia)) as Hp. pose proof (pow2_pos s) as Hp0.
  assert (inject_Z m * pow2 s <= inject_Z (2 ^ 53) * pow2 (- 43))%Q as Hle.
  { apply Qle_trans with (inject_Z m * pow2 (- 43))%Q.
    - apply Qmult_le_l; done.
    - apply Qmult_le_r; [apply pow2_pos | done]. }
  assert (inject_Z (2 ^ 53) * pow2 (- 43) == inject_Z power)%Q as Heq by (by vm_compute).
  rewrite Heq, <-Hx in Hle. by apply Qle_not_lt in Hle.
Qed.

Lemma pow2_power (j : nat) :
  (pow2 (10 * Z.of_nat j + 1) * inject_Z power == pow2 (10 * Z.of_nat (S j) + 1))%Q.
Proof.
  replace (10 * Z.of_nat (S j) + 1) with ((10 * Z.of_nat j + 1) + 10) by lia.
  rewrite (pow2_add (10 * Z.of_nat j + 1) 10).
  apply Qmult_comp; [reflexivity | by vm_compute].
Qed.

(** *** The loop *)

(** With the fuel of [scale] the loop is left because the size no longer
    exceeds the power: from a float it returns after [k] divisions, each
    rounded to binary64, with a float of at most 1024. There are at least
    [j] divisions for a size of [2 ^ (10 * j + 1)] or more; and for a float
    of at most 53 bits no division rounds. *)
Lemma scale_loop_leaves fuel : ∀ x n,
  (rounds (Flt x) ≤ fuel)%nat →
  ∃ k v, scale_loop fuel (Flt x) n = Ok (Flt v, (n + k)%nat) ∧
         (v <= inject_Z power)%Q ∧ (k = 0%nat → v = x) ∧
         (∀ j : nat, (pow2 (10 * Z.of_nat j + 1) <= x)%Q → (j ≤ k)%nat) ∧
         (∀ m s, 0 < m < 2 ^ 53 → (x == inject_Z m * pow2 s)%Q →
                 (v * power_of k == x)%Q ∧ ((0 < k)%nat → (1 < v)%Q)).
Proof.
  assert (∀ x n fuel', exceeds_power (Flt x) = false →
            ∃ k v, scale_loop fuel' (Flt x) n = Ok (Flt v, (n + k)%nat) ∧
              (v <= inject_Z power)%Q ∧ (k = 0%nat → v = x) ∧
              (∀ j : nat, (pow2 (10 * Z.of_nat j + 1) <= x)%Q → (j ≤ k)%nat) ∧
              (∀ m s, 0 < m < 2 ^ 53 → (x == inject_Z m * pow2 s)%Q →
                      (v * power_of k == x)%Q ∧ ((0 < k)%nat → (1 < v)%Q))) as Hsmall.
  { intros x n fuel' Hx%exceeds_power_false. exists 0%nat, x.
    rewrite scale_loop_small, Nat.add_0_r by done. split; [done|]. split; [done|].
    split; [done|]. split.
    - intros j Hj. destruct j as [|j]; [lia|]. exfalso. simpl value in Hx.
      pose proof (pow2_lt 10 (10 * Z.of_nat (S j) + 1) ltac:(lia)) as Hp.
      assert (pow2 10 == inject_Z power)%Q as Heq by (by vm_compute).
      rewrite Heq in Hp. apply (Qlt_irrefl (inject_Z power)).
      eapply Qlt_le_trans; [exact Hp|]. by apply Qle_trans with x.
    - intros m s _ _. split; [simpl; ring | lia]. }
  induction fuel as [|fuel IH]; intros x n Hfuel;
    destruct (exceeds_power (Flt x)) eqn:Hx; try by apply Hsmall.
  - apply exceeds_power_true in Hx. simpl in Hx.
    destruct (over_power_float x) as (y & _ & Hy).
    pose proof (rounds_quotient x y Hx Hy). lia.
  - apply exceeds_power_true in Hx.
    destruct (over_power_float x) as (y & Hrun & Hy).
    rewrite (scale_loop_large fuel (Flt x) n y Hx Hrun). simpl in Hx.
    destruct (rounds_quotient x y Hx Hy) as [Hless Hone].
    destruct (IH y (S n) ltac:(lia)) as (k & v & Hloop & Hv & Hk0 & Hcount & Hexact).
    exists (S k), v. rewrite Hloop. replace (n + S k)%nat with (S n + k)%nat by lia.
    split; [done|]. split; [done|]. split; [lia|]. split.
    + intros j Hj. destruct j as [|j]; [lia|].
      apply le_n_S, Hcount. rewrite Hy.
      rewrite <-(b64_pow2 (10 * Z.of_nat j + 1)) by (unfold emin; lia).
      apply b64_mono. apply Qle_shift_div_l; [reflexivity|].
      by rewrite pow2_power.
    + intros m s Hm Hrep.
      destruct (over_power_exact x m s Hm Hrep Hx) as [Hq Hq'].
      assert (y == inject_Z m * pow2 (s - 10))%Q as Hyrep by (by rewrite Hy).
      destruct (Hexact m (s - 10) Hm Hyrep) as [Hprod Hstrict].
      assert (y == x / inject_Z power)%Q as Hyx by (by rewrite Hyrep).
      assert (1 < y)%Q as Hy1.
      { rewrite Hyx. apply Qlt_shift_div_l; [reflexivity|]. by rewrite Qmult_1_l. }
      split.
      * change (power_of (S k)) with (inject_Z power * power_of k)%Q.
        rewrite (Qmult_comm (inject_Z power)), Qmult_assoc, Hprod, Hyx.
        field. by vm_compute.
      * intros _. destruct k as [|k]; [by rewrite Hk0 | apply Hstrict; lia].
Qed.

(** The loop from an int. *)
Lemma scale_int (size : Z) :
  size < 2 ^ 1024 →
  ∃ k v, scale (Int size) = Ok (v, k) ∧
         (value v <= inject_Z power)%Q ∧
         (k = 0%nat → v = Int size) ∧
         ((0 < k)%nat → ∃ x, v = Flt x) ∧
         (∀ j : nat, (pow2 (10 * Z.of_nat j + 1) <= inject_Z size)%Q → (j ≤ k)%nat) ∧
         (size < 2 ^ 53 →
          (value v * power_of k == inject_Z size)%Q ∧ ((0 < k)%nat → (1 < value v)%Q)).
Proof.
  intros Hsize. unfold scale.
  destruct (exceeds_power (Int size)) eqn:Hx.
  - apply exceeds_power_true in Hx.
    assert (power < size) as Hlt by (by rewrite Zlt_Qlt). unfold power in Hlt.
    destruct (over_power_int size ltac:(lia)) as (y & Hrun & Hy).
    destruct (rounds_quotient (inject_Z size) y Hx Hy) as [Hless Hone].
    change (rounds (Flt (inject_Z size))) with (rounds (Int size)) in Hless.
    destruct (rounds (Int size)) as [|fuel]; [lia|].
    rewrite (scale_loop_large fuel (Int size) 0 y Hx Hrun).
    destruct (scale_loop_leaves fuel y 1 ltac:(lia))
      as (k & v & Hloop & Hv & Hk0 & Hcount & Hexact).
    exists (S k), (Flt v). rewrite Hloop. split; [done|]. split; [done|].
    split; [lia|]. split; [by eexists|]. split.
    + intros j Hj. destruct j as [|j]; [lia|].
      apply le_n_S, Hcount. rewrite Hy.
      rewrite <-(b64_pow2 (10 * Z.of_nat j + 1)) by (unfold emin; lia).
      apply b64_mono. apply Qle_shift_div_l; [reflexivity|].
      by rewrite pow2_power.
    + intros Hbound.
      assert (inject_Z size == inject_Z size * pow2 0)%Q as Hrep
        by (change (pow2 0) with 1%Q; ring).
      destruct (over_power_exact (inject_Z size) size 0 ltac:(lia) Hrep Hx) as [Hq Hq'].
      assert (y == inject_Z size * pow2 (0 - 10))%Q as Hyrep by (by rewrite Hy).
      destruct (Hexact size (0 - 10) ltac:(lia) Hyrep) as [Hprod Hstrict].
      assert (y == inject_Z size / inject_Z power)%Q as Hyx by (by rewrite Hyrep).
      assert (1 < y)%Q as Hy1.
      { rewrite Hyx. apply Qlt_shift_div_l; [reflexivity|]. by rewrite Qmult_1_l. }
      split.
      * simpl value. change (power_of (S k)) with (inject_Z power * power_of k)%Q.
        rewrite (Qmult_comm (inject_Z power)), Qmult_assoc, Hprod, Hyx.
        field. by vm_compute.
      * intros _. simpl value. destruct k as [|k]; [by rewrite Hk0 | apply Hstrict; lia].
  - pose proof Hx as Hle%exceeds_power_false.
    exists 0%nat, (Int size). rewrite scale_loop_small by done.
    split; [done|]. split; [done|]. split; [done|]. split; [lia|]. split.
    + intros j Hj. destruct j as [|j]; [lia|]. exfalso. simpl value in Hle.
      pose proof (pow2_lt 10 (10 * Z.of_nat (S j) + 1) ltac:(lia)) as Hp.
      assert (pow2 10 == inject_Z power)%Q as Heq by (by vm_compute).
      rewrite Heq in Hp. apply (Qlt_irrefl (inject_Z power)).
      eapply Qlt_le_trans; [exact Hp|]. by apply Qle_trans with (inject_Z size).
    + intros _. split; [simpl; ring | lia].
Qed.

(** *** The text *)

Global Instance two_decimals_comp : Proper (Qeq ==> eq) two_decimals.
Proof.
  intros x y Hxy. unfold two_decimals.
  assert (round_half_even (x * 100) = round_half_even (y * 100)) as ->
    by (apply round_half_even_comp; by rewrite Hxy).
  assert (Qle_bool 0 x = Qle_bool 0 y) as -> by (by rewrite Hxy).
  done.
Qed.

(** No letter from the fifth division on. *)
Lemma power_labels_past k : (5 ≤ k)%nat → power_labels k = "".
Proof. intros Hk. do 5 (destruct k as [|k]; [lia|]). done. Qed.

(** The number of divisions of a size between two powers. *)
Lemma power_of_rounds (x v : Q) (j k : nat) :
  (v * power_of j == x)%Q → (v <= inject_Z power)%Q → ((0 < j)%nat → (1 < v)%Q) →
  (power_of k < x)%Q → (x <= power_of (S k))%Q → j = k.
Proof.
  intros Hprod Hv Hone Hlo Hhi.
  rewrite <-Hprod in Hlo, Hhi. rewrite !power_of_pow2 in *.
  assert (pow2 10 == inject_Z power)%Q as Hten by (by vm_compute).
  rewrite <-Hten in Hv.
  destruct (decide (j < k)%nat) as [Hlt|].
  { exfalso. apply (Qlt_irrefl (pow2 (10 * Z.of_nat k))).
    eapply Qlt_le_trans; [exact Hlo|].
    apply Qle_trans with (pow2 10 * pow2 (10 * Z.of_nat j))%Q.
    - apply Qmult_le_r; [apply pow2_pos | done].
    - rewrite <-pow2_add. apply pow2_le. lia. }
  destruct (decide (k < j)%nat) as [Hgt|]; [|lia].
  exfalso. specialize (Hone ltac:(lia)).
  apply (Qlt_irrefl (v * pow2 (10 * Z.of_nat j))).
  eapply Qle_lt_trans; [exact Hhi|].
  apply Qle_lt_trans with (1 * pow2 (10 * Z.of_nat j))%Q.
  - rewrite Qmult_1_l. apply pow2_le. lia.
  - apply Qmult_lt_r; [apply pow2_pos | done].
Qed.


(** X1. For an int between -2^53 and 2^53, [format_bytes] divides by 1024
    until the number is at most 1024, without rounding: the number it prints
    times [1024 ^ k] is the size, where [k] is the number of divisions, and
    it is above 1 once there was a division. The text is that number with
    two decimals, a space, and the unit of [k] divisions: B, KB, MB, GB, TB,
    and B again from the fifth division on. *)
Theorem format_bytes_scaled (size : Z) :
  - 2 ^ 53 < size < 2 ^ 53 →
  ∃ (k : nat) (v : Q),
    (v * power_of k == inject_Z size)%Q ∧
    (v <= 1024)%Q ∧
    (k = 0%nat ∨ (1 < v)%Q) ∧
    format_bytes (Int size) = Ok (two_decimals v +:+ " " +:+ power_labels k +:+ "B").
Proof.
  intros Hsize.
  destruct (scale_int size ltac:(lia)) as (k & v & Hscale & Hv & Hk0 & Hk & _ & Hexact).
  destruct (Hexact ltac:(lia)) as [Hprod Hone].
  exists k, (value v). split; [done|]. split; [done|].
  split; [destruct k; [by left | right; apply Hone; lia]|].
  unfold format_bytes. rewrite Hscale. simpl.
  destruct k as [|k].
  - rewrite Hk0 by done. simpl.
    destruct (of_int_exact size ltac:(lia)) as (x & -> & Hx). simpl. by rewrite Hx.
  - destruct (Hk ltac:(lia)) as [x ->]. done.
Qed.

(** X2. The unit. For an int below 2^53 that is above [1024 ^ k] and at most
    [1024 ^ (k + 1)], [format_bytes] prints the size divided by [1024 ^ k],
    with two decimals, and the unit of [k] divisions. *)
Theorem format_bytes_unit (size : Z) (k : nat) :
  size < 2 ^ 53 →
  (power_of k < inject_Z size)%Q → (inject_Z size <= power_of (S k))%Q →
  format_bytes (Int size)
  = Ok (two_decimals (inject_Z size / power_of k) +:+ " " +:+ power_labels k +:+ "B").
Proof.
  intros Hsize Hlo Hhi.
  destruct (scale_int size ltac:(lia)) as (j & v & Hscale & Hv & Hk0 & Hk & _ & Hexact).
  destruct (Hexact Hsize) as [Hprod Hone].
  assert (j = k) as -> by (by eapply power_of_rounds).
  pose proof (power_of_pos k) as Hpos.
  assert (value v == inject_Z size / power_of k)%Q as Hvalue.
  { rewrite <-Hprod. field. intros Hz. rewrite Hz in Hpos. by apply Qlt_irrefl in Hpos. }
  assert (0 < size) as Hsize0.
  { rewrite Zlt_Qlt. eapply Qlt_trans; [|exact Hlo]. apply power_of_pos. }
  unfold format_bytes. rewrite Hscale. simpl.
  destruct k as [|k].
  - rewrite Hk0 in * by done. simpl.
    destruct (of_int_exact size ltac:(lia)) as (x & -> & Hx). simpl.
    by rewrite Hx, <-Hvalue.
  - destruct (Hk ltac:(lia)) as [x ->]. simpl in *. by rewrite Hvalue.
Qed.

(** X3. Past the terabytes there is no letter: for every int above
    [1024 ^ 5] and below 2^1024, [format_bytes] divides five times or more,
    with or without rounding, and prints a number of at most 1024 with the
    unit B. *)
Theorem format_bytes_no_label (size : Z) :
  1024 ^ 5 < size < 2 ^ 1024 →
  ∃ (k : nat) (v : Q),
    scale (Int size) = Ok (Flt v, k) ∧
    (5 ≤ k)%nat ∧
    (v <= 1024)%Q ∧
    format_bytes (Int size) = Ok (two_decimals v +:+ " B").
Proof.
  intros Hsize.
  destruct (scale_int size ltac:(lia)) as (k & v & Hscale & Hv & Hk0 & Hk & Hcount & Hexact).
  assert (5 ≤ k)%nat as Hfive.
  { destruct (decide (size < 2 ^ 53)) as [Hsmall | Hlarge].
    - destruct (Hexact Hsmall) as [Hprod _].
      destruct (decide (5 ≤ k)%nat) as [|Hfew]; [done|]. exfalso.
      assert (inject_Z (1024 ^ 5) < inject_Z size)%Q as Hlt by (rewrite <-Zlt_Qlt; lia).
      rewrite <-Hprod, power_of_pow2 in Hlt.
      assert (pow2 10 == inject_Z power)%Q as Hten by (by vm_compute).
      rewrite <-Hten in Hv.
      apply (Qlt_irrefl (inject_Z (1024 ^ 5))). eapply Qlt_le_trans; [exact Hlt|].
      apply Qle_trans with (pow2 10 * pow2 (10 * Z.of_nat k))%Q.
      + apply Qmult_le_r; [apply pow2_pos | done].
      + rewrite <-pow2_add. assert (inject_Z (1024 ^ 5) == pow2 50)%Q as -> by (by vm_compute).
        apply pow2_le. lia.
    - apply Hcount. assert (pow2 (10 * Z.of_nat 5 + 1) == inject_Z (2 ^ 51))%Q as ->
        by (by vm_compute).
      rewrite <-Zle_Qle. lia. }
  destruct (Hk ltac:(lia)) as [x ->]. exists k, x.
  split; [done|]. split; [done|]. split; [done|].
  unfold format_bytes. rewrite Hscale. simpl. by rewrite power_labels_past.
Qed.

Lemma format_bytes_scaled_witness :
  ∃ (k : nat) (v : Q),
    (v * power_of k == inject_Z 1536)%Q ∧
    (v <= 1024)%Q ∧
    (k = 0%nat ∨ (1 < v)%Q) ∧
    format_bytes (Int 1536) = Ok (two_decimals v +:+ " " +:+ power_labels k +:+ "B").
Proof. apply (format_bytes_scaled 1536). lia. Defined.

Lemma format_bytes_unit_witness :
  format_bytes (Int 1536)
  = Ok (two_decimals (inject_Z 1536 / power_of 1) +:+ " " +:+ power_labels 1 +:+ "B").
Proof. apply (format_bytes_unit 1536 1); [lia | reflexivity | by vm_compute]. Defined.

Lemma format_bytes_no_label_witness :
  ∃ (k : nat) (v : Q),
    scale (Int (2 ^ 60 + 1)) = Ok (Flt v, k) ∧
    (5 ≤ k)%nat ∧
    (v <= 1024)%Q ∧
    format_bytes (Int (2 ^ 60 + 1)) = Ok (two_decimals v +:+ " B").
Proof. apply (format_bytes_no_label (2 ^ 60 + 1)). lia. Defined.

(** What is printed for 1536 bytes, for 1024 bytes, and for 2^60 + 1 bytes,
    where the first division rounds; an int too large for a float is an
    overflow. *)
Lemma format_bytes_examples :
  format_bytes (Int 1536) = Ok "1.50 KB" ∧
  format_bytes (Int 1024) = Ok "1024.00 B" ∧
  format_bytes (Int (2 ^ 60 + 1)) = Ok "1024.00 B" ∧
  format_bytes (Flt (5 # 2)) = Ok "2.50 B" ∧
  format_bytes (Int (10 ^ 400)) = Raise OverflowError.
Proof. repeat split; by vm_compute. Qed.

End FormatFacts.

(** ** Runs of a worker *)

Module CallsFacts.
Import Calls.

Lemma count_app p tr1 tr2 : count p (tr1 ++ tr2) = (count p tr1 + count p tr2)%nat.
Proof. induction tr1 as [|ev tr1 IH]; simpl; [done | rewrite IH; lia]. Qed.

End CallsFacts.

Module WorkerRunFacts.
Import Worker WorkerSpec Calls WorkerRun StopEvent Preserved WorkerFacts CallsFacts.

Lemma world_eta w :
  World (files w) (dirs w) (queue w) (stop w) (seen w) (trace w) = w.
Proof. by destruct w. Qed.

Lemma credit_app t c1 c2 : credit t (c1 ++ c2) = credit t c1 ++ credit t c2.
Proof. unfold credit, lengths. destruct (queue_on t); [apply fmap_app | done]. Qed.

Section Exact.
Context (E : env).

(** The chunk loop when the stop event is not seen set at any of its
    observations. *)
Lemma write_chunks_exact t broken chunks : ∀ fd w f,
  stop w = false →
  (∀ j, (j < length chunks)%nat → cancel_seen E (seen w + j) = false) →
  Forall (λ c, c ≠ []) chunks →
  files w !! fd_path fd = Some f →
  0 ≤ fd_pos fd →
  write_chunks E t fd chunks broken w
  = (match broken with Some e => Raise e | None => Ok () end,
     written t (fd_path fd) (fd_pos fd) f chunks w).
Proof.
  induction chunks as [|chunk rest IH]; intros fd w f Hstop Hquiet Hne Hf Hpos.
  - destruct w as [fs ds q st sn tr]. simpl in *. subst st.
    unfold written, credit, is_sets, write_at. simpl.
    rewrite insert_id by done.
    rewrite Nat.add_0_r. destruct (queue_on t); rewrite !app_nil_r; by destruct broken.
  - inversion Hne as [|? ? Hchunk Hrest]; subst.
    assert (cancel_seen E (seen w) = false) as Hfirst
      by (rewrite <-(Nat.add_0_r (seen w)); apply Hquiet; simpl; lia).
    simpl. run. rewrite Hstop, Hfirst. simpl.
    rewrite decide_False by done. unfold os_write. run.
    set (fs := alter (λ content, write_at content (fd_pos fd) chunk) (fd_path fd) (files w)).
    assert (fs !! fd_path fd = Some (write_at f (fd_pos fd) chunk)) as Hfs
      by (unfold fs; by rewrite lookup_alter_eq, Hf).
    unfold written, credit. destruct (queue_on t) eqn:Hq; simpl.
    + rewrite (IH (OpenFile (fd_path fd) (fd_pos fd + Z.of_nat (length chunk)))
                 (World fs (dirs w) (queue w ++ [Z.of_nat (length chunk)]) false
                        (S (seen w)) (trace w ++ [EvStop OpIsSet]))
                 (write_at f (fd_pos fd) chunk)); simpl; [ | done | | done | done | lia].
      * f_equal. unfold written, credit. rewrite Hq. simpl. f_equal.
        -- rewrite WorkerFacts.write_at_app by done. unfold fs. apply insert_alter_eq.
        -- by rewrite <-app_assoc.
        -- lia.
        -- by rewrite <-app_assoc.
      * intros j Hj. replace (S (seen w + j)) with (seen w + S j)%nat by lia.
        apply Hquiet. simpl. lia.
    + rewrite (IH (OpenFile (fd_path fd) (fd_pos fd + Z.of_nat (length chunk)))
                 (World fs (dirs w) (queue w) false
                        (S (seen w)) (trace w ++ [EvStop OpIsSet]))
                 (write_at f (fd_pos fd) chunk)); simpl; [ | done | | done | done | lia].
      * f_equal. unfold written, credit. rewrite Hq. simpl. f_equal.
        -- rewrite WorkerFacts.write_at_app by done. unfold fs. apply insert_alter_eq.
        -- lia.
        -- by rewrite <-app_assoc.
      * intros j Hj. replace (S (seen w + j)) with (seen w + S j)%nat by lia.
        apply Hquiet. simpl. lia.
Qed.


Lemma fetch_part_exact t fd w f :
  let r := get_reply E (min_byte t) (max_byte t) (current_tries t) in
  stop w = false →
  (∀ j, (j < length (delivered r))%nat → cancel_seen E (seen w + j) = false) →
  Forall (λ c, c ≠ []) (delivered r) →
  files w !! fd_path fd = Some f →
  0 ≤ fd_pos fd →
  fetch_part E t fd w
  = (fetched_outcome r,
     written t (fd_path fd) (fd_pos fd) f (delivered r) (logged w [request_of t])).
Proof.
  intros r Hstop Hquiet Hne Hf Hpos. unfold fetch_part, get_object. fold r. run.
  fold (request_of t). fold (logged w [request_of t]).
  destruct r as [e | chunks broken]; simpl in *.
  - destruct w as [fs ds q st sn tr]. simpl in *. subst st.
    unfold written, credit, logged, is_sets, write_at. simpl.
    rewrite insert_id by done. rewrite Nat.add_0_r.
    destruct (queue_on t); by rewrite !app_nil_r.
  - rewrite (write_chunks_exact t broken chunks fd (logged w [request_of t]) f);
      [by destruct broken | done | done | done | done | done].
Qed.

(** One attempt of the worker, from its first observation of the stop event
    to what it does with the outcome of the fetch. *)
Lemma do_part_download_attempt t w f :
  let r := get_reply E (min_byte t) (max_byte t) (current_tries t) in
  let n := length (delivered r) in
  stop w = false →
  (∀ j, (j ≤ n)%nat → cancel_seen E (seen w + j) = false) →
  Forall (λ c, c ≠ []) (delivered r) →
  files w !! fname t = Some f →
  0 ≤ min_byte t →
  do_part_download E t w =
    match fetched_outcome r with
    | Ok _ => (Ok (), fetched E t f w)
    | Raise err =>
        if is_Exception err then
          if cancel_seen E (seen w + S n) then (Ok (), observed true [] (fetched E t f w))
          else if decide (current_tries t > max_tries t)
               then (Raise err, observed false [] (fetched E t f w))
               else do_part_download E (retry t)
                      (observed false [EvSleep 3000] (fetched E t f w))
        else (Raise err, fetched E t f w)
    end.
Proof.
  intros r n Hstop Hquiet Hne Hf Hmin.
  assert (cancel_seen E (seen w) = false) as Hfirst
    by (rewrite <-(Nat.add_0_r (seen w)); apply Hquiet; lia).
  rewrite do_part_download_equation_1. unfold new_client. run.
  rewrite Hstop, Hfirst. simpl.
  rewrite (WorkerFacts.open_part_run t _ f) by done.
  fold (client_of t).
  set (w0 := World _ _ _ _ _ _).
  rewrite (fetch_part_exact t (OpenFile (fname t) (min_byte t)) w0 f);
    [ | done | | done | done | done].
  2:{ intros j Hj. unfold w0. simpl. replace (S (seen w + j)) with (seen w + S j)%nat by lia.
      apply Hquiet. fold r in Hj. fold n in Hj. lia. }
  fold r. simpl.
  assert (written t (fname t) (min_byte t) f (delivered r) (logged w0 [request_of t])
          = fetched E t f w) as ->.
  { unfold fetched, written, logged, observed, w0. fold r. simpl.
    by rewrite <-!app_assoc. }
  destruct (fetched_outcome r) as [[] | err]; [done|].
  destruct (is_Exception err); [|done].
  assert (seen (fetched E t f w) = (seen w + S n)%nat) as Hseen
    by (unfold fetched, written, observed; fold r; fold n; simpl; lia).
  assert (stop (fetched E t f w) = false) as Hs by done.
  rewrite Hs, Hseen. simpl.
  destruct (cancel_seen E (seen w + S n)); simpl.
  - unfold observed. by rewrite Hseen.
  - destruct (decide (current_tries t > max_tries t)); simpl.
    + unfold observed. by rewrite Hseen.
    + unfold observed. rewrite Hseen. simpl. by rewrite <-!app_assoc.
Qed.


Lemma count_is_sets p n : p (EvStop OpIsSet) = false → count p (is_sets n) = 0%nat.
Proof. intros Hp. unfold is_sets. induction n as [|n IH]; simpl; [done | by rewrite Hp]. Qed.

Lemma observed_trace b evs w : trace (observed b evs w) = trace w ++ EvStop OpIsSet :: evs.
Proof. reflexivity. Qed.

Lemma observed_files b evs w : files (observed b evs w) = files w.
Proof. reflexivity. Qed.

Lemma observed_stop b evs w : stop (observed b evs w) = b.
Proof. reflexivity. Qed.

Lemma fetched_trace t f w :
  trace (fetched E t f w)
  = trace w ++ [EvStop OpIsSet; client_of t; request_of t]
      ++ is_sets (length (delivered (get_reply E (min_byte t) (max_byte t) (current_tries t)))).
Proof. unfold fetched, written, observed. simpl. by rewrite <-app_assoc. Qed.

Lemma fetched_file t f w :
  files (fetched E t f w) !! fname t
  = Some (write_at f (min_byte t)
            (concat (delivered (get_reply E (min_byte t) (max_byte t) (current_tries t))))).
Proof. unfold fetched, written. simpl. by rewrite lookup_insert_eq. Qed.

Lemma fails_outcome r : fails r → ∃ err, fetched_outcome r = Raise err ∧ is_Exception err = true.
Proof. destruct r as [e | chunks [e|]]; simpl; [by eauto | intros []; by eauto | done]. Qed.

Lemma fails_delivered r : fails r → Forall (λ c, c ≠ []) (delivered r).
Proof. destruct r as [e | chunks [e|]]; simpl; [done | by intros [] | done]. Qed.


(** What the worker raises then is an [Exception]. *)
Lemma do_part_download_raises (k : nat) : ∀ t w f,
  (∀ n, cancel_seen E n = false) →
  stop w = false →
  files w !! fname t = Some f →
  0 ≤ min_byte t →
  current_tries t + Z.of_nat k = max_tries t + 1 →
  (∀ tries, fails (get_reply E (min_byte t) (max_byte t) tries)) →
  ∃ e, (do_part_download E t w).1 = Raise e ∧ is_Exception e = true.
Proof.
  induction k as [|k IH]; intros t w f Hquiet Hstop Hf Hmin Htries Hfail;
    pose proof (Hfail (current_tries t)) as Hfirst;
    rewrite (do_part_download_attempt t w f) by (auto using fails_delivered);
    destruct (fails_outcome _ Hfirst) as (err & -> & Hclass); rewrite Hclass, Hquiet.
  - rewrite decide_True by lia. by exists err.
  - rewrite decide_False by lia.
    apply (IH (retry t) _ (write_at f (min_byte t)
             (concat (delivered (get_reply E (min_byte t) (max_byte t) (current_tries t))))));
      [done | done | | done | simpl; lia | done].
    rewrite observed_files. exact (fetched_file t f w).
Qed.


(** The chunk loop over the first chunks of a stream, when the stop event is
    not seen set at their observations. *)
Lemma write_chunks_prefix t broken pre rest : ∀ fd w f,
  stop w = false →
  (∀ j, (j < length pre)%nat → cancel_seen E (seen w + j) = false) →
  Forall (λ c, c ≠ []) pre →
  files w !! fd_path fd = Some f →
  0 ≤ fd_pos fd →
  write_chunks E t fd (pre ++ rest) broken w
  = write_chunks E t
      (OpenFile (fd_path fd) (fd_pos fd + Z.of_nat (length (concat pre)))) rest broken
      (written t (fd_path fd) (fd_pos fd) f pre w).
Proof.
  induction pre as [|chunk pre IH]; intros fd w f Hstop Hquiet Hne Hf Hpos.
  - destruct w as [fs ds q st sn tr], fd as [path pos]. simpl in *. subst st.
    unfold written, credit, is_sets, write_at. simpl.
    rewrite insert_id by done. rewrite Nat.add_0_r, Z.add_0_r.
    destruct (queue_on t); by rewrite !app_nil_r.
  - inversion Hne as [|? ? Hchunk Hrest]; subst.
    assert (cancel_seen E (seen w) = false) as Hfirst
      by (rewrite <-(Nat.add_0_r (seen w)); apply Hquiet; simpl; lia).
    simpl app. simpl write_chunks. run. rewrite Hstop, Hfirst. simpl.
    rewrite decide_False by done. unfold os_write. run.
    set (fs := alter (λ content, write_at content (fd_pos fd) chunk) (fd_path fd) (files w)).
    assert (fs !! fd_path fd = Some (write_at f (fd_pos fd) chunk)) as Hfs
      by (unfold fs; by rewrite lookup_alter_eq, Hf).
    unfold written, credit. destruct (queue_on t) eqn:Hq; simpl.
    + rewrite (IH (OpenFile (fd_path fd) (fd_pos fd + Z.of_nat (length chunk)))
                 (World fs (dirs w) (queue w ++ [Z.of_nat (length chunk)]) false
                        (S (seen w)) (trace w ++ [EvStop OpIsSet]))
                 (write_at f (fd_pos fd) chunk)); simpl; [ | done | | done | done | lia].
      * f_equal; [f_equal; rewrite length_app; lia|].
        unfold written, credit. rewrite Hq. simpl. f_equal.
        -- rewrite WorkerFacts.write_at_app by done. unfold fs. apply insert_alter_eq.
        -- by rewrite <-app_assoc.
        -- lia.
        -- by rewrite <-app_assoc.
      * intros j Hj. replace (S (seen w + j)) with (seen w + S j)%nat by lia.
        apply Hquiet. simpl. lia.
    + rewrite (IH (OpenFile (fd_path fd) (fd_pos fd + Z.of_nat (length chunk)))
                 (World fs (dirs w) (queue w) false
                        (S (seen w)) (trace w ++ [EvStop OpIsSet]))
                 (write_at f (fd_pos fd) chunk)); simpl; [ | done | | done | done | lia].
      * f_equal; [f_equal; rewrite length_app; lia|].
        unfold written, credit. rewrite Hq. simpl. f_equal.
        -- rewrite WorkerFacts.write_at_app by done. unfold fs. apply insert_alter_eq.
        -- lia.
        -- by rewrite <-app_assoc.
      * intros j Hj. replace (S (seen w + j)) with (seen w + S j)%nat by lia.
        apply Hquiet. simpl. lia.
Qed.


(** X7. A worker that finds no file to write to makes no request. It raises
    the OSError, unless the stop event is set by then (the file was removed
    by the clean-up): then it returns without a value. *)
Theorem do_part_download_missing_file t w :
  stop w = false →
  cancel_seen E (seen w) = false →
  files w !! fname t = None →
  ∃ msg,
    do_part_download E t w
    = (if cancel_seen E (S (seen w)) then Ok () else Raise (OSError msg),
       observed (cancel_seen E (S (seen w))) [] (observed false [client_of t] w)).
Proof.
  intros Hstop Hfirst Hf. rewrite do_part_download_equation_1. unfold new_client. run.
  rewrite Hstop, Hfirst. simpl. unfold open_part, os_open_wronly. run. rewrite Hf. simpl.
  eexists. unfold observed. simpl. rewrite <-!app_assoc. simpl.
  destruct (cancel_seen E (S (seen w))); reflexivity.
Qed.

End Exact.

(** *** What a worker leaves alone *)

Global Instance writes_within_preorder path region : PreOrder (writes_within path region).
Proof.
  split.
  - intros w. split; [done|]. split; [done|].
    destruct (files w !! path) as [f|] eqn:Hf; [|done]. by exists f.
  - intros w1 w2 w3 (Hd12 & Ho12 & Hp12) (Hd23 & Ho23 & Hp23).
    split; [congruence|]. split; [intros p Hp; rewrite Ho23, Ho12; done|].
    destruct (files w1 !! path) as [f1|].
    + destruct Hp12 as (f2 & Hf2 & H12). rewrite Hf2 in Hp23.
      destruct Hp23 as (f3 & Hf3 & H23). exists f3. split; [done|].
      intros i Hi. rewrite H23, H12; done.
    + by rewrite Hp12 in Hp23.
Qed.

Lemma writes_within_same path region w w' :
  files w' = files w → dirs w' = dirs w → writes_within path region w w'.
Proof.
  intros Hf Hd. split; [done|]. split; [by rewrite Hf|]. rewrite Hf.
  destruct (files w !! path) as [f|]; [|done]. by exists f.
Qed.

Lemma write_at_outside (f : list byte) pos chunk (i : nat) :
  0 ≤ pos →
  ¬ (pos ≤ Z.of_nat i < pos + Z.of_nat (length chunk)) →
  byte_at (write_at f pos chunk) i = byte_at f i.
Proof.
  intros Hpos Hi. unfold write_at. case_decide; [done|]. unfold byte_at.
  set (p := Z.to_nat pos).
  destruct (decide (i < p)%nat) as [Hlt | Hge].
  - rewrite app_assoc, lookup_app_l by (rewrite write_at_prefix_length; lia).
    destruct (decide (i < length f)%nat) as [Hin | Hout].
    + rewrite lookup_app_l by (rewrite length_take; lia). by rewrite lookup_take_lt.
    + rewrite lookup_app_r by (rewrite length_take; lia).
      rewrite (lookup_ge_None_2 f i) by lia.
      rewrite lookup_replicate_2; [done|]. rewrite length_take. lia.
  - rewrite app_assoc, lookup_app_r by (rewrite write_at_prefix_length; lia).
    rewrite write_at_prefix_length. rewrite lookup_app_r by lia.
    rewrite lookup_drop. f_equal. f_equal. lia.
Qed.

(** One step through the syntax of a computation that leaves the files alone. *)
Ltac frame_step :=
  match goal with
  | |- preserved _ (_ ≫= _) => apply preserved_bind; [tc_solve | | intros ?]
  | |- preserved _ (attempt _) => apply preserved_attempt
  | |- preserved _ (match ?x with _ => _ end) => destruct x
  | |- preserved _ _ => solve [auto with preserved]
  | |- preserved (writes_within _ _) _ => solve [intros ?; by apply writes_within_same]
  end.
Ltac frame := repeat frame_step.

Section Frame.
Context (path : string) (region : Z → Prop).

Lemma frame_os_write fd chunk :
  fd_path fd = path →
  0 ≤ fd_pos fd →
  (∀ i, fd_pos fd ≤ i < fd_pos fd + Z.of_nat (length chunk) → region i) →
  preserved (writes_within path region) (os_write fd chunk).
Proof.
  intros Hpath Hpos Hregion w. unfold os_write. run. rewrite Hpath.
  split; [done|]. simpl. split; [intros p Hp; by rewrite lookup_alter_ne|].
  rewrite lookup_alter_eq. destruct (files w !! path) as [f|]; [|done]. simpl.
  eexists. split; [done|]. intros i Hi. apply write_at_outside; [done|].
  intros Hin. by apply Hi, Hregion.
Qed.

Lemma frame_write_chunks E t broken chunks : ∀ fd,
  fd_path fd = path →
  0 ≤ fd_pos fd →
  (∀ i, fd_pos fd ≤ i < fd_pos fd + Z.of_nat (length (concat chunks)) → region i) →
  preserved (writes_within path region) (write_chunks E t fd chunks broken).
Proof.
  induction chunks as [|chunk rest IH]; intros fd Hpath Hpos Hregion; simpl; [frame|].
  simpl in Hregion. rewrite length_app in Hregion.
  apply preserved_bind; [tc_solve | frame | intros stopped].
  destruct stopped; [frame|]. case_decide; [frame|].
  assert (preserved (writes_within path region)
            (write_chunks E t (OpenFile (fd_path fd) (fd_pos fd + Z.of_nat (length chunk)))
               rest broken)) as Hrest.
  { apply IH; simpl; [done | lia | intros i Hi; apply Hregion; lia]. }
  intros w. unfold mbind, M_bind at 1.
  pose proof (frame_os_write fd chunk Hpath Hpos
                ltac:(intros i Hi; apply Hregion; lia) w) as Hwrite.
  unfold os_write in *. revert Hwrite. run. intros Hwrite.
  etransitivity; [exact Hwrite|].
  set (w1 := World _ _ _ _ _ _).
  destruct (queue_on t).
  - run. etransitivity; [|apply Hrest]. by apply writes_within_same.
  - run. apply Hrest.
Qed.

Lemma frame_fetch_part E t fd :
  fd_path fd = path →
  0 ≤ fd_pos fd →
  (∀ i, fd_pos fd ≤ i
        < fd_pos fd + Z.of_nat (length (concat (delivered
              (get_reply E (min_byte t) (max_byte t) (current_tries t))))) → region i) →
  preserved (writes_within path region) (fetch_part E t fd).
Proof.
  intros Hpath Hpos Hregion. unfold fetch_part, get_object.
  destruct (get_reply E (min_byte t) (max_byte t) (current_tries t))
    as [e | chunks broken]; simpl in Hregion.
  - intros w. run. by apply writes_within_same.
  - intros w. run. etransitivity; [|apply (frame_write_chunks E t broken chunks fd); done].
    by apply writes_within_same.
Qed.

Lemma preserved_bind_post {A B} (m : M A) (k : A → M B) (Q : A → Prop) :
  preserved (writes_within path region) m →
  (∀ w a w', m w = (Ok a, w') → Q a) →
  (∀ a, Q a → preserved (writes_within path region) (k a)) →
  preserved (writes_within path region) (m ≫= k).
Proof.
  intros Hm HQ Hk w. unfold mbind, M_bind. specialize (Hm w). specialize (HQ w).
  destruct (m w) as [[a | e] w1]; simpl in *; [|done].
  transitivity w1; [done | by eapply Hk, HQ].
Qed.

Lemma frame_open_part t : preserved (writes_within path region) (open_part t).
Proof. unfold open_part, os_open_wronly, os_lseek. frame. Qed.

Lemma open_part_ok t w fd w' :
  open_part t w = (Ok fd, w') → fd = OpenFile (fname t) (min_byte t) ∧ 0 ≤ min_byte t.
Proof.
  unfold open_part, os_open_wronly, os_lseek. run.
  destruct (files w !! fname t); [|done]. simpl. case_decide; [done|].
  intros [= <- _]. split; [done | lia].
Qed.

Lemma frame_do_part_download E : ∀ t,
  fname t = path →
  (∀ tries i,
     0 ≤ min_byte t ≤ i →
     i < min_byte t + Z.of_nat (length (concat (delivered
           (get_reply E (min_byte t) (max_byte t) tries)))) →
     region i) →
  preserved (writes_within path region) (do_part_download E t).
Proof.
  intros t. remember (tries_left t) as n eqn:Hn. revert t Hn.
  induction (lt_wf n) as [n _ IH]. intros t -> Hpath Hregion.
  rewrite do_part_download_equation_1. unfold new_client, os_close.
  assert (current_tries t ≤ max_tries t →
          preserved (writes_within path region) (do_part_download E (retry t))) as Hrec.
  { intros Hle. eapply IH; [|reflexivity|done|done]. unfold tries_left, retry. simpl. lia. }
  apply preserved_bind; [tc_solve | frame | intros stopped].
  destruct stopped; [frame|].
  apply preserved_bind; [tc_solve | frame | intros _].
  apply (preserved_bind_post _ _
           (λ opened, ∀ fd, opened = Ok fd →
                            fd = OpenFile (fname t) (min_byte t) ∧ 0 ≤ min_byte t)).
  { apply preserved_attempt, frame_open_part. }
  { intros w opened w' Hrun fd ->. unfold attempt in Hrun.
    destruct (open_part t w) as [r w1] eqn:Hopen. injection Hrun as -> ->.
    by eapply open_part_ok. }
  intros [fd | e] Hfd; [|frame].
  destruct (Hfd fd eq_refl) as [-> Hmin].
  pose proof (frame_fetch_part E t (OpenFile (fname t) (min_byte t)) Hpath Hmin
                ltac:(simpl; intros i Hi; apply (Hregion (current_tries t)); lia)).
  frame; apply Hrec; lia.
Qed.

End Frame.


(** Without the bound on what the store sends: the other files are left
    alone all the same. *)
Lemma do_part_download_keeps_files (E : env) (t : task) :
  preserved (writes_within (fname t) anywhere) (do_part_download E t).
Proof. by apply frame_do_part_download. Qed.

(** *** Examples of runs of a worker *)




Lemma do_part_download_missing_file_witness :
  ∃ msg,
    do_part_download (Examples.remote (HeadOk 2) Examples.steady) Examples.part
      Examples.empty_world
    = (Raise (OSError msg),
       observed false [] (observed false [client_of Examples.part] Examples.empty_world)).
Proof.
  apply (do_part_download_missing_file (Examples.remote (HeadOk 2) Examples.steady)
           Examples.part Examples.empty_world); reflexivity.
Defined.


End WorkerRunFacts.

(** ** Runs of the monitor *)

Module MonitorRunFacts.
Import Monitor WorkerSpec Calls MonitorRun StopEvent Preserved WorkerFacts CallsFacts MonitorFacts.

Lemma percent_of_total downloaded total_size : ∃ p, percent_of downloaded total_size = Ok p.
Proof.
  unfold percent_of. case_decide as Hpos; [|by eauto]. unfold truediv.
  destruct (Qeq_bool (inject_Z total_size) 0) eqn:Hz; [|by eauto].
  apply Qeq_bool_eq in Hz. unfold Qeq in Hz. simpl in Hz. lia.
Qed.

Lemma arrived_S E round n :
  arrived E round (S n) = arrived E round n + total (arrivals E (round + n)).
Proof.
  revert round. induction n as [|n IH]; intros round.
  - simpl. rewrite Nat.add_0_r. lia.
  - change (arrived E round (S (S n)))
      with (total (arrivals E round) + arrived E (S round) (S n)).
    rewrite IH. simpl. replace (round + S n)%nat with (S (round + n)) by lia. lia.
Qed.

Section Rounds.
Context (E : env) (total_size : Z).

(** A round that neither finds the event set, nor the key pressed, nor the
    download complete. *)
Lemma monitor_loop_round rounds round downloaded dq w :
  stop w = false →
  cancel_seen E (seen w) = false →
  q_pressed E round = false →
  ¬ (total_size ≤ downloaded + total (queue w) + total (arrivals E round) ∧ 0 < total_size) →
  ∃ dq' fl pct speed,
    monitor_loop E total_size (S rounds) round downloaded dq w
    = monitor_loop E total_size rounds (S round)
        (downloaded + total (queue w) + total (arrivals E round)) dq'
        (World (files w) (dirs w) [] false (S (seen w))
           (trace w ++ [EvStop OpIsSet;
                        EvStatus fl pct
                          (downloaded + total (queue w) + total (arrivals E round))
                          total_size speed;
                        EvSleep 100])).
Proof.
  intros Hstop Hcancel Hkey Hmore. simpl. unfold drain_queue. run.
  rewrite Hstop, Hcancel. simpl. fold (total (queue w ++ arrivals E round)).
  rewrite total_app, Z.add_assoc.
  unfold q_pressed in Hkey. rewrite Hkey.
  set (d := downloaded + total (queue w) + total (arrivals E round)) in *.
  destruct (speed_step_total dq (clock E round) d) as (dq' & speed & ->).
  destruct (percent_of_total d total_size) as (pct & ->). simpl.
  rewrite bool_decide_eq_false_2 by lia. simpl.
  exists dq'. eexists _, _, _. rewrite <-!app_assoc. reflexivity.
Qed.

(** [n] such rounds. *)
Lemma monitor_loop_rounds n : ∀ rounds round downloaded dq w,
  stop w = false →
  (∀ j, (j < n)%nat → cancel_seen E (seen w + j) = false) →
  (∀ j, (j < n)%nat → q_pressed E (round + j) = false) →
  (∀ j, (j < n)%nat →
        ¬ (total_size ≤ downloaded + total (queue w) + arrived E round (S j)
           ∧ 0 < total_size)) →
  ∃ downloaded' dq' w' evs,
    monitor_loop E total_size (n + rounds) round downloaded dq w
    = monitor_loop E total_size rounds (round + n) downloaded' dq' w' ∧
    downloaded' + total (queue w') = downloaded + total (queue w) + arrived E round n ∧
    stop w' = false ∧ seen w' = (seen w + n)%nat ∧
    files w' = files w ∧ dirs w' = dirs w ∧
    trace w' = trace w ++ evs ∧
    count is_status evs = n ∧ count is_sleep evs = n ∧ count is_set_call evs = 0%nat.
Proof.
  induction n as [|n IH]; intros rounds round downloaded dq w Hstop Hcancel Hkey Hmore.
  - exists downloaded, dq, w, []. rewrite !Nat.add_0_r, app_nil_r. simpl.
    repeat split; try done. lia.
  - destruct (monitor_loop_round (n + rounds) round downloaded dq w) as
      (dq1 & fl & pct & speed & Hround).
    { done. }
    { specialize (Hcancel 0%nat ltac:(lia)). by rewrite Nat.add_0_r in Hcancel. }
    { specialize (Hkey 0%nat ltac:(lia)). by rewrite Nat.add_0_r in Hkey. }
    { specialize (Hmore 0%nat ltac:(lia)). simpl in Hmore. by rewrite Z.add_0_r in Hmore. }
    change (S n + rounds)%nat with (S (n + rounds)). rewrite Hround.
    set (d := downloaded + total (queue w) + total (arrivals E round)) in *.
    set (w1 := World _ _ _ _ _ _).
    destruct (IH rounds (S round) d dq1 w1) as
      (downloaded' & dq' & w' & evs & Hrun & Hsum & Hstop' & Hseen & Hfiles & Hdirs
       & Htrace & Hstatus & Hsleep & Hset).
    { done. }
    { intros j Hj. simpl. specialize (Hcancel (S j) ltac:(lia)).
      by replace (seen w + S j)%nat with (S (seen w + j)) in Hcancel by lia. }
    { intros j Hj. specialize (Hkey (S j) ltac:(lia)).
      by replace (round + S j)%nat with (S round + j)%nat in Hkey by lia. }
    { intros j Hj. specialize (Hmore (S j) ltac:(lia)).
      change (arrived E round (S (S j)))
        with (total (arrivals E round) + arrived E (S round) (S j)) in Hmore.
      unfold d. simpl (queue w1). change (total []) with 0. lia. }
    exists downloaded', dq', w'. eexists.
    replace (round + S n)%nat with (S round + n)%nat by lia.
    split; [exact Hrun|]. split.
    { rewrite Hsum. unfold d. simpl (queue w1). change (total []) with 0.
      change (arrived E round (S n))
        with (total (arrivals E round) + arrived E (S round) n). lia. }
    split; [done|]. split; [rewrite Hseen; simpl; lia|].
    split; [done|]. split; [done|].
    split; [rewrite Htrace; simpl; by rewrite <-app_assoc|].
    rewrite !count_app. simpl. rewrite Hstatus, Hsleep, Hset. done.
Qed.

(** The round that finds the download complete. *)
Lemma monitor_loop_complete rounds round downloaded dq w :
  stop w = false →
  cancel_seen E (seen w) = false →
  q_pressed E round = false →
  total_size ≤ downloaded + total (queue w) + total (arrivals E round) →
  0 < total_size →
  ∃ fl pct speed,
    monitor_loop E total_size (S rounds) round downloaded dq w
    = (Ok true,
       World (files w) (dirs w) [] false (S (seen w))
         (trace w ++ [EvStop OpIsSet;
                      EvStatus fl pct
                        (downloaded + total (queue w) + total (arrivals E round))
                        total_size speed])).
Proof.
  intros Hstop Hcancel Hkey Hfull Hpos. simpl. unfold drain_queue. run.
  rewrite Hstop, Hcancel. simpl. fold (total (queue w ++ arrivals E round)).
  rewrite total_app, Z.add_assoc.
  unfold q_pressed in Hkey. rewrite Hkey.
  set (d := downloaded + total (queue w) + total (arrivals E round)) in *.
  destruct (speed_step_total dq (clock E round) d) as (dq' & speed & ->).
  destruct (percent_of_total d total_size) as (pct & ->). simpl.
  rewrite bool_decide_eq_true_2 by lia. simpl.
  eexists _, _, _. rewrite <-!app_assoc. reflexivity.
Qed.

(** The round that finds the key q pressed. *)
Lemma monitor_loop_key rounds round downloaded dq w :
  stop w = false →
  cancel_seen E (seen w) = false →
  q_pressed E round = true →
  monitor_loop E total_size (S rounds) round downloaded dq w
  = (Ok true,
     World (files w) (dirs w) [] true (S (seen w))
       (trace w ++ [EvStop OpIsSet; EvStderr key_q_detected; EvStop OpSet])).
Proof.
  intros Hstop Hcancel Hkey. simpl. unfold drain_queue. run.
  rewrite Hstop, Hcancel. simpl. unfold q_pressed in Hkey. rewrite Hkey. simpl.
  by rewrite <-!app_assoc.
Qed.

(** X9. The monitor ends by itself in the first round in which the bytes it
    has counted reach the size of the object, for a size above 0: it has
    printed one status per round and slept between two rounds, it shows the
    cursor again, and it leaves the stop event as it is. *)
Theorem progress_monitor_completes (rounds k : nat) (w : world) :
  stop w = false →
  (∀ j, (j ≤ k)%nat → cancel_seen E (seen w + j) = false) →
  (∀ j, (j ≤ k)%nat → q_pressed E j = false) →
  0 < total_size →
  (∀ j, (j < k)%nat → counted E w j < total_size) →
  total_size ≤ counted E w k →
  (k < rounds)%nat →
  ∃ w' evs,
    progress_monitor E total_size rounds w = (Ok true, w') ∧
    trace w' = trace w ++ evs ∧
    count is_status evs = S k ∧
    count is_sleep evs = k ∧
    count is_set_call evs = 0%nat ∧
    last evs = Some (EvStderr show_cursor) ∧
    stop w' = false ∧ files w' = files w ∧ dirs w' = dirs w.
Proof.
  intros Hstop Hcancel Hkey Hpos Hless Hfull Hrounds.
  assert (∃ rest, rounds = (k + S rest)%nat) as [rest ->] by (exists (rounds - k - 1)%nat; lia).
  unfold progress_monitor.
  unfold mbind at 1, M_bind at 1. unfold emit at 1.
  set (w0 := World _ _ _ _ _ _).
  destruct (monitor_loop_rounds k (S rest) 0 0 [] w0) as
    (downloaded' & dq' & w1 & evs & Hrun & Hsum & Hstop1 & Hseen & Hfiles & Hdirs
     & Htrace & Hstatus & Hsleep & Hset).
  { done. }
  { intros j Hj. apply Hcancel. lia. }
  { intros j Hj. apply Hkey. lia. }
  { intros j Hj. specialize (Hless j Hj). unfold counted in Hless. simpl (queue w0). lia. }
  unfold mbind, M_bind. rewrite Hrun.
  destruct (monitor_loop_complete rest (0 + k) downloaded' dq' w1) as
    (fl & pct & speed & Hlast).
  { done. }
  { rewrite Hseen. apply Hcancel. lia. }
  { apply Hkey. lia. }
  { unfold counted in Hfull. rewrite arrived_S in Hfull. simpl (queue w0) in Hsum.
    simpl in Hfull |- *. lia. }
  { done. }
  rewrite Hlast. unfold emit. simpl.
  eexists _, (([EvStderr hide_cursor] ++ evs ++ [_; _]) ++ [EvStderr show_cursor]).
  split; [reflexivity|].
  subst w0. cbn [trace stop files dirs] in *. rewrite Htrace.
  split; [rewrite <-!app_assoc; reflexivity|].
  rewrite last_snoc, !count_app, Hstatus, Hsleep, Hset, Hfiles, Hdirs. simpl.
  repeat split; lia.
Qed.

(** X10. On Windows, the monitor stops the download in the first round in
    which it finds the key q or Q pressed: it sets the stop event and ends,
    without a status for this round. *)
Theorem progress_monitor_key (rounds k : nat) (w : world) :
  stop w = false →
  (∀ j, (j ≤ k)%nat → cancel_seen E (seen w + j) = false) →
  (∀ j, (j < k)%nat → q_pressed E j = false) →
  q_pressed E k = true →
  (∀ j, (j < k)%nat → ¬ (total_size ≤ counted E w j ∧ 0 < total_size)) →
  (k < rounds)%nat →
  ∃ w' evs,
    progress_monitor E total_size rounds w = (Ok true, w') ∧
    trace w' = trace w ++ evs ++ [EvStderr key_q_detected; EvStop OpSet;
                                  EvStderr show_cursor] ∧
    count is_status evs = k ∧
    count is_set_call evs = 0%nat ∧
    stop w' = true ∧ files w' = files w ∧ dirs w' = dirs w.
Proof.
  intros Hstop Hcancel Hnokey Hkey Hless Hrounds.
  assert (∃ rest, rounds = (k + S rest)%nat) as [rest ->] by (exists (rounds - k - 1)%nat; lia).
  unfold progress_monitor.
  unfold mbind at 1, M_bind at 1. unfold emit at 1.
  set (w0 := World _ _ _ _ _ _).
  destruct (monitor_loop_rounds k (S rest) 0 0 [] w0) as
    (downloaded' & dq' & w1 & evs & Hrun & Hsum & Hstop1 & Hseen & Hfiles & Hdirs
     & Htrace & Hstatus & Hsleep & Hset).
  { done. }
  { intros j Hj. apply Hcancel. lia. }
  { intros j Hj. by apply Hnokey. }
  { intros j Hj. specialize (Hless j Hj). unfold counted in Hless. simpl (queue w0). lia. }
  unfold mbind, M_bind. rewrite Hrun.
  rewrite monitor_loop_key; [|done | rewrite Hseen; apply Hcancel; lia | done].
  unfold emit. simpl. eexists _, ([EvStderr hide_cursor] ++ evs ++ [EvStop OpIsSet]).
  split; [reflexivity|].
  subst w0. cbn [trace stop files dirs] in *. rewrite Htrace.
  split; [rewrite <-!app_assoc; reflexivity|].
  rewrite !count_app, Hstatus, Hset, Hfiles, Hdirs. simpl.
  repeat split; lia.
Qed.

End Rounds.

(** *** What the monitor leaves alone *)

Global Instance same_files_preorder : PreOrder same_files.
Proof.
  split.
  - by intros w.
  - intros w1 w2 w3 [Hf12 Hd12] [Hf23 Hd23]. split; congruence.
Qed.

Global Instance sets_nothing_preorder : PreOrder sets_nothing.
Proof.
  split.
  - intros w. exists []. by rewrite app_nil_r.
  - intros w1 w2 w3 (evs & H12 & Hevs) (evs' & H23 & Hevs'). exists (evs ++ evs').
    rewrite H23, H12, app_assoc. split; [done | by apply Forall_app].
Qed.

Lemma sets_nothing_emit ev : ev ≠ EvStop OpSet → preserved sets_nothing (emit ev).
Proof. intros Hev w. exists [ev]. split; [done | by constructor]. Qed.

Ltac observes_step :=
  match goal with
  | |- preserved _ (_ ≫= _) => apply preserved_bind; [tc_solve | | intros ?]
  | |- preserved sets_nothing (emit _) => apply sets_nothing_emit; discriminate
  | |- preserved _ (match ?x with _ => _ end) => destruct x
  | |- preserved _ _ => solve [auto with preserved]
  | |- preserved same_files _ => solve [by intros ?]
  | |- preserved sets_nothing (event_is_set _) =>
      solve [intros ?; exists [EvStop OpIsSet]; split; [done | by constructor]]
  | |- preserved sets_nothing _ => solve [intros ?; exists []; by rewrite app_nil_r]
  end.
Ltac observes := repeat observes_step.

Lemma same_files_monitor_loop E total_size rounds : ∀ round downloaded dq,
  preserved same_files (monitor_loop E total_size rounds round downloaded dq).
Proof. induction rounds as [|rounds IH]; intros round downloaded dq; simpl; observes. Qed.

Lemma sets_nothing_monitor_loop E total_size rounds : ∀ round downloaded dq,
  os_nt E = false →
  preserved sets_nothing (monitor_loop E total_size rounds round downloaded dq).
Proof.
  induction rounds as [|rounds IH]; intros round downloaded dq Hos; simpl; [observes|].
  rewrite Hos. observes.
Qed.

(** X11. The monitor only observes: it changes no file and no directory,
    and where the system is not Windows it never sets the stop event, whatever
    is typed: the key q is read on Windows only. *)
Theorem progress_monitor_only_observes (E : env) (total_size : Z) (rounds : nat)
    (w : world) :
  same_files w (progress_monitor E total_size rounds w).2 ∧
  (if os_nt E then True else sets_nothing w (progress_monitor E total_size rounds w).2).
Proof.
  split.
  - revert w. change (preserved same_files (progress_monitor E total_size rounds)).
    unfold progress_monitor. pose proof (same_files_monitor_loop E total_size rounds).
    observes.
  - destruct (os_nt E) eqn:Hos; [done|]. revert w.
    change (preserved sets_nothing (progress_monitor E total_size rounds)).
    unfold progress_monitor.
    pose proof (λ round downloaded dq,
                  sets_nothing_monitor_loop E total_size rounds round downloaded dq Hos).
    observes.
Qed.

(** *** The bar *)

(** X12. The percentage never fails: for a size of 0 or below it is 0, with
    no division. While the bytes counted are between 0 and the size, it is
    between 0 and 100 and the bar has between 0 and 30 filled places; bytes
    counted beyond the size, as after a part was fetched again, take the bar
    beyond its 30 places. *)
Theorem percent_of_bar (downloaded total_size : Z) :
  ∃ percent,
    percent_of downloaded total_size = Ok percent ∧
    (total_size ≤ 0 → percent = 0%Q) ∧
    (0 < total_size → 0 ≤ downloaded ≤ total_size →
     (0 <= percent <= 100)%Q ∧
     0 ≤ Qfloor (inject_Z bar_len * percent / 100)%Q ≤ bar_len) ∧
    (0 < total_size → total_size + total_size ≤ downloaded →
     bar_len < Qfloor (inject_Z bar_len * percent / 100)%Q).
Proof.
  unfold percent_of. case_decide as Hpos.
  - unfold truediv. destruct (Qeq_bool (inject_Z total_size) 0) eqn:Hz.
    { apply Qeq_bool_eq in Hz. unfold Qeq in Hz. simpl in Hz. lia. }
    eexists. split; [reflexivity|]. split; [lia|].
    assert (0 < inject_Z total_size)%Q as Ht
      by (change 0%Q with (inject_Z 0); rewrite <-Zlt_Qlt; lia).
    set (T := inject_Z total_size) in *.
    assert (inject_Z bar_len * (inject_Z downloaded / T * 100) / 100
            == 30 * inject_Z downloaded / T)%Q as Hbar
      by (unfold bar_len; field; intros H0; rewrite H0 in Ht; by apply Qlt_irrefl in Ht).
    split.
    + intros _ [Hlo Hhi].
      assert (0 <= inject_Z downloaded)%Q as Hd0
        by (change 0%Q with (inject_Z 0); by rewrite <-Zle_Qle).
      assert (inject_Z downloaded <= T)%Q as HdT by (unfold T; by rewrite <-Zle_Qle).
      set (D := inject_Z downloaded) in *.
      assert (0 <= D / T)%Q as Hq0.
      { apply Qle_shift_div_l; [done|]. lra. }
      assert (D / T <= 1)%Q as Hq1.
      { apply Qle_shift_div_r; [done|]. lra. }
      split; [split; lra|]. rewrite Hbar.
      assert (30 * D / T == 30 * (D / T))%Q as -> by (field; intros H0; rewrite H0 in Ht; by apply Qlt_irrefl in Ht).
      split.
      * change 0 with (Qfloor 0). apply Qfloor_resp_le. lra.
      * change bar_len with (Qfloor 30). apply Qfloor_resp_le. lra.
    + intros _ Hbig. rewrite Hbar.
      assert (T + T <= inject_Z downloaded)%Q as HdT
        by (unfold T; rewrite <-inject_Z_plus; by rewrite <-Zle_Qle).
      set (D := inject_Z downloaded) in *.
      assert (2 <= D / T)%Q as Hq2.
      { apply Qle_shift_div_l; [done|]. lra. }
      assert (30 * D / T == 30 * (D / T))%Q as -> by (field; intros H0; rewrite H0 in Ht; by apply Qlt_irrefl in Ht).
      assert (Qfloor 60 ≤ Qfloor (30 * (D / T))) by (apply Qfloor_resp_le; lra).
      change (Qfloor 60) with 60 in *. unfold bar_len. lia.
  - eexists. split; [reflexivity|]. split; [done|]. split; intros; lia.
Qed.

(** *** Examples of runs of the monitor *)

Lemma progress_monitor_completes_witness :
  ∃ w' evs,
    progress_monitor Scenarios.trickle 2 5 Examples.ready_world = (Ok true, w') ∧
    trace w' = trace Examples.ready_world ++ evs ∧
    count is_status evs = 2%nat ∧
    count is_sleep evs = 1%nat ∧
    count is_set_call evs = 0%nat ∧
    last evs = Some (EvStderr show_cursor) ∧
    stop w' = false ∧ files w' = files Examples.ready_world ∧
    dirs w' = dirs Examples.ready_world.
Proof.
  apply (progress_monitor_completes Scenarios.trickle 2 5 1 Examples.ready_world).
  - reflexivity.
  - reflexivity.
  - reflexivity.
  - lia.
  - intros j Hj. destruct j as [|j]; [vm_compute; reflexivity | lia].
  - vm_compute. discriminate.
  - lia.
Defined.

Lemma progress_monitor_key_witness :
  ∃ w' evs,
    progress_monitor Examples.keyboard 2 5 Examples.ready_world = (Ok true, w') ∧
    trace w' = trace Examples.ready_world ++ evs
                 ++ [EvStderr key_q_detected; EvStop OpSet; EvStderr show_cursor] ∧
    count is_status evs = 1%nat ∧
    count is_set_call evs = 0%nat ∧
    stop w' = true ∧ files w' = files Examples.ready_world ∧
    dirs w' = dirs Examples.ready_world.
Proof.
  apply (progress_monitor_key Examples.keyboard 2 5 1 Examples.ready_world).
  - reflexivity.
  - reflexivity.
  - intros j Hj. destruct j as [|j]; [reflexivity | lia].
  - reflexivity.
  - intros j Hj [Hfull _]. destruct j as [|j]; [|lia]. vm_compute in Hfull. by apply Hfull.
  - lia.
Defined.

Lemma percent_of_bar_witness :
  ∃ percent,
    percent_of 5 10 = Ok percent ∧
    (10 ≤ 0 → percent = 0%Q) ∧
    (0 < 10 → 0 ≤ 5 ≤ 10 →
     (0 <= percent <= 100)%Q ∧
     0 ≤ Qfloor (inject_Z bar_len * percent / 100)%Q ≤ bar_len) ∧
    (0 < 10 → 10 + 10 ≤ 5 →
     bar_len < Qfloor (inject_Z bar_len * percent / 100)%Q).
Proof. apply (percent_of_bar 5 10). Defined.

End MonitorRunFacts.

(** ** Runs of the coordinator *)

Module CoordinatorRunFacts.
Import Worker WorkerSpec Calls WorkerRun Remote Coordinator CoordinatorSpec CoordinatorRun
  StopEvent Preserved WorkerFacts CallsFacts WorkerRunFacts CoordinatorFacts.

Local Arguments basename : simpl never.
Local Arguments parent_exists : simpl never.

(** *** The empty file *)

Lemma os_create_new E w path :
  creatable E w path → files w !! path = None →
  os_create E path w = set_files (<[path := []]> (files w)) w.
Proof.
  intros (Hdir & Hbase & Hparent & Hallowed) Hf. unfold os_create. run.
  rewrite !bool_decide_eq_false_2 by done. simpl. by rewrite Hf, Hparent, Hallowed.
Qed.

(** A file whose directory is not there is not created. *)
Lemma os_create_no_directory E w path :
  path ∉ dirs w → basename path ≠ "" → files w !! path = None →
  parent_exists w path = false →
  os_create E path w = (Raise (OSError "no such file or directory"), w).
Proof.
  intros Hdir Hbase Hf Hparent. unfold os_create. run.
  rewrite !bool_decide_eq_false_2 by done. simpl. by rewrite Hf, Hparent.
Qed.

Lemma os_create_denied E w path :
  path ∉ dirs w → basename path ≠ "" → create_denied E path = true →
  ∃ msg, os_create E path w = (Raise (OSError msg), w).
Proof.
  intros Hdir Hbase Hdenied. unfold os_create. run.
  rewrite !bool_decide_eq_false_2 by done. simpl. rewrite Hdenied.
  destruct (files w !! path); [by eexists|]. by destruct (parent_exists w path); eexists.
Qed.

(** Whether a file can be created depends on the directories only. *)
Lemma creatable_dirs E w w' path :
  dirs w' = dirs w → creatable E w path → creatable E w' path.
Proof.
  intros Hdirs (Hdir & Hbase & Hparent & Hallowed). unfold creatable, parent_exists in *.
  rewrite Hdirs. done.
Qed.

Lemma slice_length content lo hi :
  0 ≤ lo ≤ hi → hi < Z.of_nat (length content) →
  Z.of_nat (length (slice content lo hi)) = hi - lo + 1.
Proof. intros Hlo Hhi. unfold slice. rewrite length_take, length_drop. lia. Qed.

(** Writing a range of the object after the bytes before it. *)
Lemma write_at_take_slice content lo hi :
  0 ≤ lo ≤ hi → hi < Z.of_nat (length content) →
  write_at (take (Z.to_nat lo) content) lo (slice content lo hi)
  = take (Z.to_nat (hi + 1)) content.
Proof.
  intros Hlo Hhi. pose proof (slice_length content lo hi Hlo Hhi) as Hlen.
  unfold write_at. rewrite decide_False by (intros Hnil; rewrite Hnil in Hlen; simpl in Hlen; lia).
  rewrite take_idemp, length_take.
  replace (Z.to_nat lo - Z.to_nat lo `min` length content)%nat with 0%nat by lia.
  rewrite drop_ge by (rewrite length_take; lia). simpl. rewrite app_nil_r.
  unfold slice. rewrite take_take_drop. f_equal. lia.
Qed.

Lemma store_serves content : serves (store content) content.
Proof.
  intros lo hi Hlo Hhi. exists [slice content lo hi]. split; [done|]. split.
  - constructor; [|done]. intros Hnil.
    pose proof (slice_length content lo hi Hlo Hhi) as Hlen. rewrite Hnil in Hlen.
    simpl in Hlen. lia.
  - simpl. by rewrite app_nil_r.
Qed.

Section Pool.
Context (E : env).

(** *** The chunks of the pool *)

Lemma run_chunk_app a b w :
  run_chunk E (a ++ b) w
  = match run_chunk E a w with
    | (Ok _, w') => run_chunk E b w'
    | (Raise e, w') => (Raise e, w')
    end.
Proof.
  revert w. induction a as [|t a IH]; intros w; [done|]. simpl. unfold mbind, M_bind.
  destruct (do_part_download E t w) as [[[] | e] w1]; [apply IH | done].
Qed.

Lemma run_chunks_ok chunks : ∀ w w',
  run_chunk E (concat chunks) w = (Ok (), w') →
  run_chunks E chunks None w = (Ok None, w').
Proof.
  induction chunks as [|c rest IH]; intros w w' Hrun; simpl in *.
  - by injection Hrun as <-.
  - rewrite run_chunk_app in Hrun. unfold mbind, M_bind, attempt.
    destruct (run_chunk E c w) as [[[] | e] w1]; [by apply IH | done].
Qed.

Lemma concat_chunked {A} (size : nat) : ∀ (fuel : nat) (l : list A),
  (0 < size)%nat → (length l ≤ fuel)%nat → concat (chunked size fuel l) = l.
Proof.
  induction fuel as [|fuel IH]; intros l Hsize Hfuel.
  - destruct l; [done | simpl in Hfuel; lia].
  - destruct l as [|x l]; [done|].
    change (chunked size (S fuel) (x :: l))
      with (take size (x :: l) :: chunked size fuel (drop size (x :: l))).
    simpl concat. rewrite IH; [apply take_drop | done |].
    rewrite length_drop. simpl in *. lia.
Qed.

Lemma chunksize_pos (tasks : nat) (processes : Z) :
  (0 < tasks)%nat → 1 ≤ processes → (0 < chunksize tasks processes)%nat.
Proof.
  intros Htasks Hproc. unfold chunksize. set (d := (Z.to_nat processes * 4)%nat).
  assert (0 < d)%nat by (unfold d; lia).
  case_decide as Hmod; [|lia].
  pose proof (Nat.div_mod_eq tasks d). nia.
Qed.

(** When no task raises, the pool has run the tasks in their order. *)
Lemma map_async_get_ok processes tasks w w' :
  sigint E = None →
  1 ≤ processes →
  run_chunk E tasks w = (Ok (), w') →
  map_async_get E processes tasks w = (Ok (), w').
Proof.
  intros Hsig Hproc Hrun. unfold map_async_get. rewrite Hsig.
  destruct tasks as [|t tasks].
  { simpl in *. injection Hrun as <-. done. }
  unfold mbind, M_bind. erewrite run_chunks_ok; [done|].
  rewrite concat_chunked; [done | apply chunksize_pos; [simpl; lia | done] | done].
Qed.

(** *** The tasks of a plan, one after the other *)

Lemma do_part_download_ok t w f content :
  (∀ n, cancel_seen E n = false) →
  stop w = false →
  files w !! fname t = Some f →
  0 ≤ min_byte t →
  delivers content (get_reply E (min_byte t) (max_byte t) (current_tries t)) →
  do_part_download E t w = (Ok (), fetched E t f w) ∧
  files (fetched E t f w) = <[fname t := write_at f (min_byte t) content]> (files w) ∧
  dirs (fetched E t f w) = dirs w ∧
  stop (fetched E t f w) = false ∧
  total (queue (fetched E t f w))
  = total (queue w) + (if queue_on t then Z.of_nat (length content) else 0) ∧
  ∃ evs, trace (fetched E t f w) = trace w ++ evs ∧
         count is_request evs = 1%nat ∧ count is_sleep evs = 0%nat ∧
         count is_set_call evs = 0%nat.
Proof.
  intros Hquiet Hstop Hf Hmin (chunks & Hreply & Hchunks & Hcontent).
  split.
  { rewrite (do_part_download_attempt E t w f); try done; rewrite Hreply; done. }
  unfold fetched. rewrite Hreply. simpl delivered. unfold written, observed. simpl.
  rewrite Hcontent. split; [done|]. split; [done|]. split; [done|]. split.
  - rewrite total_app. unfold credit. destruct (queue_on t); [|simpl; lia].
    by rewrite total_lengths, Hcontent.
  - eexists. split; [by rewrite <-app_assoc|]. simpl.
    rewrite !count_is_sets by done. done.
Qed.

Section Plan.
Context (o : options) (bucket_name key_name dest : string) (split : Z).
Context (content : list byte).
Hypothesis Hquiet : ∀ n, cancel_seen E n = false.
Hypothesis Hserves : serves E content.

Lemma run_chunk_plan plan : ∀ lo w,
  Planner.contiguous_from lo plan →
  0 ≤ lo →
  Planner.plan_end lo plan ≤ Z.of_nat (length content) →
  stop w = false →
  files w !! dest = Some (take (Z.to_nat lo) content) →
  ∃ w',
    run_chunk E (arg_iterator o bucket_name key_name dest split plan) w = (Ok (), w') ∧
    files w' = <[dest := take (Z.to_nat (Planner.plan_end lo plan)) content]> (files w) ∧
    dirs w' = dirs w ∧
    stop w' = false ∧
    total (queue w')
    = total (queue w) + (if show_progress o then Planner.plan_end lo plan - lo else 0) ∧
    ∃ evs, trace w' = trace w ++ evs ∧
           count is_request evs = length plan ∧ count is_sleep evs = 0%nat ∧
           count is_set_call evs = 0%nat.
Proof.
  induction plan as [|r rest IH]; intros lo w Hplan Hlo Hend Hstop Hf.
  - exists w. simpl. rewrite insert_id by done. repeat split; try done.
    + destruct (show_progress o); lia.
    + exists []. by rewrite app_nil_r.
  - destruct r as [start end_]. simpl in Hplan, Hend. destruct Hplan as (-> & Hle & Hrest).
    pose proof (PlannerFacts.contiguous_end_ge _ _ Hrest) as Hge.
    set (t := Task bucket_name key_name dest lo end_ split (Coordinator.secure o)
                   (Coordinator.max_tries o) 0 (public o) (Coordinator.region o)
                   (show_progress o)).
    change (arg_iterator o bucket_name key_name dest split ((lo, end_) :: rest))
      with (t :: arg_iterator o bucket_name key_name dest split rest).
    destruct (do_part_download_ok t w (take (Z.to_nat lo) content) (slice content lo end_))
      as (Hrun & Hfiles & Hdirs & Hstop1 & Hqueue & evs1 & Htrace1 & Hreq1 & Hsl1 & Hset1);
      [done | done | done | done | apply Hserves; simpl; lia |].
    set (w1 := fetched E t (take (Z.to_nat lo) content) w) in *.
    simpl fname in Hfiles. simpl min_byte in Hfiles. simpl queue_on in Hqueue.
    rewrite write_at_take_slice in Hfiles by lia.
    rewrite slice_length in Hqueue by lia.
    destruct (IH (end_ + 1) w1) as
      (w' & Hrun' & Hfiles' & Hdirs' & Hstop' & Hqueue' & evs' & Htrace' & Hreq' & Hsl'
       & Hset'); [done | lia | done | done | by rewrite Hfiles, lookup_insert_eq |].
    exists w'. simpl run_chunk. unfold mbind, M_bind. rewrite Hrun.
    split; [done|]. split.
    { simpl Planner.plan_end. by rewrite Hfiles', Hfiles, insert_insert_eq. }
    split; [congruence|]. split; [done|]. split.
    { simpl Planner.plan_end. rewrite Hqueue', Hqueue. destruct (show_progress o); lia. }
    exists (evs1 ++ evs'). rewrite Htrace', Htrace1, app_assoc, !count_app.
    rewrite Hreq1, Hreq', Hsl1, Hsl', Hset1, Hset'. done.
Qed.

(** The [try] block, when every part arrives at the first attempt. *)
Lemma parallel_body_ok num_parts w :
  sigint E = None →
  1 ≤ num_processes o →
  0 < Z.of_nat (length content) < 2 ^ 53 →
  1 ≤ num_parts →
  Planner.last_part_inside (Z.of_nat (length content)) num_parts →
  stop w = false →
  files w !! dest = Some [] →
  ∃ w',
    parallel_body E o bucket_name key_name dest (Z.of_nat (length content)) split
      num_parts w = (Ok (), w') ∧
    files w' = <[dest := content]> (files w) ∧
    dirs w' = dirs w ∧
    stop w' = show_progress o ∧
    total (queue w')
    = total (queue w) + (if show_progress o then Z.of_nat (length content) else 0) ∧
    ∃ evs, trace w' = trace w ++ evs ∧
           count is_request evs = Z.to_nat num_parts ∧ count is_sleep evs = 0%nat.
Proof.
  intros Hsig Hproc Hsize Hparts Hlast Hstop Hf.
  set (size := Z.of_nat (length content)) in *.
  pose proof (PlannerFacts.gen_loop_valid size num_parts ltac:(lia) ltac:(lia) Hlast)
    as Hvalid.
  pose proof (PlannerFacts.last_part_inside_le size num_parts ltac:(lia) ltac:(lia) Hlast)
    as Hle.
  set (plan := Planner.gen_loop size (Planner.ceil_div size num_parts) 0
                 (Z.to_nat num_parts)) in *.
  assert (Planner.plan_end 0 plan = size) as Hend.
  { pose proof (PlannerFacts.contiguous_total 0 plan (Planner.vp_contiguous _ _ Hvalid)).
    pose proof (Planner.vp_total _ _ Hvalid). lia. }
  unfold parallel_body. rewrite decide_False by lia.
  rewrite PlannerFacts.gen_byte_ranges_exact by lia. fold plan.
  unfold mbind at 1 2 3 4 5, M_bind at 1 2 3 4 5. unfold emit at 1 2, lift. simpl.
  set (w0 := World _ _ _ _ _ _).
  destruct (run_chunk_plan plan 0 w0) as
    (w1 & Hrun & Hfiles & Hdirs & Hstop1 & Hqueue & evs & Htrace & Hreq & Hsl & _).
  { apply Hvalid. }
  { done. }
  { rewrite Hend. unfold size. lia. }
  { done. }
  { done. }
  rewrite (map_async_get_ok _ _ _ _ Hsig Hproc Hrun). run.
  rewrite Hstop1, Hquiet. simpl.
  assert (take (Z.to_nat (Planner.plan_end 0 plan)) content = content) as Htake
    by (apply take_ge; rewrite Hend; unfold size; lia).
  rewrite Htake in Hfiles. rewrite Hend, Z.sub_0_r in Hqueue.
  unfold plan in Hreq. rewrite PlannerFacts.gen_loop_length in Hreq.
  destruct (show_progress o); simpl;
    (eexists; split; [reflexivity|]; simpl; split; [done|]; split; [done|]; split; [done|];
     split; [done|]; rewrite Htrace; simpl; eexists; rewrite <-!app_assoc;
     split; [reflexivity|]; simpl; rewrite !count_app, Hreq, Hsl; simpl; lia).
Qed.

End Plan.

(** [main] from the creation of the empty file on, for a destination that is
    not there. *)
Lemma download_parallel_ok o bucket_name key_name dest content w :
  (∀ n, cancel_seen E n = false) →
  serves E content →
  sigint E = None →
  1 ≤ num_processes o →
  0 < Z.of_nat (length content) < 2 ^ 53 →
  - 2 ^ 53 < Coordinator.split o < 2 ^ 53 →
  creatable E w dest →
  files w !! dest = None →
  ∃ w' num_parts,
    compute_num_parts (Z.of_nat (length content)) (Coordinator.split o) = Ok num_parts ∧
    download_parallel E o bucket_name key_name dest (Z.of_nat (length content)) w
    = (Ok (), w') ∧
    files w' = <[dest := content]> (files w) ∧
    dirs w' = dirs w ∧
    stop w' = show_progress o ∧
    (show_progress o = true → total (queue w') = Z.of_nat (length content)) ∧
    ∃ evs, trace w' = trace w ++ evs ∧
           count is_request evs = Z.to_nat num_parts ∧ count is_sleep evs = 0%nat.
Proof.
  intros Hquiet Hserves Hsig Hproc Hsize Hsplit Hcreate Hf.
  destruct (compute_num_parts_ok (Z.of_nat (length content)) (Coordinator.split o)
              Hsize Hsplit) as (num_parts & Hparts & Hpos & Hlast).
  unfold download_parallel. unfold mbind at 1, M_bind at 1.
  rewrite (os_create_new E w dest Hcreate Hf). run. rewrite Hparts. simpl.
  unfold queue_new, event_new.
  destruct (show_progress o) eqn:Hshow; simpl.
  - set (w0 := World _ _ _ _ _ _).
    destruct (parallel_body_ok o bucket_name key_name dest
                (effective_split (Coordinator.split o)) content Hquiet Hserves
                num_parts w0) as
      (w' & Hrun & Hfiles & Hdirs & Hstop & Hqueue & evs & Htrace & Hreq & Hsl);
      [done | done | done | lia | done | done | by apply lookup_insert_eq |].
    rewrite Hrun. exists w', num_parts. split; [done|]. split; [done|].
    rewrite Hshow in *.
    split; [by rewrite Hfiles; simpl; rewrite insert_insert_eq|].
    split; [done|]. split; [done|]. split; [intros _; rewrite Hqueue; simpl; lia|].
    eexists. rewrite Htrace. simpl. rewrite <-!app_assoc. split; [reflexivity|].
    rewrite !count_app, Hreq, Hsl. simpl. lia.
  - set (w0 := World _ _ _ _ _ _).
    destruct (parallel_body_ok o bucket_name key_name dest
                (effective_split (Coordinator.split o)) content Hquiet Hserves
                num_parts w0) as
      (w' & Hrun & Hfiles & Hdirs & Hstop & Hqueue & evs & Htrace & Hreq & Hsl);
      [done | done | done | lia | done | done | by apply lookup_insert_eq |].
    rewrite Hrun. exists w', num_parts. split; [done|]. split; [done|].
    rewrite Hshow in *.
    split; [by rewrite Hfiles; simpl; rewrite insert_insert_eq|].
    split; [done|]. split; [done|]. split; [done|].
    eexists. rewrite Htrace. simpl. rewrite <-!app_assoc. split; [reflexivity|].
    rewrite !count_app, Hreq, Hsl. simpl. lia.
Qed.

(** *** What the pool leaves alone, and how it ends *)

Lemma run_chunks_returns chunks : ∀ first w,
  ∃ first', (run_chunks E chunks first w).1 = Ok first' ∧
            (∀ e, first = Some e → first' = Some e).
Proof.
  induction chunks as [|c rest IH]; intros first w; simpl.
  - exists first. done.
  - unfold mbind, M_bind, attempt. destruct (run_chunk E c w) as [r w1].
    destruct first as [e0|], r as [[] | e1]; simpl;
      match goal with
      | |- context [run_chunks E rest ?f w1] =>
          destruct (IH f w1) as (first' & Hrun & Hkeep)
      end;
      exists first'; (split; [exact Hrun|]); intros e He; try done; by apply Hkeep.
Qed.

Lemma Forall_chunked {A} (P : A → Prop) size : ∀ fuel l,
  Forall P l → Forall (Forall P) (chunked size fuel l).
Proof.
  induction fuel as [|fuel IH]; intros l Hl; [by destruct l|].
  destruct l as [|x l]; [done|].
  change (chunked size (S fuel) (x :: l))
    with (take size (x :: l) :: chunked size fuel (drop size (x :: l))).
  constructor; [by apply Forall_take | by apply IH, Forall_drop].
Qed.

Lemma Forall_arg_iterator o bucket_name key_name dest split plan :
  Forall (λ t, fname t = dest) (arg_iterator o bucket_name key_name dest split plan).
Proof. unfold arg_iterator. apply Forall_fmap, Forall_true. done. Qed.

Section PoolFrame.
Context (dest : string).

Lemma frame_run_chunk tasks :
  Forall (λ t, fname t = dest) tasks →
  preserved (writes_within dest anywhere) (run_chunk E tasks).
Proof.
  induction 1 as [|t rest Ht _ IH]; simpl; [frame|].
  pose proof (do_part_download_keeps_files E t) as Hkeep. rewrite Ht in Hkeep. frame.
Qed.

Lemma frame_run_chunks chunks :
  Forall (Forall (λ t, fname t = dest)) chunks →
  ∀ first, preserved (writes_within dest anywhere) (run_chunks E chunks first).
Proof.
  induction 1 as [|c rest Hc _ IH]; intros first; simpl; [frame|].
  pose proof (frame_run_chunk c Hc). frame.
Qed.

Lemma frame_map_async_get processes tasks :
  Forall (λ t, fname t = dest) tasks →
  preserved (writes_within dest anywhere) (map_async_get E processes tasks).
Proof.
  intros Htasks. unfold map_async_get.
  pose proof (Forall_chunked _ (chunksize (length tasks) processes) (length tasks) tasks
                Htasks) as Hchunks.
  pose proof (frame_run_chunks _ Hchunks).
  destruct (sigint E) as [finished|].
  - pose proof (frame_run_chunks _ (Forall_take _ finished _ Hchunks)). frame.
  - frame.
Qed.

Lemma frame_parallel_body o bucket_name key_name size split num_parts :
  preserved (writes_within dest anywhere)
    (parallel_body E o bucket_name key_name dest size split num_parts).
Proof.
  unfold parallel_body.
  pose proof (λ plan, frame_map_async_get (num_processes o) _
                        (Forall_arg_iterator o bucket_name key_name dest split plan)).
  frame.
Qed.

End PoolFrame.

(** [main] from the creation of the empty file to the [try] block. *)
Lemma download_parallel_start o bucket_name key_name dest size w :
  0 < size < 2 ^ 53 →
  - 2 ^ 53 < Coordinator.split o < 2 ^ 53 →
  creatable E w dest →
  files w !! dest = None →
  ∃ num_parts,
    compute_num_parts size (Coordinator.split o) = Ok num_parts ∧
    1 ≤ num_parts ≤ size ∧
    download_parallel E o bucket_name key_name dest size w
    = match parallel_body E o bucket_name key_name dest size
              (effective_split (Coordinator.split o)) num_parts (started o dest w) with
      | (Ok _, w') => (Ok (), w')
      | (Raise (KeyboardInterrupt _), w') =>
          on_keyboard_interrupt o dest (bool_decide (1 ≤ num_processes o)) w'
      | (Raise err, w') =>
          if is_Exception err then on_exception (bool_decide (1 ≤ num_processes o)) w'
          else (Raise err, w')
      end.
Proof.
  intros Hsize Hsplit Hcreate Hf.
  destruct (compute_num_parts_ok size (Coordinator.split o) Hsize Hsplit)
    as (num_parts & Hparts & Hpos & _).
  exists num_parts. split; [done|]. split; [done|].
  unfold download_parallel. unfold mbind at 1, M_bind at 1.
  rewrite (os_create_new E w dest Hcreate Hf). run. rewrite Hparts. simpl.
  unfold queue_new, event_new, started.
  destruct (show_progress o); simpl; rewrite <-?app_assoc; simpl.
  all: (destruct (parallel_body _ _ _ _ _ _ _ _ _) as [[[] | e] w']; [done | by destruct e]).
Qed.

Lemma on_keyboard_interrupt_run o dest w f :
  files w !! dest = Some f →
  ∃ w', on_keyboard_interrupt o dest true w = (Raise (SystemExit 1), w') ∧
        files w' = (if clean o then delete dest (files w) else files w) ∧
        dirs w' = dirs w ∧ stop w' = true ∧
        ∃ evs, trace w' = trace w ++ evs ∧ count is_request evs = 0%nat.
Proof.
  intros Hf. unfold on_keyboard_interrupt. run.
  destruct (show_progress o), (clean o); run;
    unfold path_exists; simpl; rewrite ?Hf;
    try rewrite (bool_decide_eq_true_2 (is_Some (Some f))) by done; rewrite ?orb_true_r;
    unfold os_remove; run; rewrite ?Hf; simpl;
    (eexists; split; [reflexivity|]; simpl; repeat (split; [done|]);
     eexists; rewrite <-?app_assoc; split; [reflexivity|]; done).
Qed.

Lemma on_exception_run has_pool w :
  ∃ w', on_exception has_pool w = (Raise (SystemExit 1), w') ∧
        files w' = files w ∧ dirs w' = dirs w ∧ stop w' = true ∧
        ∃ evs, trace w' = trace w ++ evs ∧ count is_request evs = 0%nat.
Proof.
  unfold on_exception. run.
  destruct has_pool; run; (eexists; split; [reflexivity|]; simpl;
    repeat (split; [done|]); eexists; rewrite <-?app_assoc; split; [reflexivity|]; done).
Qed.

(** CTRL+C while the coordinator waits for the pool. *)
Lemma parallel_body_interrupted o bucket_name key_name dest size split num_parts w finished :
  sigint E = Some finished →
  1 ≤ num_processes o →
  0 < size < 2 ^ 53 →
  1 ≤ num_parts ≤ size →
  (parallel_body E o bucket_name key_name dest size split num_parts w).1
  = Raise (KeyboardInterrupt "").
Proof.
  intros Hsig Hproc Hsize Hparts. unfold parallel_body. rewrite decide_False by lia.
  rewrite PlannerFacts.gen_byte_ranges_exact by lia.
  unfold map_async_get. rewrite Hsig. run.
  match goal with
  | |- context [run_chunks E ?chunks None ?w0] =>
      destruct (run_chunks_returns chunks None w0) as (first' & Hrun & _);
      destruct (run_chunks E chunks None w0) as [r w1]
  end.
  simpl in Hrun. by rewrite Hrun.
Qed.

(** The pool keeps the error of the first task when that task raises. *)
Lemma run_chunks_first_error size fuel t tasks w e w1 :
  (0 < size)%nat →
  do_part_download E t w = (Raise e, w1) →
  (run_chunks E (chunked size (S fuel) (t :: tasks)) None w).1 = Ok (Some e).
Proof.
  intros Hsize Hrun.
  change (chunked size (S fuel) (t :: tasks))
    with (take size (t :: tasks) :: chunked size fuel (drop size (t :: tasks))).
  destruct size as [|size]; [lia|]. simpl take. simpl run_chunks.
  unfold mbind, M_bind, attempt. simpl run_chunk. unfold mbind, M_bind. rewrite Hrun.
  destruct (run_chunks_returns (chunked (S size) fuel (drop size tasks))
              (Some e) w1) as (first' & Hrest & Hkeep).
  rewrite Hrest. f_equal. by apply Hkeep.
Qed.

(** Every request fails: the error of the first part ends the [try] block. *)
Lemma parallel_body_unreachable o bucket_name key_name dest size split num_parts w :
  unreachable E →
  (∀ n, cancel_seen E n = false) →
  sigint E = None →
  1 ≤ num_processes o →
  0 < size < 2 ^ 53 →
  1 ≤ num_parts ≤ size →
  0 ≤ Coordinator.max_tries o →
  stop w = false →
  is_Some (files w !! dest) →
  ∃ e, (parallel_body E o bucket_name key_name dest size split num_parts w).1 = Raise e ∧
       is_Exception e = true.
Proof.
  intros Hfail Hquiet Hsig Hproc Hsize Hparts Htries Hstop [f Hf].
  unfold parallel_body. rewrite decide_False by lia.
  rewrite PlannerFacts.gen_byte_ranges_exact by lia.
  destruct (Z.to_nat num_parts) as [|todo] eqn:Htodo; [lia|].
  simpl Planner.gen_loop.
  set (r0 := (Planner.ceil_div size num_parts * 0,
              Z.min (Planner.ceil_div size num_parts * (0 + 1) - 1) (size - 1))).
  set (rest := Planner.gen_loop _ _ _ todo).
  set (t := Task bucket_name key_name dest r0.1 r0.2 split (Coordinator.secure o)
                 (Coordinator.max_tries o) 0 (public o) (Coordinator.region o)
                 (show_progress o)).
  change (arg_iterator o bucket_name key_name dest split (r0 :: rest))
    with (t :: arg_iterator o bucket_name key_name dest split rest).
  unfold mbind at 1 2 3 4, M_bind at 1 2 3 4. unfold emit at 1 2, lift. simpl.
  set (w0 := World _ _ _ _ _ _).
  destruct (do_part_download_raises E (Z.to_nat (Coordinator.max_tries o + 1)) t w0 f)
    as (e & He & Hclass); [done | done | done | simpl; lia | simpl; lia | |].
  { intros tries. apply Hfail. }
  destruct (do_part_download E t w0) as [r w1] eqn:Hrun. simpl in He. subst r.
  exists e. split; [|done].
  unfold map_async_get. rewrite Hsig.
  pose proof (run_chunks_first_error
                (chunksize (S (length (arg_iterator o bucket_name key_name dest split rest)))
                   (num_processes o))
                (length (arg_iterator o bucket_name key_name dest split rest)) t
                (arg_iterator o bucket_name key_name dest split rest) w0 e w1
                ltac:(apply chunksize_pos; lia) Hrun) as Hfirst.
  unfold mbind at 1, M_bind at 1. simpl length.
  destruct (run_chunks _ _ _ _) as [first w2]. simpl in Hfirst. subst first. done.
Qed.

(** The stop event is set before the workers start: every task returns at
    its first observation. *)
Lemma run_chunk_stopped tasks : ∀ w,
  (∀ n, cancel_seen E n = true) →
  ∃ w', run_chunk E tasks w = (Ok (), w') ∧
        files w' = files w ∧ dirs w' = dirs w ∧
        ∃ evs, trace w' = trace w ++ evs ∧ count is_request evs = 0%nat.
Proof.
  intros w Hset. revert w. induction tasks as [|t rest IH]; intros w.
  - exists w. split; [done|]. split; [done|]. split; [done|]. exists []. by rewrite app_nil_r.
  - simpl. unfold mbind at 1, M_bind at 1.
    rewrite do_part_download_equation_1. run. rewrite Hset, orb_true_r. simpl.
    set (w1 := World _ _ _ _ _ _).
    destruct (IH w1) as (w' & Hrun & Hfiles & Hdirs & evs & Htrace & Hreq).
    exists w'. split; [done|]. split; [done|]. split; [done|].
    exists (EvStop OpIsSet :: evs). rewrite Htrace. simpl. by rewrite <-app_assoc.
Qed.

Lemma parallel_body_stopped o bucket_name key_name dest size split num_parts w :
  (∀ n, cancel_seen E n = true) →
  sigint E = None →
  1 ≤ num_processes o →
  0 < size < 2 ^ 53 →
  1 ≤ num_parts ≤ size →
  ∃ w', parallel_body E o bucket_name key_name dest size split num_parts w
        = (Raise (KeyboardInterrupt "Stopped by user via 'q'"), w') ∧
        files w' = files w ∧ dirs w' = dirs w ∧
        ∃ evs, trace w' = trace w ++ evs ∧ count is_request evs = 0%nat.
Proof.
  intros Hset Hsig Hproc Hsize Hparts. unfold parallel_body. rewrite decide_False by lia.
  rewrite PlannerFacts.gen_byte_ranges_exact by lia.
  unfold mbind at 1 2 3 4 5, M_bind at 1 2 3 4 5. unfold emit at 1 2, lift. simpl.
  set (w0 := World _ _ _ _ _ _).
  match goal with
  | |- context [map_async_get E _ ?tasks w0] =>
      destruct (run_chunk_stopped tasks w0 Hset)
        as (w1 & Hrun & Hfiles & Hdirs & evs & Htrace & Hreq);
      rewrite (map_async_get_ok _ _ _ _ Hsig Hproc Hrun)
  end.
  run. rewrite Hset, orb_true_r. simpl. eexists. split; [reflexivity|]. simpl.
  split; [done|]. split; [done|]. rewrite Htrace. simpl. eexists.
  rewrite <-!app_assoc. split; [reflexivity|]. rewrite !count_app, Hreq. done.
Qed.

(** Fewer than one process: the pool cannot be made. *)
Lemma parallel_body_no_pool o bucket_name key_name dest size split num_parts w :
  num_processes o < 1 →
  parallel_body E o bucket_name key_name dest size split num_parts w
  = (Raise (ValueError "Number of processes must be at least 1"), w).
Proof. intros Hproc. unfold parallel_body. by rewrite decide_True. Qed.

End Pool.

Section MainRuns.
Context (urlsplit : string → split_result) (E : env).

Lemma passes_validation_cleared o w :
  passes_validation urlsplit o w →
  destination urlsplit o w ∉ dirs w →
  files (cleared urlsplit o w) !! destination urlsplit o w = None ∧
  dirs (cleared urlsplit o w) = dirs w ∧
  ∀ x, <[destination urlsplit o w := x]> (files (cleared urlsplit o w))
       = <[destination urlsplit o w := x]> (files w).
Proof.
  intros [_ Hd] Hdir. unfold cleared, path_exists in *.
  rewrite (bool_decide_eq_false_2 _ Hdir) in *. simpl in *.
  destruct (bool_decide (is_Some (files w !! destination urlsplit o w))) eqn:Hfile; simpl.
  - split; [apply lookup_delete_eq|]. split; [done|]. intros x. apply insert_delete_eq.
  - apply bool_decide_eq_false in Hfile. split; [by apply eq_None_not_Some|]. done.
Qed.


Lemma main_parallel o w size :
  passes_validation urlsplit o w →
  creatable E w (destination urlsplit o w) →
  head_reply E = HeadOk size →
  1024 * 1024 ≤ size < 2 ^ 53 →
  - 2 ^ 53 < Coordinator.split o < 2 ^ 53 →
  let dest := destination urlsplit o w in
  let w0 := logged (cleared urlsplit o w)
              [client_event o; EvHeadObject (bucket_of urlsplit o) (key_of urlsplit o)] in
  ∃ num_parts,
    compute_num_parts size (Coordinator.split o) = Ok num_parts ∧
    1 ≤ num_parts ≤ size ∧
    main urlsplit E o w
    = match parallel_body E o (bucket_of urlsplit o) (key_of urlsplit o) dest size
              (effective_split (Coordinator.split o)) num_parts (started o dest w0) with
      | (Ok _, w') => (Ok (), w')
      | (Raise (KeyboardInterrupt _), w') =>
          on_keyboard_interrupt o dest (bool_decide (1 ≤ num_processes o)) w'
      | (Raise err, w') =>
          if is_Exception err then on_exception (bool_decide (1 ≤ num_processes o)) w'
          else (Raise err, w')
      end.
Proof.
  intros Hv Hcreate Hhead Hsize Hsplit dest w0.
  pose proof Hcreate as (Hdir & _).
  destruct (passes_validation_cleared o w Hv Hdir) as (Hnone & Hdirs & Hinsert).
  destruct (download_parallel_start E o (bucket_of urlsplit o) (key_of urlsplit o)
              dest size w0) as (num_parts & Hparts & Hpos & Hrun);
    [lia | done | by apply (creatable_dirs E w); [simpl; rewrite Hdirs|] | done |].
  exists num_parts. split; [done|]. split; [done|].
  rewrite main_head by done. unfold query_size. run. rewrite Hhead.
  rewrite decide_False by lia. rewrite <-app_assoc. exact Hrun.
Qed.

(** X14. CTRL+C during a download. When the coordinator is interrupted while
    it waits for the pool, [main] sets the stop event and exits with status
    1. With the clean option the destination file is removed; without it the
    file stays, with what the workers wrote. No other file has changed. The
    destination can be created, the object has less than 2^53 bytes and the
    split option is between -2^53 and 2^53. *)
Theorem main_interrupted (o : options) (w : world) (size : Z) (finished : nat) :
  passes_validation urlsplit o w →
  creatable E w (destination urlsplit o w) →
  head_reply E = HeadOk size →
  1024 * 1024 ≤ size < 2 ^ 53 →
  - 2 ^ 53 < Coordinator.split o < 2 ^ 53 →
  sigint E = Some finished →
  1 ≤ num_processes o →
  exits_with_1 (main urlsplit E o w) ∧
  (if clean o then files (main urlsplit E o w).2 !! destination urlsplit o w = None
   else is_Some (files (main urlsplit E o w).2 !! destination urlsplit o w)) ∧
  (∀ p, p ≠ destination urlsplit o w →
        files (main urlsplit E o w).2 !! p = files w !! p) ∧
  dirs (main urlsplit E o w).2 = dirs w.
Proof.
  intros Hv Hcreate Hhead Hsize Hsplit Hsig Hproc.
  pose proof Hcreate as (Hdir & _).
  destruct (passes_validation_cleared o w Hv Hdir) as (Hnone & Hdirs & Hinsert).
  destruct (main_parallel o w size Hv Hcreate Hhead Hsize Hsplit)
    as (num_parts & _ & Hpos & ->).
  set (dest := destination urlsplit o w) in *.
  set (w1 := started o dest _).
  pose proof (parallel_body_interrupted E o (bucket_of urlsplit o) (key_of urlsplit o)
                dest size (effective_split (Coordinator.split o)) num_parts w1 finished
                Hsig Hproc ltac:(lia) Hpos) as Hraise.
  pose proof (frame_parallel_body E dest o (bucket_of urlsplit o) (key_of urlsplit o)
                size (effective_split (Coordinator.split o)) num_parts w1) as Hframe.
  destruct (parallel_body _ _ _ _ _ _ _ _ _) as [r w2]. simpl in Hraise, Hframe. subst r.
  destruct Hframe as (Hd2 & Hother & Hdest).
  assert (files w1 !! dest = Some []) as Hf1 by apply lookup_insert_eq.
  rewrite Hf1 in Hdest. destruct Hdest as (f2 & Hf2 & _).
  rewrite bool_decide_eq_true_2 by done.
  destruct (on_keyboard_interrupt_run o dest w2 f2 Hf2) as (w3 & -> & Hf3 & Hd3 & Hs3 & _).
  split; [done|]. simpl. rewrite Hf3. split.
  - destruct (clean o); [apply lookup_delete_eq | by rewrite Hf2].
  - split; [|by rewrite Hd3, Hd2].
    intros p Hp.
    assert (files w2 !! p = files w !! p) as <-.
    { rewrite Hother by done. unfold w1, started. simpl. rewrite lookup_insert_ne by done.
      unfold cleared. destruct (path_exists w _); [|done]. simpl.
      by rewrite lookup_delete_ne. }
    destruct (clean o); [by rewrite lookup_delete_ne | done].
Qed.


(** X16. When the stop event is set before the workers start, as by the key
    q, no range is requested: every worker returns at once, and [main], which
    finds the event set after the pool has finished, exits with status 1 as
    for CTRL+C. The destination file is removed with the clean option, and
    stays empty without it. The destination can be created, the object has
    less than 2^53 bytes and the split option is between -2^53 and 2^53. *)
Theorem main_stopped_early (o : options) (w : world) (size : Z) :
  passes_validation urlsplit o w →
  creatable E w (destination urlsplit o w) →
  head_reply E = HeadOk size →
  1024 * 1024 ≤ size < 2 ^ 53 →
  - 2 ^ 53 < Coordinator.split o < 2 ^ 53 →
  (∀ n, cancel_seen E n = true) →
  sigint E = None →
  1 ≤ num_processes o →
  exits_with_1 (main urlsplit E o w) ∧
  files (main urlsplit E o w).2 !! destination urlsplit o w
  = (if clean o then None else Some []) ∧
  (∀ p, p ≠ destination urlsplit o w →
        files (main urlsplit E o w).2 !! p = files w !! p) ∧
  count is_request (new_events w (main urlsplit E o w)) = 0%nat.
Proof.
  intros Hv Hcreate Hhead Hsize Hsplit Hset Hsig Hproc.
  pose proof Hcreate as (Hdir & _).
  destruct (passes_validation_cleared o w Hv Hdir) as (Hnone & Hdirs & Hinsert).
  destruct (cleared_same urlsplit o w) as (Htrace0 & _ & _).
  unfold new_events.
  destruct (main_parallel o w size Hv Hcreate Hhead Hsize Hsplit)
    as (num_parts & _ & Hpos & ->).
  set (dest := destination urlsplit o w) in *.
  set (w1 := started o dest _).
  destruct (parallel_body_stopped E o (bucket_of urlsplit o) (key_of urlsplit o) dest size
              (effective_split (Coordinator.split o)) num_parts w1 Hset Hsig Hproc
              ltac:(lia) Hpos)
    as (w2 & -> & Hf2 & Hd2 & evs & Ht2 & Hreq).
  assert (files w2 !! dest = Some []) as Hdest
    by (rewrite Hf2; apply lookup_insert_eq).
  rewrite bool_decide_eq_true_2 by done.
  destruct (on_keyboard_interrupt_run o dest w2 [] Hdest)
    as (w3 & -> & Hf3 & Hd3 & Hs3 & evs3 & Ht3 & Hreq3).
  simpl. split; [done|]. rewrite Hf3. split.
  { destruct (clean o); [apply lookup_delete_eq | done]. }
  split.
  - intros p Hp.
    assert (files w2 !! p = files w !! p) as <-.
    { rewrite Hf2. unfold w1, started. simpl. rewrite lookup_insert_ne by done.
      unfold cleared. destruct (path_exists w _); [|done]. simpl.
      by rewrite lookup_delete_ne. }
    destruct (clean o); [by rewrite lookup_delete_ne | done].
  - rewrite Ht3, Ht2. unfold w1, started. simpl. rewrite Htrace0.
    rewrite <-!app_assoc, drop_app_length, !count_app, Hreq, Hreq3.
    by destruct (show_progress o).
Qed.

(** X17. With fewer than one process [main] exits with status 1 before any
    range is requested. The empty destination file it has created by then
    stays, whatever the clean option says. The destination can be created,
    the object has less than 2^53 bytes and the split option is between
    -2^53 and 2^53. *)
Theorem main_no_processes (o : options) (w : world) (size : Z) :
  passes_validation urlsplit o w →
  creatable E w (destination urlsplit o w) →
  head_reply E = HeadOk size →
  1024 * 1024 ≤ size < 2 ^ 53 →
  - 2 ^ 53 < Coordinator.split o < 2 ^ 53 →
  num_processes o < 1 →
  exits_with_1 (main urlsplit E o w) ∧
  files (main urlsplit E o w).2 = <[destination urlsplit o w := []]> (files w) ∧
  count is_request (new_events w (main urlsplit E o w)) = 0%nat.
Proof.
  intros Hv Hcreate Hhead Hsize Hsplit Hproc.
  pose proof Hcreate as (Hdir & _).
  destruct (passes_validation_cleared o w Hv Hdir) as (Hnone & Hdirs & Hinsert).
  destruct (cleared_same urlsplit o w) as (Htrace0 & _ & _).
  unfold new_events.
  destruct (main_parallel o w size Hv Hcreate Hhead Hsize Hsplit)
    as (num_parts & _ & Hpos & ->).
  rewrite parallel_body_no_pool by done. simpl is_Exception. cbv iota.
  rewrite bool_decide_eq_false_2 by lia.
  match goal with
  | |- context [on_exception false ?w1] =>
      destruct (on_exception_run false w1) as (w2 & -> & Hf2 & Hd2 & Hs2 & evs & Ht2 & Hreq)
  end.
  split; [done|]. simpl. rewrite Hf2, Ht2. simpl. rewrite Hinsert, Htrace0.
  split; [done|]. rewrite <-!app_assoc, drop_app_length, !count_app, Hreq.
  by destruct (show_progress o).
Qed.

(** X21. When the directory of the destination is not there, [main] raises
    the error of [os.open] for an object of 1 MiB or more, and of less than
    2^53 bytes: the error is not turned into exit status 1, the destination
    file is not created, no other file has changed, and the store was asked
    for the size of the object and for nothing else. *)
Theorem main_missing_directory (o : options) (w : world) (size : Z) :
  passes_validation urlsplit o w →
  destination urlsplit o w ∉ dirs w →
  basename (destination urlsplit o w) ≠ "" →
  parent_exists w (destination urlsplit o w) = false →
  head_reply E = HeadOk size →
  1024 * 1024 ≤ size < 2 ^ 53 →
  ∃ msg w',
    main urlsplit E o w = (Raise (OSError msg), w') ∧
    files w' !! destination urlsplit o w = None ∧
    (∀ p, p ≠ destination urlsplit o w → files w' !! p = files w !! p) ∧
    new_events w (main urlsplit E o w)
    = [client_event o; EvHeadObject (bucket_of urlsplit o) (key_of urlsplit o)].
Proof.
  intros Hv Hdir Hbase Hparent Hhead Hsize.
  destruct (passes_validation_cleared o w Hv Hdir) as (Hnone & Hdirs & Hinsert).
  destruct (cleared_same urlsplit o w) as (Htrace0 & _ & _).
  set (w0 := logged (cleared urlsplit o w)
               [client_event o; EvHeadObject (bucket_of urlsplit o) (key_of urlsplit o)]).
  assert (main urlsplit E o w = (Raise (OSError "no such file or directory"), w0)) as Hmain.
  { rewrite main_head by done. unfold query_size. run. rewrite Hhead.
    rewrite decide_False by lia. rewrite <-app_assoc.
    unfold download_parallel. unfold mbind at 1, M_bind at 1.
    match goal with |- context [os_create E _ ?x] => change x with w0 end.
    rewrite (os_create_no_directory E w0 (destination urlsplit o w)); [done | | done | done |].
    - simpl. by rewrite Hdirs.
    - unfold parent_exists in *. simpl. by rewrite Hdirs. }
  unfold new_events. rewrite Hmain. eexists _, w0. split; [reflexivity|].
  split; [done|]. split.
  - intros p Hp. simpl. unfold cleared. destruct (path_exists w _); [|done]. simpl.
    by rewrite lookup_delete_ne.
  - simpl. by rewrite Htrace0, drop_app_length.
Qed.

(** X18. The force option removes the existing destination file before the
    store is asked for the object. When the Head query then fails, [main]
    raises with the old file gone and nothing downloaded in its place. *)
Theorem main_head_failure_after_force (o : options) (w : world) (e : exn) :
  passes_validation urlsplit o w →
  is_Some (files w !! destination urlsplit o w) →
  head_reply E = HeadRaises e →
  ∃ e' w',
    main urlsplit E o w = (Raise e', w') ∧
    force o = true ∧
    files w' = delete (destination urlsplit o w) (files w) ∧
    new_events w (main urlsplit E o w)
    = [client_event o; EvHeadObject (bucket_of urlsplit o) (key_of urlsplit o)].
Proof.
  intros Hv Hfile Hhead.
  assert (path_exists w (destination urlsplit o w) = true) as Hex.
  { unfold path_exists. rewrite (bool_decide_eq_true_2 (is_Some _)) by done.
    apply orb_true_r. }
  assert (force o = true) as Hforce.
  { destruct Hv as [_ [Hfree | [Hforce _]]]; [congruence | done]. }
  destruct (cleared_same urlsplit o w) as (Htrace0 & _ & _).
  assert (files (cleared urlsplit o w) = delete (destination urlsplit o w) (files w))
    as Hdel by (unfold cleared; by rewrite Hex).
  unfold new_events. rewrite main_head by done. unfold query_size. run. rewrite Hhead.
  destruct e as [msg | code | | | | | | |];
    try (eexists _, _; split; [reflexivity|]; simpl; split; [done|]; split; [done|];
         by rewrite Htrace0, <-app_assoc, drop_app_length).
  repeat case_decide;
    (eexists _, _; split; [reflexivity|]; simpl; split; [done|]; split; [done|];
     by rewrite Htrace0, <-app_assoc, drop_app_length).
Qed.

End MainRuns.
(** *** Examples of runs of [main] *)

Lemma clean_opts_pass_validation :
  passes_validation Examples.usplit Scenarios.clean_opts Examples.empty_world.
Proof. split; [reflexivity | left; reflexivity]. Defined.

Lemma no_pool_opts_pass_validation :
  passes_validation Examples.usplit Scenarios.no_pool_opts Examples.empty_world.
Proof. split; [reflexivity | left; reflexivity]. Defined.

Lemma force_opts_pass_validation :
  passes_validation Examples.usplit Scenarios.force_opts Examples.taken_world.
Proof. split; [reflexivity | right; split; [reflexivity | by eexists]]. Defined.

Lemma missing_dir_opts_pass_validation :
  passes_validation Examples.usplit Scenarios.missing_dir_opts Examples.empty_world.
Proof. split; [reflexivity | left; reflexivity]. Defined.

Lemma no_directories (p : string) : p ∉ dirs Examples.empty_world.
Proof. apply not_elem_of_empty. Defined.

(** A file in the working directory can be created where nothing is refused. *)
Lemma out_bin_creatable (E : env) :
  create_denied E "out.bin" = false → creatable E Examples.empty_world "out.bin".
Proof.
  intros Hallowed. split; [apply no_directories|]. split; [done|]. split; [reflexivity|done].
Defined.

Lemma megabyte_length : Z.of_nat (length Scenarios.megabyte) = 1048576.
Proof. unfold Scenarios.megabyte. rewrite length_replicate. lia. Qed.


Lemma main_interrupted_witness :
  exits_with_1
    (main Examples.usplit Scenarios.interrupted Scenarios.clean_opts Examples.empty_world) ∧
  (if clean Scenarios.clean_opts
   then files (main Examples.usplit Scenarios.interrupted Scenarios.clean_opts
                 Examples.empty_world).2
          !! destination Examples.usplit Scenarios.clean_opts Examples.empty_world = None
   else is_Some
          (files (main Examples.usplit Scenarios.interrupted Scenarios.clean_opts
                    Examples.empty_world).2
             !! destination Examples.usplit Scenarios.clean_opts Examples.empty_world)) ∧
  (∀ p, p ≠ destination Examples.usplit Scenarios.clean_opts Examples.empty_world →
        files (main Examples.usplit Scenarios.interrupted Scenarios.clean_opts
                 Examples.empty_world).2 !! p
        = files Examples.empty_world !! p) ∧
  dirs (main Examples.usplit Scenarios.interrupted Scenarios.clean_opts
          Examples.empty_world).2
  = dirs Examples.empty_world.
Proof.
  apply (main_interrupted Examples.usplit Scenarios.interrupted Scenarios.clean_opts
           Examples.empty_world 1048576 0).
  - exact clean_opts_pass_validation.
  - by apply out_bin_creatable.
  - reflexivity.
  - lia.
  - simpl. lia.
  - reflexivity.
  - simpl. lia.
Defined.


Lemma main_stopped_early_witness :
  exits_with_1
    (main Examples.usplit Scenarios.stopped_early Scenarios.clean_opts
       Examples.empty_world) ∧
  files (main Examples.usplit Scenarios.stopped_early Scenarios.clean_opts
           Examples.empty_world).2
    !! destination Examples.usplit Scenarios.clean_opts Examples.empty_world
  = (if clean Scenarios.clean_opts then None else Some []) ∧
  (∀ p, p ≠ destination Examples.usplit Scenarios.clean_opts Examples.empty_world →
        files (main Examples.usplit Scenarios.stopped_early Scenarios.clean_opts
                 Examples.empty_world).2 !! p
        = files Examples.empty_world !! p) ∧
  count is_request
    (new_events Examples.empty_world
       (main Examples.usplit Scenarios.stopped_early Scenarios.clean_opts
          Examples.empty_world)) = 0%nat.
Proof.
  apply (main_stopped_early Examples.usplit Scenarios.stopped_early Scenarios.clean_opts
           Examples.empty_world 1048576).
  - exact clean_opts_pass_validation.
  - by apply out_bin_creatable.
  - reflexivity.
  - lia.
  - simpl. lia.
  - reflexivity.
  - reflexivity.
  - simpl. lia.
Defined.

Lemma main_no_processes_witness :
  exits_with_1
    (main Examples.usplit (Examples.remote (HeadOk 1048576) Examples.steady)
       Scenarios.no_pool_opts Examples.empty_world) ∧
  files (main Examples.usplit (Examples.remote (HeadOk 1048576) Examples.steady)
           Scenarios.no_pool_opts Examples.empty_world).2
  = <[destination Examples.usplit Scenarios.no_pool_opts Examples.empty_world := []]>
      (files Examples.empty_world) ∧
  count is_request
    (new_events Examples.empty_world
       (main Examples.usplit (Examples.remote (HeadOk 1048576) Examples.steady)
          Scenarios.no_pool_opts Examples.empty_world)) = 0%nat.
Proof.
  apply (main_no_processes Examples.usplit
           (Examples.remote (HeadOk 1048576) Examples.steady) Scenarios.no_pool_opts
           Examples.empty_world 1048576).
  - exact no_pool_opts_pass_validation.
  - by apply out_bin_creatable.
  - reflexivity.
  - lia.
  - simpl. lia.
  - simpl. lia.
Defined.

Lemma main_missing_directory_witness :
  ∃ msg w',
    main Examples.usplit (Examples.remote (HeadOk 1048576) Examples.steady)
      Scenarios.missing_dir_opts Examples.empty_world = (Raise (OSError msg), w') ∧
    files w' !! destination Examples.usplit Scenarios.missing_dir_opts Examples.empty_world
    = None ∧
    (∀ p, p ≠ destination Examples.usplit Scenarios.missing_dir_opts Examples.empty_world →
          files w' !! p = files Examples.empty_world !! p) ∧
    new_events Examples.empty_world
      (main Examples.usplit (Examples.remote (HeadOk 1048576) Examples.steady)
         Scenarios.missing_dir_opts Examples.empty_world)
    = [client_event Scenarios.missing_dir_opts;
       EvHeadObject (bucket_of Examples.usplit Scenarios.missing_dir_opts)
         (key_of Examples.usplit Scenarios.missing_dir_opts)].
Proof.
  apply (main_missing_directory Examples.usplit
           (Examples.remote (HeadOk 1048576) Examples.steady) Scenarios.missing_dir_opts
           Examples.empty_world 1048576).
  - exact missing_dir_opts_pass_validation.
  - apply no_directories.
  - by vm_compute.
  - reflexivity.
  - reflexivity.
  - lia.
Defined.

Lemma main_head_failure_after_force_witness :
  ∃ e' w',
    main Examples.usplit (Examples.remote (HeadRaises (ClientError "404")) Examples.steady)
      Scenarios.force_opts Examples.taken_world = (Raise e', w') ∧
    force Scenarios.force_opts = true ∧
    files w'
    = delete (destination Examples.usplit Scenarios.force_opts Examples.taken_world)
        (files Examples.taken_world) ∧
    new_events Examples.taken_world
      (main Examples.usplit
         (Examples.remote (HeadRaises (ClientError "404")) Examples.steady)
         Scenarios.force_opts Examples.taken_world)
    = [client_event Scenarios.force_opts;
       EvHeadObject (bucket_of Examples.usplit Scenarios.force_opts)
         (key_of Examples.usplit Scenarios.force_opts)].
Proof.
  apply (main_head_failure_after_force Examples.usplit
           (Examples.remote (HeadRaises (ClientError "404")) Examples.steady)
           Scenarios.force_opts Examples.taken_world (ClientError "404")).
  - exact force_opts_pass_validation.
  - by eexists.
  - reflexivity.
Defined.

End CoordinatorRunFacts.

(** ** The plan *)

Module PlanFacts.
Import Planner PlannerFacts Coordinator CoordinatorFacts.

(** X19. The planner yields a valid plan exactly when its last part starts
    inside the object: for a size above 0 and below 2^53 and a part count
    above 0, the ranges are ordered, disjoint, contiguous and cover the
    object if and only if [ceil(size / num_parts) * (num_parts - 1) < size]. *)
Theorem gen_byte_ranges_valid_iff (size num_parts : Z) :
  0 < size < 2 ^ 53 → 0 < num_parts →
  (∃ plan, gen_byte_ranges size num_parts = Ok plan ∧ valid_plan size plan)
  ↔ last_part_inside size num_parts.
Proof.
  intros Hsize Hparts. split.
  - intros (plan & Hplan & Hvalid). by eapply valid_plan_last_part_inside.
  - intros Hlast.
    pose proof (last_part_inside_le size num_parts ltac:(lia) Hparts Hlast).
    eexists. rewrite gen_byte_ranges_exact by lia.
    split; [reflexivity|]. apply gen_loop_valid; [lia | done | done].
Qed.

Lemma gen_byte_ranges_valid_iff_witness :
  (∃ plan, gen_byte_ranges 5 4 = Ok plan ∧ valid_plan 5 plan) ↔ last_part_inside 5 4.
Proof. apply (gen_byte_ranges_valid_iff 5 4); lia. Defined.

(** X20. The plan of the coordinator. For every object size above 0 and
    below 2^53 and every split option between -2^53 and 2^53, the part count
    that [main] computes gives a valid plan. With a split option of 0 or
    more, no part is longer than the split size in MiB, 32 MiB for the
    option 0; with a negative option the object is one part. *)
Theorem coordinator_parts_fit (size split : Z) :
  0 < size < 2 ^ 53 → - 2 ^ 53 < split < 2 ^ 53 →
  ∃ num_parts plan,
    compute_num_parts size split = Ok num_parts ∧
    gen_byte_ranges size num_parts = Ok plan ∧
    valid_plan size plan ∧
    (0 ≤ split → ∀ r, r ∈ plan → range_len r ≤ 1024 * 1024 * effective_split split) ∧
    (split < 0 → plan = [(0, size - 1)]).
Proof.
  intros Hsize Hbound.
  destruct (compute_num_parts_ok size split Hsize Hbound) as (n & Hn & Hpos & Hlast).
  exists n. eexists. split; [done|].
  rewrite gen_byte_ranges_exact by lia. split; [reflexivity|].
  split; [apply gen_loop_valid; [lia | lia | done]|].
  assert (0 ≤ split → 0 < effective_split split) as Hsplit_pos
    by (unfold effective_split; case_decide; lia).
  assert (split < 0 → effective_split split < 0) as Hsplit_neg
    by (unfold effective_split; case_decide; lia).
  rewrite compute_num_parts_exact in Hn by done.
  set (d := 1024 * 1024 * effective_split split) in *.
  injection Hn as Hn. split.
  - intros Hnonneg r Hr.
    assert (0 < d) as Hd by (unfold d; lia).
    apply list_elem_of_lookup in Hr as [k Hk].
    apply gen_loop_lookup in Hk as [_ ->]. unfold range_len. simpl.
    pose proof (ceil_div_bounds size d Hd) as Hceil.
    pose proof (ceil_div_bounds size n ltac:(lia)) as Hpart.
    set (ps := ceil_div size n) in *.
    assert (size ≤ d * n) as Hfit by (subst n; nia).
    assert (ps ≤ d) by nia. lia.
  - intros Hneg.
    assert (d < 0) as Hd by (unfold d; lia).
    pose proof (ceil_div_negative size d ltac:(lia) Hd).
    assert (n = 1) as -> by lia.
    simpl. unfold ceil_div. rewrite Z.div_1_r. f_equal. f_equal; lia.
Qed.

Lemma coordinator_parts_fit_witness :
  ∃ num_parts plan,
    compute_num_parts (100 * 1024 * 1024) 0 = Ok num_parts ∧
    gen_byte_ranges (100 * 1024 * 1024) num_parts = Ok plan ∧
    valid_plan (100 * 1024 * 1024) plan ∧
    (0 ≤ 0 → ∀ r, r ∈ plan → range_len r ≤ 1024 * 1024 * effective_split 0) ∧
    (0 < 0 → plan = [(0, 100 * 1024 * 1024 - 1)]).
Proof. apply (coordinator_parts_fit (100 * 1024 * 1024) 0); lia. Defined.

End PlanFacts.
